(** * xfetch: the request-resilience pipeline

    A shallow embedding of the operation-id resolver, the rate limiter,
    the proxy (egress) manager, the session pool, the egress part of the
    GraphQL client and the paginator, followed by the properties that
    the design document states about them.

    Conventions of the embedding:
    - [Date.now()] and [new Date()] are explicit arguments (epoch
      milliseconds, in [Z]);
    - a JS [Map] is a [gmap string _]; a plain object used as a
      dictionary is the [gmap] of its own properties, read through
      [js_index], which also finds what the object inherits;
      an object stored in a [Map] and mutated in place is modelled by
      re-inserting the changed record under the key it was fetched with;
    - optional fields are [option]s, and JS truthiness is written out
      where the source relies on it;
    - an [async] function that can [throw] returns an [outcome];
    - console output and the progress spinner are not modelled. *)

From Stdlib Require Import ZArith Ascii String List Lia Bool Permutation.
From stdpp Require Import base option list gmap strings fin_maps.

Local Open Scope Z_scope.

(** ** JavaScript odds and ends *)

(** A settled promise: resolved with a value or rejected with an [Error]
    whose message is [msg]. *)
Inductive outcome (A : Type) : Type :=
  | Resolved (a : A)
  | Rejected (msg : string).
Arguments Resolved {A} a.
Arguments Rejected {A} msg.

(** [!!s] for a string: every string except the empty one is truthy. *)
Definition truthy_str (s : string) : bool :=
  match s with
  | EmptyString => false
  | String _ _ => true
  end.

(** [!!s] for an optional string ([undefined] is falsy). *)
Definition truthy_ostr (o : option string) : bool :=
  match o with
  | Some s => truthy_str s
  | None => false
  end.

(** [!!n] for an optional integer: [undefined] and [0] are falsy. *)
Definition truthy_onum (o : option Z) : bool :=
  match o with
  | Some n => negb (n =? 0)
  | None => false
  end.

(** The property names that every plain object inherits from
    [Object.prototype]: ten methods, the [constructor] and the
    [__proto__] accessor. *)
Definition Object_prototype : list string :=
  [ "constructor"; "__defineGetter__"; "__defineSetter__"; "hasOwnProperty";
    "__lookupGetter__"; "__lookupSetter__"; "isPrototypeOf";
    "propertyIsEnumerable"; "toString"; "valueOf"; "__proto__";
    "toLocaleString" ]%string.

(** What indexing a dictionary object can yield: one of its own string
    values, or the member of [Object.prototype] with that name (a
    function, or the prototype itself for [__proto__]). *)
Inductive jsvalue : Type :=
  | Str (s : string)
  | Builtin (name : string).

Definition truthy_value (v : jsvalue) : bool :=
  match v with
  | Str s => truthy_str s
  | Builtin _ => true
  end.

(** [obj[key]] on a plain object (an object literal, a spread copy, the
    result of [JSON.parse]) whose own properties are the entries of
    [obj]: the own property if there is one, the inherited member
    otherwise, [undefined] when there is neither. *)
Definition js_index (obj : gmap string string) (key : string) : option jsvalue :=
  match obj !! key with
  | Some v => Some (Str v)
  | None => if bool_decide (key ∈ Object_prototype) then Some (Builtin key)
            else None
  end.

(** [obj[key]] followed by a truthiness test, as in
    [if (obj[key]) return obj[key]]. *)
Definition truthy_entry (obj : gmap string string) (key : string)
  : option jsvalue :=
  match js_index obj key with
  | Some v => if truthy_value v then Some v else None
  | None => None
  end.

(** [obj[key] = value] on such an object: an own property is written,
    except that the [__proto__] setter ignores a string. *)
Definition js_assign (key value : string) (obj : gmap string string)
  : gmap string string :=
  if bool_decide (key = "__proto__"%string) then obj else <[key := value]> obj.

(** ** Operation-id resolver ([lib/query-ids/index.ts]) *)

Module QueryIds.

Definition FALLBACK_QUERY_IDS : gmap string string :=
  list_to_map
    [ ("UserByScreenName", "1VOOyvKkiI3FMmkeDNxM9A");
      ("UserByRestId", "tD8zKvQzwY3kdx5yz6YmOw");
      ("UsersByRestIds", "XArUHrueMW0KQdZUdqidrA");
      ("TweetDetail", "xd_EMdYvB9hfZsZ6Idri0w");
      ("TweetResultByRestId", "7xflPyRiUxGVbJd4uWmbfg");
      ("UserTweets", "q6xj5bs0hapm9309hexA_g");
      ("UserTweetsAndReplies", "6hvhmQQ9zPIR8RZWHFAm4w");
      ("UserMedia", "1H9ibIdchWO0_vz3wJLDTA");
      ("Likes", "lIDpu_NWL7_VhimGGt0o6A");
      ("HomeTimeline", "c-CzHF1LboFilMpsx4ZCrQ");
      ("HomeLatestTimeline", "BKB7oi212Fi7kQtCBGE4zA");
      ("Bookmarks", "2neUNDqrrFzbLui8yallcQ");
      ("SearchTimeline", "VhUd6vHVmLBcw0uX-6jMLA");
      ("Followers", "IOh4aS6UdGWGJUYTqliQ7Q");
      ("Following", "zx6e-TLzRkeDO_a7p4b3JQ");
      ("ListLatestTweetsTimeline", "RlZzktZY_9wJynoepm8ZsA") ]%string.

Record CachedQueryIds := {
  ids : gmap string string;
  fetchedAt : Z
}.

(** The manager's mutable part is its in-memory cache; [cacheTTL] is a
    private field initialised to 24 hours and never assigned again. *)
Record QueryIdManager := {
  cache : option CachedQueryIds
}.

Definition cacheTTL : Z := 24 * 60 * 60 * 1000.

Definition isCacheValid (now : Z) (m : QueryIdManager) : bool :=
  match cache m with
  | None => false
  | Some c => now - fetchedAt c <? cacheTTL
  end.

(** [this.isCacheValid() && this.cache?.ids[operationName]] *)
Definition cachedId (now : Z) (m : QueryIdManager) (operationName : string)
  : option jsvalue :=
  if isCacheValid now m then
    match cache m with
    | Some c => truthy_entry (ids c) operationName
    | None => None
    end
  else None.

Definition get (now : Z) (m : QueryIdManager) (operationName : string)
  : outcome jsvalue :=
  match cachedId now m operationName with
  | Some id => Resolved id
  | None =>
      match truthy_entry FALLBACK_QUERY_IDS operationName with
      | Some id => Resolved id
      | None => Rejected ("Unknown GraphQL operation: " ++ operationName)
      end
  end.

(** [list()] never touches the network: the cache if there is one,
    the fallback table otherwise. *)
Definition list_ids (m : QueryIdManager) : gmap string string :=
  match cache m with
  | Some c => ids c
  | None => FALLBACK_QUERY_IDS
  end.

(** What [refresh] got from the network: an exception somewhere (no
    connection, no body), a page without the bundle URL, or the bundle,
    given as the matches of the [queryId]/[operationName] pattern in
    scan order, each a pair (query id, operation name). *)
Inductive fetched_bundle : Type :=
  | FetchFailed
  | NoBundleUrl
  | Bundle (matches : list (string * string)).

(** [ids = { ...FALLBACK_QUERY_IDS }] followed by [ids[match[2]] = match[1]]
    for every match, in scan order. *)
Definition scanned_ids (matches : list (string * string)) : gmap string string :=
  fold_left (fun ids m => js_assign (snd m) (fst m) ids) matches
    FALLBACK_QUERY_IDS.

(** How the two file-system calls of [saveCache] went: [mkdirSync]
    comes before the assignment to [this.cache], [writeFileSync] after
    it. *)
Inductive saved : Type :=
  | Saved
  | MkdirFailed
  | WriteFailed.

(** [saveCache(ids)]: whether it returned normally, and the manager
    afterwards. *)
Definition saveCache (now : Z) (i : gmap string string) (w : saved)
    (m : QueryIdManager) : bool * QueryIdManager :=
  match w with
  | MkdirFailed => (false, m)
  | WriteFailed => (false, {| cache := Some {| ids := i; fetchedAt := now |} |})
  | Saved => (true, {| cache := Some {| ids := i; fetchedAt := now |} |})
  end.

(** [refresh()]: the table it returns and the manager afterwards.  An
    exception of [saveCache] is caught by the same [catch] as a failed
    download. *)
Definition refresh (now : Z) (got : fetched_bundle) (w : saved)
    (m : QueryIdManager) : gmap string string * QueryIdManager :=
  match got with
  | FetchFailed => (FALLBACK_QUERY_IDS, m)
  | NoBundleUrl => (FALLBACK_QUERY_IDS, m)
  | Bundle matches =>
      let i := scanned_ids matches in
      let '(ok, m') := saveCache now i w m in
      (if ok then i else FALLBACK_QUERY_IDS, m')
  end.

End QueryIds.

(** ** Rate limiter ([lib/rate-limit.ts]) *)

Module RateLimit.

Record RateLimitInfo := {
  limit : Z;
  remaining : Z;
  reset : Z            (* epoch seconds *)
}.

Record EndpointLimit := {
  info : RateLimitInfo;
  lastUpdated : Z
}.

(** [backoffMs] is a private field initialised to one minute and never
    assigned again. *)
Record RateLimiter := {
  limits : gmap string EndpointLimit
}.

Definition backoffMs : Z := 60000.

Definition update (now : Z) (endpoint : string) (i : RateLimitInfo)
    (rl : RateLimiter) : RateLimiter :=
  {| limits := <[endpoint := {| info := i; lastUpdated := now |}]> (limits rl) |}.

(** What a call of [waitIfNeeded] did before its promise settled:
    nothing, or one [await this.sleep(ms)]. *)
Inductive pause : Type :=
  | NoSleep
  | Sleep (ms : Z).

(** The longest delay a timer accepts, [2^31 - 1] milliseconds. *)
Definition TIMEOUT_MAX : Z := 2147483647.

(** The delay [setTimeout(f, ms)] arms its timer with: a delay below 1
    or above [TIMEOUT_MAX] is replaced by 1. *)
Definition timer_delay (ms : Z) : Z :=
  if (1 <=? ms) && (ms <=? TIMEOUT_MAX) then ms else 1.

(** A timer fires no earlier than its delay after it was armed. *)
Definition earliest_wakeup (armed_at : Z) (p : pause) : Z :=
  match p with
  | NoSleep => armed_at
  | Sleep ms => armed_at + timer_delay ms
  end.

(** [waitIfNeeded] reads the clock twice: [now1] in the staleness test
    and [now2] when it computes [waitMs].  The low-quota delay is
    [backoffMs / remaining], a float division in the source; it is only
    reached for [0 < remaining <= 5], where it is exact on integers. *)
Definition waitIfNeeded (now1 now2 : Z) (endpoint : string) (rl : RateLimiter)
  : outcome unit * pause * RateLimiter :=
  match limits rl !! endpoint with
  | None => (Resolved tt, NoSleep, rl)
  | Some l =>
      let i := info l in
      if 5 <? remaining i then (Resolved tt, NoSleep, rl)
      else
        let resetTime := reset i * 1000 in
        if resetTime <? now1 then
          (Resolved tt, NoSleep, {| limits := delete endpoint (limits rl) |})
        else if remaining i <=? 0 then
          let waitMs := resetTime - now2 + 1000 in
          (Resolved tt, Sleep waitMs, rl)
        else if remaining i <=? 5 then
          (Resolved tt, Sleep (backoffMs / remaining i), rl)
        else (Resolved tt, NoSleep, rl)
  end.

Definition getRemainingForEndpoint (endpoint : string) (rl : RateLimiter)
  : option Z :=
  (fun l => remaining (info l)) <$> limits rl !! endpoint.

Definition isLimited (now : Z) (endpoint : string) (rl : RateLimiter) : bool :=
  match limits rl !! endpoint with
  | None => false
  | Some l => (remaining (info l) <=? 0) && (now <? reset (info l) * 1000)
  end.

(** [new Date(limit.info.reset * 1000)], as epoch milliseconds. *)
Definition getResetTimeForEndpoint (endpoint : string) (rl : RateLimiter)
  : option Z :=
  (fun l => reset (info l) * 1000) <$> limits rl !! endpoint.

End RateLimit.

(** ** Proxy manager ([lib/proxy.ts]) *)

Module Proxy.

Inductive Protocol := http | https | socks4 | socks5.

Record ProxyConfig := {
  url : string;
  protocol : option Protocol;
  host : string;
  port : Z;
  auth : option (string * string)
}.

(** [st_url] is the [url] field of the status record. *)
Record ProxyStatus := {
  st_url : string;
  failures : Z;
  lastFailure : option Z;
  lastSuccess : option Z;
  disabled : bool
}.

Record ProxyManager := {
  proxies : list ProxyConfig;
  status : gmap string ProxyStatus;
  currentIndex : nat;
  maxFailures : Z;
  failureCooldownMs : Z
}.

Definition default_maxFailures : Z := 3.
Definition default_failureCooldownMs : Z := 5 * 60 * 1000.

(** The manager of [new ProxyManager({})]: defaults, no proxy. *)
Definition empty_manager : ProxyManager :=
  {| proxies := []; status := ∅; currentIndex := 0%nat;
     maxFailures := default_maxFailures;
     failureCooldownMs := default_failureCooldownMs |}.

Definition set_status (st : gmap string ProxyStatus) (pm : ProxyManager)
  : ProxyManager :=
  {| proxies := proxies pm; status := st; currentIndex := currentIndex pm;
     maxFailures := maxFailures pm;
     failureCooldownMs := failureCooldownMs pm |}.

Definition set_index (i : nat) (pm : ProxyManager) : ProxyManager :=
  {| proxies := proxies pm; status := status pm; currentIndex := i;
     maxFailures := maxFailures pm;
     failureCooldownMs := failureCooldownMs pm |}.

Definition fresh_status (u : string) : ProxyStatus :=
  {| st_url := u; failures := 0; lastFailure := None; lastSuccess := None;
     disabled := false |}.

(** The part of [addProxy] after [parseProxyUrl] succeeded with
    [config]: a URL that is already registered is ignored. *)
Definition addProxy (config : ProxyConfig) (pm : ProxyManager) : ProxyManager :=
  if existsb (fun p => String.eqb (url p) (url config)) (proxies pm) then pm
  else
    {| proxies := proxies pm ++ [config];
       status := <[url config := fresh_status (url config)]> (status pm);
       currentIndex := currentIndex pm;
       maxFailures := maxFailures pm;
       failureCooldownMs := failureCooldownMs pm |}.

(** [status.disabled = false; status.failures = 0] *)
Definition reenable (s : ProxyStatus) : ProxyStatus :=
  {| st_url := st_url s; failures := 0; lastFailure := lastFailure s;
     lastSuccess := lastSuccess s; disabled := false |}.

(** The predicate of the [filter] in [getAvailableProxies], with its
    side effect on the status map: whether [p] is kept, and the map
    afterwards. *)
Definition available_one (now cooldown : Z) (p : ProxyConfig)
    (st : gmap string ProxyStatus) : bool * gmap string ProxyStatus :=
  match st !! url p with
  | None => (true, st)
  | Some s =>
      match disabled s, lastFailure s with
      | true, Some lf =>
          if cooldown <=? now - lf then (true, <[url p := reenable s]> st)
          else (negb (disabled s), st)
      | _, _ => (negb (disabled s), st)
      end
  end.

Fixpoint available_from (now cooldown : Z) (ps : list ProxyConfig)
    (st : gmap string ProxyStatus)
  : list ProxyConfig * gmap string ProxyStatus :=
  match ps with
  | [] => ([], st)
  | p :: ps' =>
      let '(keep, st1) := available_one now cooldown p st in
      let '(rest, st2) := available_from now cooldown ps' st1 in
      (if keep then p :: rest else rest, st2)
  end.

Definition getAvailableProxies (now : Z) (pm : ProxyManager)
  : list ProxyConfig * ProxyManager :=
  let '(av, st) :=
    available_from now (failureCooldownMs pm) (proxies pm) (status pm) in
  (av, set_status st pm).

Definition resetAllProxies (pm : ProxyManager) : ProxyManager :=
  set_status (reenable <$> status pm) pm.

(** The [while (attempts < this.proxies.length)] loop of [getNext];
    [n] is the number of attempts left.  The index is reduced modulo
    the length, so the lookup cannot miss in a non-empty list. *)
Fixpoint scan (n : nat) (ps : list ProxyConfig)
    (st : gmap string ProxyStatus) (idx : nat)
  : option ProxyConfig * nat :=
  match n with
  | O => (None, idx)
  | S n' =>
      let idx' := ((idx + 1) mod length ps)%nat in
      match ps !! (idx mod length ps)%nat with
      | None => (None, idx')
      | Some p =>
          match st !! url p with
          | Some s =>
              if negb (disabled s) then (Some p, idx')
              else scan n' ps st idx'
          | None => scan n' ps st idx'
          end
      end
  end.

Definition getNext (now : Z) (pm : ProxyManager)
  : option ProxyConfig * ProxyManager :=
  match proxies pm with
  | [] => (None, pm)
  | _ :: _ =>
      let '(availableProxies, pm1) := getAvailableProxies now pm in
      match availableProxies with
      | [] => (head (proxies pm1), resetAllProxies pm1)
      | _ :: _ =>
          let '(found, idx) :=
            scan (length (proxies pm1)) (proxies pm1) (status pm1)
                 (currentIndex pm1) in
          match found with
          | Some p => (Some p, set_index idx pm1)
          | None => (head availableProxies, set_index idx pm1)
          end
      end
  end.

Definition getCurrent (pm : ProxyManager) : option ProxyConfig :=
  match proxies pm with
  | [] => None
  | _ :: _ => proxies pm !! (currentIndex pm mod length (proxies pm))%nat
  end.

Definition markFailed (now : Z) (u : string) (pm : ProxyManager)
  : ProxyManager :=
  match status pm !! u with
  | None => pm
  | Some s =>
      let f := failures s + 1 in
      let s' :=
        {| st_url := st_url s; failures := f; lastFailure := Some now;
           lastSuccess := lastSuccess s;
           disabled := if maxFailures pm <=? f then true else disabled s |} in
      set_status (<[u := s']> (status pm)) pm
  end.

Definition markSuccess (now : Z) (u : string) (pm : ProxyManager)
  : ProxyManager :=
  match status pm !! u with
  | None => pm
  | Some s =>
      let s' :=
        {| st_url := st_url s; failures := 0; lastFailure := lastFailure s;
           lastSuccess := Some now; disabled := false |} in
      set_status (<[u := s']> (status pm)) pm
  end.

Definition hasProxies (pm : ProxyManager) : bool :=
  (0 <? length (proxies pm))%nat.

(** [n] successive calls of [getNext], one per clock reading. *)
Fixpoint getNext_many (nows : list Z) (pm : ProxyManager)
  : list (option ProxyConfig) * ProxyManager :=
  match nows with
  | [] => ([], pm)
  | now :: rest =>
      let '(r, pm1) := getNext now pm in
      let '(rs, pm2) := getNext_many rest pm1 in
      (r :: rs, pm2)
  end.

Record ProxyStats := {
  total : nat;
  available : nat;
  stat_disabled : Z         (* the [disabled] field of the stats *)
}.

(** [getStats()]; it runs the availability check, so it updates the
    manager like [getAvailableProxies] does. *)
Definition getStats (now : Z) (pm : ProxyManager) : ProxyStats * ProxyManager :=
  let '(av, pm1) := getAvailableProxies now pm in
  ({| total := length (proxies pm1); available := length av;
      stat_disabled := Z.of_nat (length (proxies pm1)) - Z.of_nat (length av) |},
   pm1).

(** [n] successive [markFailed] calls on the same URL, one per clock
    reading. *)
Fixpoint markFailed_many (nows : list Z) (u : string) (pm : ProxyManager)
  : ProxyManager :=
  match nows with
  | [] => pm
  | now :: rest => markFailed_many rest u (markFailed now u pm)
  end.

(** [content.split('\n')] *)
Fixpoint split_on (sep : Ascii.ascii) (s : string) : list string :=
  match s with
  | EmptyString => [EmptyString]
  | String c s' =>
      if Ascii.eqb c sep then EmptyString :: split_on sep s'
      else
        match split_on sep s' with
        | h :: t => String c h :: t
        | [] => [String c EmptyString]
        end
  end.

(** [trimmed.startsWith('#')] *)
Definition starts_with_hash (s : string) : bool :=
  match s with
  | String c _ => Ascii.eqb c "#"%char
  | EmptyString => false
  end.

Section LoadFromFile.

(** [String.prototype.trim] and [parseProxyUrl] (which rests on the
    platform's URL parser) are taken as given; [parseProxyUrl] yields
    [None] where the source throws [Invalid proxy URL]. *)
Variable trim : string -> string.
Variable parseProxyUrl : string -> option ProxyConfig.

(** [addProxy(url)]: [None] when the URL does not parse (the source
    throws). *)
Definition addProxyUrl (u : string) (pm : ProxyManager) : option ProxyManager :=
  match parseProxyUrl u with
  | Some config => Some (addProxy config pm)
  | None => None
  end.

(** One turn of the [for (const line of lines)] loop: the manager and
    the warnings printed so far. *)
Definition load_line (acc : ProxyManager * list string) (line : string)
  : ProxyManager * list string :=
  let '(pm, warnings) := acc in
  let trimmed := trim line in
  if negb (truthy_str trimmed) || starts_with_hash trimmed then acc
  else
    match addProxyUrl trimmed pm with
    | Some pm' => (pm', warnings)
    | None => (pm, warnings ++ [("Skipping invalid proxy: " ++ trimmed)%string])
    end.

(** [loadFromFile(filePath)]; [content] is [None] when the resolved path
    does not exist. *)
Definition loadFromFile (resolved : string) (content : option string)
    (pm : ProxyManager) : outcome (ProxyManager * list string) :=
  match content with
  | None => Rejected ("Proxy file not found: " ++ resolved)
  | Some text =>
      Resolved (fold_left load_line (split_on "010"%char text) (pm, []))
  end.

End LoadFromFile.

End Proxy.

(** ** Session pool ([lib/auth/pool.ts]) *)

Module Pool.

Record Session := {
  authToken : string;
  ct0 : string;
  username : option string;
  userId : option string
}.

(** [PooledSession extends Session]: the four session fields plus the
    pool's bookkeeping. *)
Record PooledSession := {
  session : Session;
  rateLimits : gmap string RateLimit.RateLimitInfo;
  lastUsed : Z;
  cooldownUntil : option Z
}.

Record SessionPool := {
  sessions : list PooledSession;
  currentIndex : nat
}.

Definition empty_pool : SessionPool :=
  {| sessions := []; currentIndex := 0%nat |}.

Definition add (s : Session) (pool : SessionPool) : SessionPool :=
  {| sessions :=
       sessions pool ++
       [ {| session := s; rateLimits := ∅; lastUsed := 0;
            cooldownUntil := None |} ];
     currentIndex := currentIndex pool |}.

(** [splice(index, 1)] for an index counted from the front. *)
Definition remove (index : nat) (pool : SessionPool) : SessionPool :=
  {| sessions := delete index (sessions pool);
     currentIndex := currentIndex pool |}.

Definition size (pool : SessionPool) : nat := length (sessions pool).

(** [!s.cooldownUntil || s.cooldownUntil < now] *)
Definition not_in_cooldown (now : Z) (s : PooledSession) : bool :=
  negb (truthy_onum (cooldownUntil s)) ||
  match cooldownUntil s with
  | Some c => c <? now
  | None => false
  end.

(** The [filter] of [getNext]; every kept session comes with its
    position in [this.sessions], because the chosen one is mutated in
    place afterwards and the filtered array shares its objects with the
    pool. *)
Fixpoint available_from (now : Z) (i : nat) (l : list PooledSession)
  : list (nat * PooledSession) :=
  match l with
  | [] => []
  | s :: l' =>
      if not_in_cooldown now s
      then (i, s) :: available_from now (S i) l'
      else available_from now (S i) l'
  end.

Definition availableSessions (now : Z) (pool : SessionPool)
  : list (nat * PooledSession) :=
  available_from now 0 (sessions pool).

(** [a.cooldownUntil || 0] *)
Definition cooldown_key (s : PooledSession) : Z :=
  match cooldownUntil s with
  | Some c => c
  | None => 0
  end.

(** [Array.prototype.sort] with the comparator
    [(a, b) => key a - key b]: a stable ascending sort. *)
Fixpoint insert_by_cooldown (s : PooledSession) (l : list PooledSession)
  : list PooledSession :=
  match l with
  | [] => [s]
  | x :: l' =>
      if cooldown_key s <=? cooldown_key x then s :: x :: l'
      else x :: insert_by_cooldown s l'
  end.

Fixpoint sortedByCooldown (l : list PooledSession) : list PooledSession :=
  match l with
  | [] => []
  | s :: l' => insert_by_cooldown s (sortedByCooldown l')
  end.

Definition touch (now : Z) (s : PooledSession) : PooledSession :=
  {| session := session s; rateLimits := rateLimits s; lastUsed := now;
     cooldownUntil := cooldownUntil s |}.

Definition getNext (now : Z) (pool : SessionPool)
  : option Session * SessionPool :=
  match sessions pool with
  | [] => (None, pool)
  | _ :: _ =>
      match availableSessions now pool with
      | [] => (session <$> head (sortedByCooldown (sessions pool)), pool)
      | (_ :: _) as av =>
          match av !! (currentIndex pool mod length av)%nat with
          | Some (i, s) =>
              (Some (session s),
               {| sessions := alter (touch now) i (sessions pool);
                  currentIndex := S (currentIndex pool) |})
          | None => (None, pool)
          end
      end
  end.

Definition hard_lockout_ms : Z := 24 * 60 * 60 * 1000.

Definition limit_session (now : Z) (endpoint : string) (resetTime : Z)
    (s : PooledSession) : PooledSession :=
  {| session := session s;
     rateLimits :=
       <[endpoint := {| RateLimit.limit := 0; RateLimit.remaining := 0;
                        RateLimit.reset := resetTime |}]> (rateLimits s);
     lastUsed := lastUsed s;
     cooldownUntil := Some (now + hard_lockout_ms) |}.

(** [this.sessions.find(s => s.authToken === session.authToken)]: the
    first pooled session with that token. *)
Definition find_by_token (tok : string) (l : list PooledSession)
  : option (nat * PooledSession) :=
  list_find (fun s => authToken (session s) = tok) l.

Definition markLimited (now : Z) (c : Session) (endpoint : string)
    (resetTime : Z) (pool : SessionPool) : SessionPool :=
  match find_by_token (authToken c) (sessions pool) with
  | Some (i, _) =>
      {| sessions := alter (limit_session now endpoint resetTime) i (sessions pool);
         currentIndex := currentIndex pool |}
  | None => pool
  end.

Definition getAvailableCount (now : Z) (pool : SessionPool) : nat :=
  length (availableSessions now pool).

(** Successive [getNext] calls, one per clock reading; the results are
    dropped, the pool is kept. *)
Fixpoint getNext_run (nows : list Z) (pool : SessionPool) : SessionPool :=
  match nows with
  | [] => pool
  | now :: rest => getNext_run rest (snd (getNext now pool))
  end.

(** Successive [getNext] calls with their results. *)
Fixpoint getNext_many (nows : list Z) (pool : SessionPool)
  : list (option Session) * SessionPool :=
  match nows with
  | [] => ([], pool)
  | now :: rest =>
      let '(r, pool1) := getNext now pool in
      let '(rs, pool2) := getNext_many rest pool1 in
      (r :: rs, pool2)
  end.

End Pool.

(** ** Request orchestrator ([lib/client/base.ts], [graphql]) *)

Module Client.

(** What the server sent back, as far as [graphql] looks at it: the three
    rate-limit headers after [parseInt(..) || 0], the [errors] array of
    the body if there is one, and the payload. *)
Record Response (D : Type) := {
  rl_limit : Z;
  rl_remaining : Z;
  rl_reset : Z;
  errors : option (list string);
  data : D
}.
Arguments rl_limit {D} _.
Arguments rl_remaining {D} _.
Arguments rl_reset {D} _.
Arguments errors {D} _.
Arguments data {D} _.

(** [await request(..)] either resolves with a response or throws
    (network failure, timeout). *)
Inductive transport (D : Type) : Type :=
  | Responded (r : Response D)
  | Failed (msg : string).
Arguments Responded {D} r.
Arguments Failed {D} msg.

Record BaseClient := {
  queryIds : QueryIds.QueryIdManager;
  rateLimiter : RateLimit.RateLimiter;
  proxyManager : option Proxy.ProxyManager
}.

(** The clock readings of one [graphql] call, in program order. *)
Record Clock := {
  t_resolve : Z;     (* isCacheValid *)
  t_stale : Z;       (* waitIfNeeded, staleness test *)
  t_wait : Z;        (* waitIfNeeded, waitMs *)
  t_dispatch : Z;    (* getDispatcher -> getNext *)
  t_settle : Z;      (* markSuccess / rateLimiter.update *)
  t_fail : Z;        (* markFailed *)
  t_rotate : Z       (* getNext in the catch block *)
}.

(** What happened on the egress side of one call: the proxy the request
    was dispatched through, and the URLs handed to [markSuccess] and
    [markFailed]. *)
Record Egress := {
  dispatched : option Proxy.ProxyConfig;
  marked_success : option string;
  marked_failed : option string
}.

(** [getDispatcher]: the proxy agent is built from the proxy that
    [getNext] returns; no agent without a manager or without proxies. *)
Definition getDispatcher (now : Z) (pmo : option Proxy.ProxyManager)
  : option Proxy.ProxyConfig * option Proxy.ProxyManager :=
  match pmo with
  | None => (None, None)
  | Some pm =>
      if Proxy.hasProxies pm then
        let '(p, pm1) := Proxy.getNext now pm in (p, Some pm1)
      else (None, Some pm)
  end.

(** The [catch] block: mark the failure on [currentProxy] and rotate. *)
Definition on_error (ck : Clock) (currentProxy : option Proxy.ProxyConfig)
    (pmo : option Proxy.ProxyManager) : option Proxy.ProxyManager :=
  match currentProxy with
  | Some cp =>
      (fun pm =>
         snd (Proxy.getNext (t_rotate ck)
                (Proxy.markFailed (t_fail ck) (Proxy.url cp) pm))) <$> pmo
  | None => pmo
  end.

Definition join_messages (l : list string) : string :=
  String.concat ", " l.

(** [graphql], from the resolution of the operation id to the result;
    the jitter sleep is left out.  The value is the settled promise, the
    egress report, the pause taken by the rate limiter, and the client
    afterwards. *)
Definition graphql {D : Type} (ck : Clock) (operationName : string)
    (tr : transport D) (c : BaseClient)
  : outcome D * Egress * RateLimit.pause * BaseClient :=
  match QueryIds.get (t_resolve ck) (queryIds c) operationName with
  | Rejected msg =>
      (Rejected msg,
       {| dispatched := None; marked_success := None; marked_failed := None |},
       RateLimit.NoSleep, c)
  | Resolved _ =>
      let '(_, slept, rl1) :=
        RateLimit.waitIfNeeded (t_stale ck) (t_wait ck) operationName
          (rateLimiter c) in
      let '(dispatcher, pmo1) := getDispatcher (t_dispatch ck) (proxyManager c) in
      let currentProxy := pmo1 ≫= Proxy.getCurrent in
      let cur_url := Proxy.url <$> currentProxy in
      match tr with
      | Failed msg =>
          (Rejected msg,
           {| dispatched := dispatcher; marked_success := None;
              marked_failed := cur_url |},
           slept,
           {| queryIds := queryIds c; rateLimiter := rl1;
              proxyManager := on_error ck currentProxy pmo1 |})
      | Responded r =>
          let pmo2 :=
            match currentProxy with
            | Some cp => Proxy.markSuccess (t_settle ck) (Proxy.url cp) <$> pmo1
            | None => pmo1
            end in
          let rl2 :=
            RateLimit.update (t_settle ck) operationName
              {| RateLimit.limit := rl_limit r;
                 RateLimit.remaining := rl_remaining r;
                 RateLimit.reset := rl_reset r |} rl1 in
          match errors r with
          | Some msgs =>
              (Rejected ("GraphQL Error: " ++ join_messages msgs),
               {| dispatched := dispatcher; marked_success := cur_url;
                  marked_failed := cur_url |},
               slept,
               {| queryIds := queryIds c; rateLimiter := rl2;
                  proxyManager := on_error ck currentProxy pmo2 |})
          | None =>
              (Resolved (data r),
               {| dispatched := dispatcher; marked_success := cur_url;
                  marked_failed := None |},
               slept,
               {| queryIds := queryIds c; rateLimiter := rl2;
                  proxyManager := pmo2 |})
          end
      end
  end.

(** [getProxyStats()]: [this.proxyManager?.getStats() || null]. *)
Definition getProxyStats (now : Z) (c : BaseClient)
  : option Proxy.ProxyStats * BaseClient :=
  match proxyManager c with
  | None => (None, c)
  | Some pm =>
      let '(st, pm1) := Proxy.getStats now pm in
      (Some st, {| queryIds := queryIds c; rateLimiter := rateLimiter c;
                   proxyManager := Some pm1 |})
  end.

End Client.

(** ** Paginated results ([types/twitter.ts]) *)

Module Twitter.

Record PaginatedResult (T : Type) := {
  items : list T;
  cursor : option string;
  hasMore : bool
}.
Arguments items {T} _.
Arguments cursor {T} _.
Arguments hasMore {T} _.

End Twitter.

(** ** Paginator ([lib/pagination.ts]) *)

Module Pagination.

Record PaginationOptions := {
  all : option bool;
  maxPages : option Z;      (* [None]: absent, or the NaN of a failed parseInt *)
  resume : option string;
  delay : option Z;
  silent : option bool
}.

Record CursorState := {
  cursor : option string;
  pagesFetched : Z;
  totalItems : Z;
  lastUpdated : Z;          (* the ISO-8601 instant, as epoch milliseconds *)
  query : option string
}.

(** A file on disk either reads and parses as a checkpoint, or makes
    [readFileSync] or [JSON.parse] throw.  Paths are taken as already
    resolved; the file system is the map from paths to contents. *)
Inductive file : Type :=
  | Checkpoint (s : CursorState)
  | Unparsable.

Record Paginator := {
  options : PaginationOptions;
  state : CursorState
}.

(** [!!this.options.all] *)
Definition all_set (o : PaginationOptions) : bool :=
  match all o with
  | Some b => b
  | None => false
  end.

(** The constructor: [{ delay: 1000, silent: false, ...options }] and a
    zeroed state stamped with the current time. *)
Definition new_Paginator (now : Z) (o : PaginationOptions) : Paginator :=
  {| options :=
       {| all := all o; maxPages := maxPages o; resume := resume o;
          delay := Some (default 1000 (delay o));
          silent := Some (default false (silent o)) |};
     state :=
       {| cursor := None; pagesFetched := 0; totalItems := 0;
          lastUpdated := now; query := None |} |}.

Definition set_state (s : CursorState) (p : Paginator) : Paginator :=
  {| options := options p; state := s |}.

(** [loadState()] as [fetchAll] calls it, without a file argument. *)
Definition loadState (disk : gmap string file) (p : Paginator)
  : option CursorState * Paginator :=
  match resume (options p) with
  | Some f =>
      if truthy_str f then
        match disk !! f with
        | Some (Checkpoint d) => (Some d, set_state d p)
        | Some Unparsable => (None, p)
        | None => (None, p)
        end
      else (None, p)
  | None => (None, p)
  end.

(** How one checkpoint write went.  [saveState] swallows every
    exception of the file system: when [mkdirSync] or the opening of the
    file fails, nothing is written; when [writeFileSync] fails after it
    has truncated the file, what is left does not parse. *)
Inductive written : Type :=
  | Written
  | NotWritten
  | Truncated.

(** The world a run depends on besides the server.  [clock_at k] is the
    time of the checkpoint write that follows the [k]-th call of the run
    (calls are counted from 0), [write_at k] is how that write goes, and
    [unlinks] tells whether the [unlinkSync] of [clearState] succeeds. *)
Record World := {
  clock_at : nat -> Z;
  write_at : nat -> written;
  unlinks : bool
}.

(** [saveState(cursor)]: a no-op without a resume path; otherwise the
    file is overwritten with the cursor and the counters of
    [this.state] ([query] is not carried over), unless the write fails,
    which the [catch] hides from the caller. *)
Definition saveState (now : Z) (w : written) (c : option string)
    (p : Paginator) (disk : gmap string file) : gmap string file :=
  match resume (options p) with
  | Some f =>
      if truthy_str f then
        match w with
        | Written =>
            <[f := Checkpoint
                     {| cursor := c;
                        pagesFetched := pagesFetched (state p);
                        totalItems := totalItems (state p);
                        lastUpdated := now;
                        query := None |}]> disk
        | NotWritten => disk
        | Truncated => <[f := Unparsable]> disk
        end
      else disk
  | None => disk
  end.

(** [clearState()]: the file is removed when [unlinkSync] succeeds
    ([u]); its exception is swallowed as well. *)
Definition clearState (u : bool) (p : Paginator) (disk : gmap string file)
  : gmap string file :=
  match resume (options p) with
  | Some f => if truthy_str f && u then delete f disk else disk
  | None => disk
  end.

(** The page cap: a number or [Infinity]. *)
Inductive cap : Type :=
  | Finite (n : Z)
  | Infinity.

(** [this.options.maxPages || (this.options.all ? Infinity : 1)] *)
Definition maxPages_of (o : PaginationOptions) : cap :=
  match maxPages o with
  | Some n => if n =? 0 then (if all_set o then Infinity else Finite 1)
              else Finite n
  | None => if all_set o then Infinity else Finite 1
  end.

(** [pageCount < maxPages] *)
Definition below (pageCount : Z) (c : cap) : bool :=
  match c with
  | Finite n => pageCount <? n
  | Infinity => true
  end.

Section FetchAll.

Context {T : Type}.

(** One call of the page-fetch function either yields a page or throws. *)
Inductive fetched : Type :=
  | Page (r : Twitter.PaginatedResult T)
  | Throws (msg : string).

(** The page-fetch function may be a closure over a changing server:
    its answer depends on the cursor and on how many calls this run has
    already made. *)
Definition FetchPage : Type := nat -> option string -> fetched.

(** The local variables of [fetchAll] together with the objects it
    mutates: the paginator, the disk, and the list of inter-page sleeps
    taken so far. *)
Record Loop := {
  allItems : list T;
  cur : option string;
  more : bool;
  pageCount : Z;
  calls : nat;
  slept : list Z;
  pg : Paginator;
  disk : gmap string file
}.

Variable fetchFn : FetchPage.
Variable io : World.

(** The body of the [while] loop after [fetchFn] returned [r]. *)
Definition step (mx : cap) (s : Loop) (r : Twitter.PaginatedResult T) : Loop :=
  let allItems' := allItems s ++ Twitter.items r in
  let pageCount' := pageCount s + 1 in
  let pg' :=
    set_state
      {| cursor := cursor (state (pg s));
         pagesFetched := pageCount';
         totalItems := Z.of_nat (length allItems');
         lastUpdated := lastUpdated (state (pg s));
         query := query (state (pg s)) |} (pg s) in
  let more' := Twitter.hasMore r && truthy_ostr (Twitter.cursor r) in
  let cur' := Twitter.cursor r in
  let disk' := saveState (clock_at io (calls s)) (write_at io (calls s)) cur' pg' (disk s) in
  let slept' :=
    if more' && below pageCount' mx && truthy_onum (delay (options pg'))
    then slept s ++ [default 0 (delay (options pg'))]
    else slept s in
  {| allItems := allItems'; cur := cur'; more := more';
     pageCount := pageCount'; calls := S (calls s); slept := slept';
     pg := pg'; disk := disk' |}.

(** [while (hasMore && pageCount < maxPages)], with [fuel] bounding the
    number of iterations.  [Some (s, None)]: the loop ended in state [s];
    [Some (s, Some msg)]: [fetchFn] threw [msg] in state [s]; [None]: the
    fuel ran out. *)
Fixpoint run (fuel : nat) (mx : cap) (s : Loop) : option (Loop * option string) :=
  if more s && below (pageCount s) mx then
    match fuel with
    | O => None
    | S fuel' =>
        match fetchFn (calls s) (cur s) with
        | Throws msg => Some (s, Some msg)
        | Page r => run fuel' mx (step mx s r)
        end
    end
  else Some (s, None).

Record Fetched := {
  f_items : list T;
  pagesLoaded : Z;
  complete : bool
}.

(** The locals before the loop: a fresh start, or the cursor and page
    count of the loaded checkpoint when it carries a (truthy) cursor. *)
Definition start (p : Paginator) (d : gmap string file) : Loop :=
  let '(savedState, p1) := loadState d p in
  let fresh :=
    {| allItems := []; cur := None; more := true; pageCount := 0;
       calls := 0%nat; slept := []; pg := p1; disk := d |} in
  match savedState with
  | Some sv =>
      if truthy_ostr (cursor sv) then
        {| allItems := []; cur := cursor sv; more := true;
           pageCount := pagesFetched sv; calls := 0%nat; slept := [];
           pg := set_state sv p1; disk := d |}
      else fresh
  | None => fresh
  end.

(** [fetchAll(fetchFn)]: the settled promise, the locals at the end
    (with the paginator, the number of calls made and the sleeps taken),
    and the disk afterwards; [None] when the fuel ran out. *)
Definition fetchAll (fuel : nat) (p : Paginator) (d : gmap string file)
  : option (outcome Fetched * Loop * gmap string file) :=
  let mx := maxPages_of (options p) in
  match run fuel mx (start p d) with
  | None => None
  | Some (s, None) =>
      let d' :=
        if negb (more s) || negb (all_set (options (pg s)))
        then clearState (unlinks io) (pg s) (disk s) else disk s in
      Some (Resolved {| f_items := allItems s; pagesLoaded := pageCount s;
                        complete := negb (more s) |}, s, d')
  | Some (s, Some msg) =>
      Some (Rejected msg, s, saveState (clock_at io (calls s)) (write_at io (calls s)) (cur s) (pg s)
                 (disk s))
  end.

End FetchAll.

Arguments fetched T : clear implicits.
Arguments FetchPage T : clear implicits.
Arguments Loop T : clear implicits.
Arguments Fetched T : clear implicits.

Section Stream.

Context {T : Type}.

(** One value handed to the consumer of [stream]. *)
Record Yielded := {
  y_items : list T;
  y_page : Z;
  y_cursor : option string;
  y_hasMore : bool
}.

(** The locals of [stream] with the objects it mutates and the values
    yielded so far. *)
Record StreamLoop := {
  g_cur : option string;
  g_more : bool;
  g_pageCount : Z;
  g_calls : nat;
  g_slept : list Z;
  g_pg : Paginator;
  g_disk : gmap string file;
  g_out : list Yielded
}.

Variable fetchFn : FetchPage T.
Variable io : World.

(** The body of the loop of [stream] after [fetchFn] returned [r], the
    consumer asking for the next value each time. *)
Definition stream_step (mx : cap) (s : StreamLoop)
    (r : Twitter.PaginatedResult T) : StreamLoop :=
  let pageCount' := g_pageCount s + 1 in
  let pg' :=
    set_state
      {| cursor := cursor (state (g_pg s));
         pagesFetched := pageCount';
         totalItems := totalItems (state (g_pg s))
                       + Z.of_nat (length (Twitter.items r));
         lastUpdated := lastUpdated (state (g_pg s));
         query := query (state (g_pg s)) |} (g_pg s) in
  let y := {| y_items := Twitter.items r; y_page := pageCount';
              y_cursor := Twitter.cursor r; y_hasMore := Twitter.hasMore r |} in
  let more' := Twitter.hasMore r && truthy_ostr (Twitter.cursor r) in
  let cur' := Twitter.cursor r in
  let disk' := saveState (clock_at io (g_calls s)) (write_at io (g_calls s)) cur' pg'
      (g_disk s) in
  let slept' :=
    if more' && below pageCount' mx && truthy_onum (delay (options pg'))
    then g_slept s ++ [default 0 (delay (options pg'))]
    else g_slept s in
  {| g_cur := cur'; g_more := more'; g_pageCount := pageCount';
     g_calls := S (g_calls s); g_slept := slept'; g_pg := pg';
     g_disk := disk'; g_out := g_out s ++ [y] |}.

Fixpoint stream_run (fuel : nat) (mx : cap) (s : StreamLoop)
  : option (StreamLoop * option string) :=
  if g_more s && below (g_pageCount s) mx then
    match fuel with
    | O => None
    | S fuel' =>
        match fetchFn (g_calls s) (g_cur s) with
        | Throws msg => Some (s, Some msg)
        | Page r => stream_run fuel' mx (stream_step mx s r)
        end
    end
  else Some (s, None).

Definition stream_start (p : Paginator) (d : gmap string file) : StreamLoop :=
  let '(savedState, p1) := loadState d p in
  let fresh :=
    {| g_cur := None; g_more := true; g_pageCount := 0; g_calls := 0%nat;
       g_slept := []; g_pg := p1; g_disk := d; g_out := [] |} in
  match savedState with
  | Some sv =>
      if truthy_ostr (cursor sv) then
        {| g_cur := cursor sv; g_more := true; g_pageCount := pagesFetched sv;
           g_calls := 0%nat; g_slept := []; g_pg := p1; g_disk := d;
           g_out := [] |}
      else fresh
  | None => fresh
  end.

(** [stream(fetchFn)] consumed to its end: the values yielded, the error
    that ended the iteration if [fetchFn] threw (there is no [catch] in
    [stream]), the locals at the end, and the disk afterwards. *)
Definition stream (fuel : nat) (p : Paginator) (d : gmap string file)
  : option (list Yielded * option string * StreamLoop * gmap string file) :=
  match stream_run fuel (maxPages_of (options p)) (stream_start p d) with
  | None => None
  | Some (s, None) =>
      let d' := if negb (g_more s) then clearState (unlinks io) (g_pg s) (g_disk s)
                else g_disk s in
      Some (g_out s, None, s, d')
  | Some (s, Some msg) => Some (g_out s, Some msg, s, g_disk s)
  end.

End Stream.

Arguments Yielded T : clear implicits.
Arguments StreamLoop T : clear implicits.

Section ExecutePaginated.

Context {T : Type}.

(** The pagination flags of a command, as the command-line parser hands
    them over. *)
Record PaginatedCommandOptions := {
  c_all : option bool;
  c_maxPages : option string;
  c_resume : option string;
  c_delay : option string;
  c_cursor : option string
}.

(** [parseInt] is taken as given; [None] stands for [NaN]. *)
Variable parseInt : string -> option Z.

Definition createPaginationOptions (cli : PaginatedCommandOptions)
  : PaginationOptions :=
  {| all := c_all cli;
     maxPages := match c_maxPages cli with
                 | Some m => if truthy_str m then parseInt m else None
                 | None => None
                 end;
     resume := c_resume cli;
     delay := match c_delay cli with
              | Some dl => if truthy_str dl then parseInt dl else Some 1000
              | None => Some 1000
              end;
     silent := None |}.

(** [new Paginator(createPaginationOptions(..))]: the keys that
    [createPaginationOptions] sets override the constructor's defaults
    (also [delay] when it is [NaN]); [silent] is not set and stays
    [false]. *)
Definition command_paginator (now : Z) (cli : PaginatedCommandOptions)
  : Paginator :=
  let o := createPaginationOptions cli in
  {| options := {| all := all o; maxPages := maxPages o; resume := resume o;
                   delay := delay o; silent := Some false |};
     state := {| cursor := None; pagesFetched := 0; totalItems := 0;
                 lastUpdated := now; query := None |} |}.

(** What [executePaginated] hands to [outputResult]. *)
Inductive Output : Type :=
  | SinglePage (r : Twitter.PaginatedResult T)
  | AllPages (items : list T) (pagesLoaded : Z) (complete : bool)
             (totalItems : Z).

Variable fetchFn : FetchPage T.
Variable io : World.

(** [(cursor) => fetchFn(cursor || options.cursor)] *)
Definition with_cli_cursor (cli : PaginatedCommandOptions) : FetchPage T :=
  fun k c => fetchFn k (if truthy_ostr c then c else c_cursor cli).

(** [executePaginated(fetchFn, options, outputOptions)]: the settled
    promise (with the value given to [outputResult]), the number of
    pages [fetchFn] returned, and the disk afterwards. *)
Definition executePaginated (fuel : nat) (now : Z)
    (cli : PaginatedCommandOptions) (d : gmap string file)
  : option (outcome Output * nat * gmap string file) :=
  if negb (default false (c_all cli)) && negb (truthy_ostr (c_maxPages cli)) then
    match fetchFn 0%nat (c_cursor cli) with
    | Page r => Some (Resolved (SinglePage r), 1%nat, d)
    | Throws msg => Some (Rejected msg, 0%nat, d)
    end
  else
    match fetchAll (with_cli_cursor cli) io fuel (command_paginator now cli) d with
    | None => None
    | Some (Resolved res, s, d') =>
        Some (Resolved (AllPages (f_items res) (pagesLoaded res) (complete res)
                          (Z.of_nat (length (f_items res)))),
              calls s, d')
    | Some (Rejected msg, s, d') => Some (Rejected msg, calls s, d')
    end.

End ExecutePaginated.

Arguments Output T : clear implicits.

End Pagination.

(** * Vocabulary of the properties *)

Section ResolverVocabulary.

Import QueryIds.

(** The design document's first tier, in its own words: the cache was
    fetched less than the TTL ago and maps the operation name to an
    (actual, non-empty) id. *)
Definition cache_hit (now : Z) (m : QueryIdManager) (name id : string) : Prop :=
  exists c, cache m = Some c /\ now - fetchedAt c < cacheTTL /\
            ids c !! name = Some id /\ id <> EmptyString.

End ResolverVocabulary.

Section ProxyVocabulary.

Import Proxy.

(** A registered path that is not disabled: it has a status record and
    the record's [disabled] flag is off. *)
Definition healthy (st : gmap string ProxyStatus) (p : ProxyConfig) : Prop :=
  exists s, st !! url p = Some s /\ disabled s = false.

Definition all_healthy (pm : ProxyManager) : Prop :=
  Forall (healthy (status pm)) (proxies pm).

(** What registration through [addProxy] maintains: no URL is listed
    twice, and every listed path has a status record. *)
Definition registered (pm : ProxyManager) : Prop :=
  NoDup (url <$> proxies pm) /\
  Forall (fun p => is_Some (status pm !! url p)) (proxies pm).

(** The cooldown of a disabled path has run out at [now]. *)
Definition expired (now cd : Z) (s : ProxyStatus) : bool :=
  disabled s &&
  match lastFailure s with
  | Some lf => cd <=? now - lf
  | None => false
  end.

(** What the availability check does to one status record. *)
Definition heal (now cd : Z) (s : ProxyStatus) : ProxyStatus :=
  if expired now cd s then reenable s else s.

(** Whether the availability check keeps a path, read off the status map
    as it is before the check. *)
Definition keepable (now cd : Z) (st : gmap string ProxyStatus)
    (p : ProxyConfig) : bool :=
  match st !! url p with
  | None => true
  | Some s => negb (disabled s) || expired now cd s
  end.

End ProxyVocabulary.

Section PoolVocabulary.

Import Pool.

(** What selection depends on: the credentials and their cooldowns, in
    pool order. *)
Definition view (q : SessionPool) : list (Session * option Z) :=
  (fun s => (session s, cooldownUntil s)) <$> sessions q.

(** At most one pooled entry carries the token [tok]. *)
Definition sole_token (tok : string) (l : list PooledSession) : Prop :=
  forall i j s1 s2,
    l !! i = Some s1 -> l !! j = Some s2 ->
    authToken (session s1) = tok -> authToken (session s2) = tok -> i = j.

(** The credential [c] sits in the pool, alone with its token, with its
    cooldown set to end at [u]. *)
Definition locked_until (c : Session) (u : Z) (q : SessionPool) : Prop :=
  sole_token (authToken c) (sessions q) /\
  exists i s, sessions q !! i = Some s /\ session s = c /\
              cooldownUntil s = Some u.

(** The pool with its rotation counter set to [k]. *)
Definition at_rotation (k : nat) (q : SessionPool) : SessionPool :=
  {| sessions := sessions q; currentIndex := k |}.

End PoolVocabulary.

Section PaginatorVocabulary.

Import Pagination.

Context {T : Type}.

(** The loop condition [hasMore && pageCount < maxPages]. *)
Definition wants (mx : cap) (s : Loop T) : bool :=
  more s && below (pageCount s) mx.

(** The resume file of a paginator, if one is configured
    ([this.options.resume] is truthy). *)
Definition resume_file (p : Paginator) : option string :=
  match resume (options p) with
  | Some f => if truthy_str f then Some f else None
  | None => None
  end.

(** The counters of the paginator agree with the locals of the loop. *)
Definition counted (s : Loop T) : Prop :=
  pagesFetched (state (pg s)) = pageCount s /\
  totalItems (state (pg s)) = Z.of_nat (length (allItems s)).


(** The number of times [fetchFn] was invoked by a finished run: the
    calls that returned a page, plus the one that threw. *)
Definition invocations (o : outcome (Fetched T)) (s : Loop T) : nat :=
  match o with
  | Resolved _ => calls s
  | Rejected _ => S (calls s)
  end.

End PaginatorVocabulary.

(** * Sample data *)

Section ProxySamples.

Import Proxy.

Definition proxy_a : ProxyConfig :=
  {| url := "http://10.0.0.1:8080"; protocol := Some http;
     host := "10.0.0.1"; port := 8080; auth := None |}.

Definition proxy_b : ProxyConfig :=
  {| url := "http://10.0.0.2:8080"; protocol := Some http;
     host := "10.0.0.2"; port := 8080; auth := None |}.

Definition proxy_c : ProxyConfig :=
  {| url := "socks5://10.0.0.3:1080"; protocol := Some socks5;
     host := "10.0.0.3"; port := 1080; auth := None |}.

Definition three_proxies : ProxyManager :=
  addProxy proxy_c (addProxy proxy_b (addProxy proxy_a empty_manager)).

Definition two_proxies : ProxyManager :=
  addProxy proxy_b (addProxy proxy_a empty_manager).

Definition lone_proxy : ProxyManager := addProxy proxy_a empty_manager.

(** Three failures in a row, one second apart. *)
Definition lone_proxy_failed : ProxyManager :=
  markFailed 3000 (url proxy_a)
    (markFailed 2000 (url proxy_a) (markFailed 1000 (url proxy_a) lone_proxy)).

End ProxySamples.

Section ClientSamples.

Import Proxy Client.

Definition two_proxy_client : BaseClient :=
  {| queryIds := {| QueryIds.cache := None |};
     rateLimiter := {| RateLimit.limits := ∅ |};
     proxyManager := Some two_proxies |}.

Definition noon : Clock :=
  {| t_resolve := 1000; t_stale := 1001; t_wait := 1002; t_dispatch := 1003;
     t_settle := 1500; t_fail := 1501; t_rotate := 1502 |}.

Definition ok_response : Response nat :=
  {| rl_limit := 50; rl_remaining := 49; rl_reset := 2000; errors := None;
     data := 7%nat |}.

End ClientSamples.

Section PoolSamples.

Import Pool.

Definition alice : Session :=
  {| authToken := "token-alice"; ct0 := "csrf-alice";
     username := Some "alice"%string; userId := None |}.

Definition bob : Session :=
  {| authToken := "token-bob"; ct0 := "csrf-bob";
     username := Some "bob"%string; userId := None |}.

Definition mallory : Session :=
  {| authToken := "token-mallory"; ct0 := "csrf-mallory";
     username := None; userId := None |}.

Definition alice_alone : SessionPool := add alice empty_pool.

Definition alice_and_bob : SessionPool := add bob (add alice empty_pool).

End PoolSamples.

Section PaginatorSamples.

Import Pagination.

(** A server that always has one more page. *)
Definition pages_forever : FetchPage nat :=
  fun k _ =>
    Page {| Twitter.items := [k]; Twitter.cursor := Some "next"%string;
            Twitter.hasMore := true |}.

(** A server with three pages ([hasMore] = true, true, false). *)
Definition three_pages : FetchPage nat :=
  fun k _ =>
    if (k <? 2)%nat then
      Page {| Twitter.items := [k; k]; Twitter.cursor := Some "next"%string;
              Twitter.hasMore := true |}
    else
      Page {| Twitter.items := [k]; Twitter.cursor := None;
              Twitter.hasMore := false |}.

(** A server that answers twice and then refuses. *)
Definition fails_on_third : FetchPage nat :=
  fun k c =>
    if (k <? 2)%nat then pages_forever k c
    else Throws "Rate limit exceeded (429)".

Definition ticks : nat -> Z := fun k => 1000 * (Z.of_nat k + 1).

(** A world in which every file operation succeeds. *)
Definition calm : World :=
  {| clock_at := ticks; write_at := fun _ => Written; unlinks := true |}.



Definition state_json : string := "state.json".

(** [--max-pages 2 --resume state.json] *)
Definition capped : Paginator :=
  new_Paginator 0
    {| all := None; maxPages := Some 2; resume := Some state_json;
       delay := None; silent := None |}.


(** [--all --resume state.json] *)
Definition all_pages : Paginator :=
  new_Paginator 0
    {| all := Some true; maxPages := None; resume := Some state_json;
       delay := None; silent := None |}.


(** No pagination option at all. *)
Definition plain : Paginator :=
  new_Paginator 0
    {| all := None; maxPages := None; resume := None;
       delay := None; silent := None |}.

End PaginatorSamples.

(** * Vocabulary of the further properties *)

Section ProxyOperations.

Import Proxy.

(** The operations a client of the manager can apply to it. *)
Inductive proxy_op : Type :=
  | OpAdd (config : ProxyConfig)
  | OpFailed (now : Z) (u : string)
  | OpSuccess (now : Z) (u : string)
  | OpNext (now : Z)
  | OpAvailable (now : Z)
  | OpStats (now : Z)
  | OpReset.

Definition apply_op (pm : ProxyManager) (o : proxy_op) : ProxyManager :=
  match o with
  | OpAdd config => addProxy config pm
  | OpFailed now u => markFailed now u pm
  | OpSuccess now u => markSuccess now u pm
  | OpNext now => snd (getNext now pm)
  | OpAvailable now => snd (getAvailableProxies now pm)
  | OpStats now => snd (getStats now pm)
  | OpReset => resetAllProxies pm
  end.

Definition apply_ops (ops : list proxy_op) (pm : ProxyManager) : ProxyManager :=
  fold_left apply_op ops pm.

(** What a run of operations shows of the rotation: the paths that its
    [getNext] calls returned and that its availability checks listed. *)
Fixpoint offered (ops : list proxy_op) (pm : ProxyManager)
  : list ProxyConfig :=
  match ops with
  | [] => []
  | o :: rest =>
      match o with
      | OpNext now => option_list (fst (getNext now pm))
      | OpAvailable now => fst (getAvailableProxies now pm)
      | _ => []
      end ++ offered rest (apply_op pm o)
  end.

(** A run of operations that leaves the cooldown of the path [u], begun
    at [lo] and ending at [hi], to itself: the clock readings lie in
    the window, no success is recorded for [u], nobody resets the
    manager, and every [getNext] finds some path available (so that it
    does not reset the manager either). *)
Fixpoint undisturbed (u : string) (lo hi : Z) (ops : list proxy_op)
    (pm : ProxyManager) : Prop :=
  match ops with
  | [] => True
  | o :: rest =>
      match o with
      | OpAdd _ => True
      | OpFailed now v => v = u -> lo <= now
      | OpSuccess _ v => v <> u
      | OpNext now =>
          lo <= now < hi /\ fst (getAvailableProxies now pm) <> []
      | OpAvailable now => lo <= now < hi
      | OpStats now => lo <= now < hi
      | OpReset => False
      end /\ undisturbed u lo hi rest (apply_op pm o)
  end.

(** The first of two paths has failed three times, one second apart. *)
Definition first_of_two_failed : ProxyManager :=
  markFailed 3000 (url proxy_a)
    (markFailed 2000 (url proxy_a) (markFailed 1000 (url proxy_a) two_proxies)).

(** Four minutes in the life of the manager after that. *)
Definition quiet_minutes : list proxy_op :=
  [ OpNext 3001; OpFailed 3500 (url proxy_b); OpNext 4000;
    OpSuccess 4100 (url proxy_b); OpAvailable 60000;
    OpFailed 120000 (url proxy_a); OpNext 240000 ].

(** A line of a proxy file that is neither blank nor a comment. *)
Definition kept_line (trim : string -> string) (line : string) : bool :=
  truthy_str (trim line) && negb (starts_with_hash (trim line)).

(** A kept line that [parseProxyUrl] rejects. *)
Definition invalid_line (trim : string -> string)
    (parse : string -> option Proxy.ProxyConfig) (line : string) : bool :=
  kept_line trim line &&
  match parse (trim line) with
  | Some _ => false
  | None => true
  end.

(** A stand-in for the URL parser on three sample lines. *)
Definition sample_parse (u : string) : option ProxyConfig :=
  if String.eqb u "http://10.0.0.1:8080" then Some proxy_a
  else if String.eqb u "http://10.0.0.2:8080" then Some proxy_b
  else if String.eqb u "socks5://10.0.0.3:1080" then Some proxy_c
  else None.

Definition sample_trim (line : string) : string := line.

(** A proxy file: a comment, two proxies, a blank line, a malformed
    line, and the first proxy once more. *)
Definition sample_proxy_file : string :=
  String.concat (String "010"%char EmptyString)
    [ "# office proxies"; "http://10.0.0.1:8080"; "http://10.0.0.2:8080";
      EmptyString; "not a proxy"; "http://10.0.0.1:8080" ]%string.

End ProxyOperations.

Section ClientFurtherSamples.

Import Client.

(** A client whose only proxy has just been disabled. *)
Definition lone_proxy_client : BaseClient :=
  {| queryIds := {| QueryIds.cache := None |};
     rateLimiter := {| RateLimit.limits := ∅ |};
     proxyManager := Some lone_proxy_failed |}.




End ClientFurtherSamples.

Section PoolFurtherSamples.

Import Pool.

(** The same credential added twice: [add] does not look for
    duplicates. *)
Definition alice_twice : SessionPool := add alice (add alice empty_pool).

End PoolFurtherSamples.

Section PaginatorFurtherVocabulary.

Import Pagination.

Context {T : Type}.

(** A server whose answer depends on the cursor alone, not on how many
    requests it has seen. *)
Definition by_cursor (g : option string -> fetched T) : FetchPage T :=
  fun _ c => g c.

(** The locals that decide how the loop goes on. *)
Definition core (s : Loop T) : option string * bool * Z :=
  (cur s, more s, pageCount s).


(** The same locals for [stream]. *)
Definition stream_core (g : StreamLoop T) : option string * bool * Z :=
  (g_cur g, g_more g, g_pageCount g).

(** The page numbers [n + 1], ..., [n + k]. *)
Fixpoint pages_from (n : Z) (k : nat) : list Z :=
  match k with
  | O => []
  | S k' => (n + 1) :: pages_from (n + 1) k'
  end.

(** A page-fetch function that falls back to the [--cursor] flag on its
    first call only. *)
Definition cursor_on_first_call (fetchFn : FetchPage T)
    (cli : PaginatedCommandOptions) : FetchPage T :=
  fun k c =>
    match k with
    | O => fetchFn O (if truthy_ostr c then c else c_cursor cli)
    | S _ => fetchFn k c
    end.

End PaginatorFurtherVocabulary.

Section PaginatorFurtherSamples.

Import Pagination.

(** A timeline of three pages, addressed by cursor. *)
Definition timeline : option string -> fetched nat :=
  fun c =>
    match c with
    | None =>
        Page {| Twitter.items := [1; 2]%nat; Twitter.cursor := Some "c1"%string;
                Twitter.hasMore := true |}
    | Some c =>
        if String.eqb c "c1" then
          Page {| Twitter.items := [3; 4]%nat;
                  Twitter.cursor := Some "c2"%string;
                  Twitter.hasMore := true |}
        else if String.eqb c "c2" then
          Page {| Twitter.items := [5]%nat; Twitter.cursor := None;
                  Twitter.hasMore := false |}
        else Throws "unknown cursor"
    end.

(** The checkpoint of a run that stopped after two pages. *)
Definition two_pages_done : gmap string file :=
  {[ state_json :=
       Checkpoint {| cursor := Some "c2"%string; pagesFetched := 2;
                     totalItems := 4; lastUpdated := 2000; query := None |} ]}.

(** [--all --cursor c1] *)
Definition all_from_c1 : PaginatedCommandOptions :=
  {| c_all := Some true; c_maxPages := None; c_resume := None;
     c_delay := None; c_cursor := Some "c1"%string |}.

End PaginatorFurtherSamples.

Section RefreshVocabulary.

Import QueryIds.

(** The query id of the last match of the bundle that names the
    operation. *)
Fixpoint last_match (op : string) (matches : list (string * string))
  : option string :=
  match matches with
  | [] => None
  | m :: rest =>
      match last_match op rest with
      | Some id => Some id
      | None => if decide (snd m = op) then Some (fst m) else None
      end
  end.

(** Both groups of the pattern match one character or more: no match
    has an empty query id. *)
Definition nonempty_ids (matches : list (string * string)) : Prop :=
  Forall (fun m => fst m <> EmptyString) matches.

Definition sample_bundle : list (string * string) :=
  [ ("old-likes", "Likes"); ("new-likes", "Likes");
    ("dm-inbox", "DmInbox"); ("stray", "__proto__") ]%string.

Definition no_cache : QueryIdManager := {| cache := None |}.

End RefreshVocabulary.

(** * Properties *)

(** ** Operation-id resolution *)

Section ResolveOrder.

Import QueryIds.

Lemma truthy_str_true (s : string) : truthy_str s = true <-> s <> EmptyString.
Proof. destruct s; simpl; split; congruence. Qed.

Lemma truthy_entry_own (obj : gmap string string) (k v : string) :
  obj !! k = Some v ->
  truthy_entry obj k = if truthy_str v then Some (Str v) else None.
Proof. intros E. unfold truthy_entry, js_index. by rewrite E. Qed.

Lemma truthy_entry_missing (obj : gmap string string) (k : string) :
  obj !! k = None ->
  truthy_entry obj k
  = if bool_decide (k ∈ Object_prototype) then Some (Builtin k) else None.
Proof.
  intros E. unfold truthy_entry, js_index. rewrite E. by case_bool_decide.
Qed.

Lemma truthy_entry_Some (obj : gmap string string) (k v : string) :
  truthy_entry obj k = Some (Str v) <-> obj !! k = Some v /\ v <> EmptyString.
Proof.
  destruct (obj !! k) as [w|] eqn:E.
  - rewrite (truthy_entry_own _ _ _ E). destruct (truthy_str w) eqn:Ew.
    + apply truthy_str_true in Ew. split.
      * intros [= ->]. auto.
      * intros [[= ->] _]. reflexivity.
    + split; [discriminate|]. intros [[= ->] Hne].
      apply truthy_str_true in Hne. congruence.
  - rewrite (truthy_entry_missing _ _ E).
    split; [by case_bool_decide | intros [? _]; discriminate].
Qed.

(** Outside [Object.prototype], indexing sees own properties only. *)
Lemma truthy_entry_plain (obj : gmap string string) (k : string) :
  k ∉ Object_prototype ->
  truthy_entry obj k
  = match obj !! k with
    | Some v => if truthy_str v then Some (Str v) else None
    | None => None
    end.
Proof.
  intros Hk. destruct (obj !! k) as [v|] eqn:E.
  - by apply truthy_entry_own.
  - rewrite (truthy_entry_missing _ _ E). by rewrite bool_decide_eq_false_2.
Qed.

Lemma cachedId_Some (now : Z) (m : QueryIdManager) (name id : string) :
  cachedId now m name = Some (Str id) <-> cache_hit now m name id.
Proof.
  unfold cachedId, isCacheValid, cache_hit.
  destruct (cache m) as [c|]; [|split; [discriminate | intros (c & ? & _); discriminate]].
  destruct (Z.ltb_spec (now - fetchedAt c) cacheTTL) as [Hlt|Hge].
  - rewrite truthy_entry_Some. split.
    + intros [? ?]. exists c. auto.
    + intros (c' & [= <-] & _ & ? & ?). auto.
  - split; [discriminate|]. intros (c' & [= <-] & ? & _). lia.
Qed.

Lemma cachedId_None (now : Z) (m : QueryIdManager) (name : string) :
  name ∉ Object_prototype ->
  cachedId now m name = None <-> ~ exists id, cache_hit now m name id.
Proof.
  intros Hname. split.
  - intros E [id H]. apply cachedId_Some in H. congruence.
  - intros H. destruct (cachedId now m name) as [[id|b]|] eqn:E; [| |reflexivity].
    + exfalso. apply H. exists id. by apply cachedId_Some.
    + exfalso. unfold cachedId in E.
      destruct (isCacheValid now m); [|discriminate].
      destruct (cache m) as [c|]; [|discriminate].
      rewrite truthy_entry_plain in E by done.
      destruct (ids c !! name) as [v|]; [|discriminate].
      by destruct (truthy_str v).
Qed.

Lemma cachedId_expired (now : Z) (m : QueryIdManager) (name : string) c :
  cache m = Some c -> cacheTTL <= now - fetchedAt c ->
  cachedId now m name = None.
Proof.
  intros Hc Hold. unfold cachedId, isCacheValid. rewrite Hc.
  by rewrite (proj2 (Z.ltb_ge _ _) Hold).
Qed.

(** Every id of the static table is a non-empty string, so the
    truthiness test of [get] never hides a fallback entry. *)
Lemma fallback_ids_truthy (name id : string) :
  FALLBACK_QUERY_IDS !! name = Some id -> id <> EmptyString.
Proof.
  intros H. apply elem_of_list_to_map_2 in H.
  repeat (apply elem_of_cons in H; destruct H as [[= _ ->]|H]; [discriminate|]).
  by apply elem_of_nil in H.
Qed.

(** No operation of the static table bears the name of a member of
    [Object.prototype]. *)
Lemma fallback_names_plain (name id : string) :
  FALLBACK_QUERY_IDS !! name = Some id -> name ∉ Object_prototype.
Proof.
  intros H. apply elem_of_list_to_map_2 in H.
  repeat (apply elem_of_cons in H; destruct H as [[= -> _]|H];
          [apply (bool_decide_eq_false_1 _); vm_compute; reflexivity|]).
  by apply elem_of_nil in H.
Qed.

Lemma fallback_entry (name : string) :
  name ∉ Object_prototype ->
  truthy_entry FALLBACK_QUERY_IDS name = Str <$> FALLBACK_QUERY_IDS !! name.
Proof.
  intros Hname. rewrite truthy_entry_plain by done.
  destruct (FALLBACK_QUERY_IDS !! name) as [id|] eqn:E; [|reflexivity].
  apply fallback_ids_truthy, truthy_str_true in E. by rewrite E.
Qed.

Lemma fallback_inherited (name : string) :
  name ∈ Object_prototype ->
  truthy_entry FALLBACK_QUERY_IDS name = Some (Builtin name).
Proof.
  intros Hname. rewrite truthy_entry_missing.
  - by rewrite bool_decide_eq_true_2.
  - destruct (FALLBACK_QUERY_IDS !! name) as [id|] eqn:E; [|reflexivity].
    by apply fallback_names_plain in E.
Qed.

(** An operation of the static table always resolves. *)
Lemma get_fallback_resolves (now : Z) (m : QueryIdManager) (name id : string) :
  FALLBACK_QUERY_IDS !! name = Some id ->
  exists v, get now m name = Resolved v.
Proof.
  intros Hfb. unfold get.
  destruct (cachedId now m name) as [v|]; [by eexists|].
  rewrite fallback_entry, Hfb by (by eapply fallback_names_plain).
  by eexists.
Qed.

Example get_fresh_cache :
  get 1000 {| cache := Some {| ids := {[ "Likes" := "fresh" ]}; fetchedAt := 0 |} |}
      "Likes" = Resolved (Str "fresh").
Proof. vm_compute. reflexivity. Qed.

Example get_stale_cache :
  get 86400000 {| cache := Some {| ids := {[ "Likes" := "fresh" ]}; fetchedAt := 0 |} |}
      "Likes" = Resolved (Str "lIDpu_NWL7_VhimGGt0o6A").
Proof. vm_compute. reflexivity. Qed.

Example get_unknown :
  get 0 {| cache := None |} "NoSuchOperation"
  = Rejected "Unknown GraphQL operation: NoSuchOperation"%string.
Proof. vm_compute. reflexivity. Qed.

(** C6. The resolver does not fail for every name that neither the
    cache nor the static table knows: a name that plain objects inherit
    from [Object.prototype], such as [constructor], passes the test
    [if (FALLBACK_QUERY_IDS[operationName])], and [get] resolves to the
    inherited member instead of throwing, whatever the cache and the
    time. *)
Theorem C6_inherited_name_resolves (now : Z) (m : QueryIdManager) :
  FALLBACK_QUERY_IDS !! "constructor"%string = None /\
  get now {| cache := None |} "constructor" = Resolved (Builtin "constructor") /\
  exists v, get now m "constructor" = Resolved v.
Proof.
  split; [vm_compute; reflexivity|]. split; [vm_compute; reflexivity|].
  unfold get. destruct (cachedId now m "constructor") as [v|]; [by eexists|].
  rewrite fallback_inherited; [by eexists|].
  apply (bool_decide_eq_true_1 _). vm_compute. reflexivity.
Qed.

(** X24. Resolution order of [get] for every name that is not a member
    of [Object.prototype]: the cached id when the cache was fetched
    within the 24-hour TTL and holds the name; otherwise the id of the
    static fallback table when it has one; otherwise the call is
    rejected as an unknown operation.  A cache whose [fetchedAt] is at
    least the TTL old is ignored: the answer is the one a manager
    without cache gives.  Only the rejection depends on the name being
    no inherited one. *)
Theorem X24_resolve_order (now : Z) (m : QueryIdManager) (name : string) :
  (forall id, cache_hit now m name id -> get now m name = Resolved (Str id)) /\
  (forall id, ~ (exists id', cache_hit now m name id') ->
              FALLBACK_QUERY_IDS !! name = Some id ->
              get now m name = Resolved (Str id)) /\
  (~ (exists id', cache_hit now m name id') ->
   FALLBACK_QUERY_IDS !! name = None ->
   name ∉ Object_prototype ->
   get now m name = Rejected ("Unknown GraphQL operation: " ++ name)) /\
  (forall c, cache m = Some c -> cacheTTL <= now - fetchedAt c ->
             get now m name = get now {| cache := None |} name).
Proof.
  repeat split.
  - intros id H. apply cachedId_Some in H. unfold get. by rewrite H.
  - intros id Hmiss Hfb.
    pose proof (fallback_names_plain _ _ Hfb) as Hname.
    apply cachedId_None in Hmiss; [|done]. unfold get.
    by rewrite Hmiss, fallback_entry, Hfb.
  - intros Hmiss Hfb Hname. apply cachedId_None in Hmiss; [|done]. unfold get.
    by rewrite Hmiss, fallback_entry, Hfb.
  - intros c Hc Hold. unfold get.
    by rewrite (cachedId_expired now m name c Hc Hold).
Qed.

(** The four cases of X24 at concrete managers. *)
Lemma X24_resolve_order_witness :
  get 1000 {| cache := Some {| ids := {[ "Likes" := "fresh" ]}; fetchedAt := 0 |} |}
      "Likes" = Resolved (Str "fresh") /\
  get 1000 {| cache := None |} "Likes" = Resolved (Str "lIDpu_NWL7_VhimGGt0o6A") /\
  get 1000 {| cache := None |} "Nope"
    = Rejected "Unknown GraphQL operation: Nope"%string /\
  get 86400000 {| cache := Some {| ids := {[ "Likes" := "fresh" ]}; fetchedAt := 0 |} |}
      "Likes" = get 86400000 {| cache := None |} "Likes".
Proof.
  split; [|split; [|split]].
  - apply (proj1 (X24_resolve_order 1000 _ "Likes")).
    eexists. split; [reflexivity|]. split; [vm_compute; reflexivity|].
    split; [vm_compute; reflexivity | discriminate].
  - apply (proj1 (proj2 (X24_resolve_order 1000 {| cache := None |} "Likes"))).
    + intros (id & c & Hc & _). discriminate.
    + vm_compute; reflexivity.
  - apply (proj1 (proj2 (proj2 (X24_resolve_order 1000 {| cache := None |} "Nope")))).
    + intros (id & c & Hc & _). discriminate.
    + vm_compute; reflexivity.
    + apply (bool_decide_eq_false_1 _). vm_compute. reflexivity.
  - eapply (proj2 (proj2 (proj2 (X24_resolve_order 86400000 _ "Likes")))).
    + reflexivity.
    + vm_compute. discriminate.
Defined.

End ResolveOrder.

(** ** Rate limiter *)

Section WaitIfNeeded.

Import RateLimit.

Ltac ltb_cases :=
  repeat match goal with
  | |- context [?a <? ?b] => destruct (Z.ltb_spec a b)
  | |- context [?a <=? ?b] => destruct (Z.leb_spec a b)
  end.

Lemma backoff_exact (r : Z) :
  0 < r <= 5 -> r * (backoffMs / r) = backoffMs.
Proof.
  intros H.
  assert (r = 1 \/ r = 2 \/ r = 3 \/ r = 4 \/ r = 5) as Hr by lia.
  destruct Hr as [->|[->|[->|[->| ->]]]]; reflexivity.
Qed.

Lemma wakeup_after_reset (now2 resetTime : Z) :
  resetTime - now2 + 1000 <= TIMEOUT_MAX ->
  resetTime <= earliest_wakeup now2 (Sleep (resetTime - now2 + 1000)).
Proof.
  intros Hmax. unfold earliest_wakeup, timer_delay.
  destruct (Z.leb_spec 1 (resetTime - now2 + 1000)),
           (Z.leb_spec (resetTime - now2 + 1000) TIMEOUT_MAX);
    cbn [andb]; lia.
Qed.

Lemma wakeup_at_buffer (now2 resetTime : Z) :
  resetTime - now2 + 1000 <= TIMEOUT_MAX -> now2 < resetTime + 1000 ->
  earliest_wakeup now2 (Sleep (resetTime - now2 + 1000)) = resetTime + 1000.
Proof.
  intros Hmax Hnow. unfold earliest_wakeup, timer_delay.
  destruct (Z.leb_spec 1 (resetTime - now2 + 1000)),
           (Z.leb_spec (resetTime - now2 + 1000) TIMEOUT_MAX);
    cbn [andb]; lia.
Qed.

Lemma backoff_in_range (r : Z) :
  0 < r <= 5 -> timer_delay (backoffMs / r) = backoffMs / r.
Proof.
  intros H.
  assert (r = 1 \/ r = 2 \/ r = 3 \/ r = 4 \/ r = 5) as Hr by lia.
  destruct Hr as [->|[->|[->|[->| ->]]]]; reflexivity.
Qed.

Example wait_exhausted_quota :
  waitIfNeeded 1000000 1000002 "UserTweets"
    {| limits := {[ "UserTweets" :=
         {| info := {| limit := 50; remaining := 0; reset := 1005 |};
            lastUpdated := 999000 |} ]} |}
  = (Resolved tt, Sleep 5998,
     {| limits := {[ "UserTweets" :=
         {| info := {| limit := 50; remaining := 0; reset := 1005 |};
            lastUpdated := 999000 |} ]} |}).
Proof. vm_compute. reflexivity. Qed.

Example wait_low_quota :
  snd (fst (waitIfNeeded 1000000 1000002 "UserTweets"
    {| limits := {[ "UserTweets" :=
         {| info := {| limit := 50; remaining := 4; reset := 1005 |};
            lastUpdated := 999000 |} ]} |}))
  = Sleep 15000.
Proof. vm_compute. reflexivity. Qed.

(** C3 as stated fails twice.  A state whose reset time has passed is
    not discarded when it still shows more than 5 calls: the test for
    [remaining > 5] returns first.  And with no call left and a reset 30
    days ahead, the delay asked of the timer exceeds [TIMEOUT_MAX], the
    timer is armed with one millisecond, and that is long before the
    reset time. *)
Lemma C3_stale_state_kept_and_far_reset :
  (let rl := {| limits := {[ "UserTweets"%string :=
          {| info := {| limit := 50; remaining := 10; reset := 1005 |};
             lastUpdated := 999000 |} ]} |} in
   1005 * 1000 < 2000000 /\
   waitIfNeeded 2000000 2000002 "UserTweets" rl = (Resolved tt, NoSleep, rl)) /\
  (let rl := {| limits := {[ "UserTweets"%string :=
          {| info := {| limit := 50; remaining := 0; reset := 2593000 |};
             lastUpdated := 999000 |} ]} |} in
   waitIfNeeded 1000000 1000002 "UserTweets" rl
   = (Resolved tt, Sleep 2592000998, rl) /\
   timer_delay 2592000998 = 1 /\
   earliest_wakeup 1000002 (Sleep 2592000998) = 1000003 /\
   1000003 < 2593000 * 1000).
Proof.
  split; cbv zeta; split_and!; try lia; vm_compute; reflexivity.
Qed.

(** C3, amended.  [waitIfNeeded endpoint], for every recorded state, the
    cases being tried in this order: without a state, or with more than
    5 calls remaining, it returns without sleeping and leaves the
    limiter alone, a stale state included; else, when the reset time has
    passed, it drops the stale state and returns without sleeping; else,
    with no call remaining, it sleeps [reset - now + 1s], and as long as
    that delay is within the range of the timer it cannot return before
    the reset time, the sleep ending one second after it; else (1 to 5
    remaining) it sleeps the backoff budget divided by [remaining],
    which is exact and within the range of the timer.  The promise
    always resolves: a call is delayed, never rejected. *)
Theorem C3_waitIfNeeded_cases (now1 now2 : Z) (endpoint : string)
    (rl : RateLimiter) :
  fst (fst (waitIfNeeded now1 now2 endpoint rl)) = Resolved tt /\
  (limits rl !! endpoint = None ->
   waitIfNeeded now1 now2 endpoint rl = (Resolved tt, NoSleep, rl)) /\
  (forall l, limits rl !! endpoint = Some l ->
     let r := remaining (info l) in
     let resetTime := reset (info l) * 1000 in
     (5 < r ->
      waitIfNeeded now1 now2 endpoint rl = (Resolved tt, NoSleep, rl)) /\
     (r <= 5 -> resetTime < now1 ->
      waitIfNeeded now1 now2 endpoint rl
      = (Resolved tt, NoSleep, {| limits := delete endpoint (limits rl) |})) /\
     (r <= 0 -> now1 <= resetTime ->
      waitIfNeeded now1 now2 endpoint rl
      = (Resolved tt, Sleep (resetTime - now2 + 1000), rl) /\
      (resetTime - now2 + 1000 <= TIMEOUT_MAX ->
       resetTime <= earliest_wakeup now2 (Sleep (resetTime - now2 + 1000)) /\
       (now2 < resetTime + 1000 ->
        earliest_wakeup now2 (Sleep (resetTime - now2 + 1000))
        = resetTime + 1000))) /\
     (0 < r <= 5 -> now1 <= resetTime ->
      waitIfNeeded now1 now2 endpoint rl
      = (Resolved tt, Sleep (backoffMs / r), rl) /\
      r * (backoffMs / r) = backoffMs /\
      timer_delay (backoffMs / r) = backoffMs / r)).
Proof.
  split; [|split].
  - unfold waitIfNeeded. destruct (limits rl !! endpoint); [|reflexivity].
    ltb_cases; reflexivity.
  - intros E. unfold waitIfNeeded. by rewrite E.
  - intros l E r resetTime. unfold waitIfNeeded. rewrite E.
    fold r. fold resetTime.
    split; [intros; ltb_cases; try lia; reflexivity|].
    split; [intros; ltb_cases; try lia; reflexivity|].
    split.
    + intros Hr Hnow. split; [ltb_cases; try lia; reflexivity|].
      intros Hmax. split; [by apply wakeup_after_reset|].
      intros Hbuf. by apply wakeup_at_buffer.
    + intros Hr Hnow. split; [ltb_cases; try lia; reflexivity|].
      split; [by apply backoff_exact | by apply backoff_in_range].
Qed.

(** C3 at a limiter whose single endpoint has no call left and resets in
    five seconds: the call sleeps about six seconds. *)
Lemma C3_waitIfNeeded_cases_witness :
  let rl := {| limits := {[ "UserTweets"%string :=
         {| info := {| limit := 50; remaining := 0; reset := 1005 |};
            lastUpdated := 999000 |} ]} |} in
  waitIfNeeded 1000000 1000002 "UserTweets" rl
    = (Resolved tt, Sleep (1005 * 1000 - 1000002 + 1000), rl) /\
  1005 * 1000 <= earliest_wakeup 1000002 (Sleep (1005 * 1000 - 1000002 + 1000)) /\
  earliest_wakeup 1000002 (Sleep (1005 * 1000 - 1000002 + 1000))
  = 1005 * 1000 + 1000.
Proof.
  intros rl.
  destruct (proj1 (proj2 (proj2 (proj2 (proj2
              (C3_waitIfNeeded_cases 1000000 1000002 "UserTweets" rl))
              {| info := {| limit := 50; remaining := 0; reset := 1005 |};
                 lastUpdated := 999000 |} eq_refl)))
              ltac:(simpl; lia) ltac:(simpl; lia)) as [Hrun Hwake].
  destruct (Hwake ltac:(unfold TIMEOUT_MAX; simpl; lia)) as [Hlow Hat].
  split; [exact Hrun|]. split; [exact Hlow|].
  apply Hat. simpl. lia.
Defined.

End WaitIfNeeded.

(** ** Proxy rotation *)

Section EgressRotation.

Import Proxy.

Local Open Scope nat_scope.

Lemma set_status_same (pm : ProxyManager) : set_status (status pm) pm = pm.
Proof. by destruct pm. Qed.

Lemma available_one_healthy now cd p st :
  healthy st p -> available_one now cd p st = (true, st).
Proof.
  intros (s & Hs & Hd). unfold available_one. rewrite Hs, Hd. reflexivity.
Qed.

Lemma available_from_healthy now cd ps st :
  Forall (healthy st) ps -> available_from now cd ps st = (ps, st).
Proof.
  induction 1 as [|p ps Hp _ IH]; simpl; [reflexivity|].
  by rewrite (available_one_healthy _ _ _ _ Hp), IH.
Qed.

Lemma scan_healthy n ps st idx :
  0 < length ps -> Forall (healthy st) ps ->
  scan (S n) ps st idx
  = (ps !! (idx mod length ps), (idx + 1) mod length ps).
Proof.
  intros Hlen Hall. simpl.
  destruct (lookup_lt_is_Some_2 ps (idx mod length ps)) as [p Hp].
  { apply Nat.mod_upper_bound. lia. }
  rewrite Hp.
  destruct (proj1 (Forall_lookup _ _) Hall _ _ Hp) as (s & Hs & Hd).
  by rewrite Hs, Hd.
Qed.

(** With every path healthy, [getNext] hands out the path under the
    rotation index and moves the index one step round the ring. *)
Lemma getNext_healthy now pm :
  proxies pm <> [] -> all_healthy pm ->
  getNext now pm
  = (proxies pm !! (currentIndex pm mod length (proxies pm)),
     set_index ((currentIndex pm + 1) mod length (proxies pm)) pm).
Proof.
  intros Hne Hall.
  assert (0 < length (proxies pm)) as Hlen.
  { destruct (proxies pm); [done | simpl; lia]. }
  assert (scan (length (proxies pm)) (proxies pm) (status pm) (currentIndex pm)
          = (proxies pm !! (currentIndex pm mod length (proxies pm)),
             (currentIndex pm + 1) mod length (proxies pm))) as Hscan.
  { replace (length (proxies pm)) with (S (length (proxies pm) - 1)) at 1 by lia.
    by apply scan_healthy. }
  destruct (lookup_lt_is_Some_2 (proxies pm)
              (currentIndex pm mod length (proxies pm))) as [p Hp].
  { apply Nat.mod_upper_bound. lia. }
  unfold getNext, getAvailableProxies.
  rewrite (available_from_healthy _ _ _ _ Hall), set_status_same.
  rewrite Hscan, Hp.
  destruct (proxies pm); [done | reflexivity].
Qed.

Lemma getNext_many_healthy nows : forall pm,
  proxies pm <> [] -> all_healthy pm ->
  fst (getNext_many nows pm)
  = (fun j => proxies pm !! ((currentIndex pm + j) mod length (proxies pm)))
      <$> seq 0 (length nows).
Proof.
  induction nows as [|now rest IH]; intros pm Hne Hall; [reflexivity|].
  cbn [getNext_many]. rewrite (getNext_healthy now pm Hne Hall).
  specialize (IH (set_index ((currentIndex pm + 1) mod length (proxies pm)) pm)
                 Hne Hall).
  destruct (getNext_many rest _) as [rs pm2]. simpl in IH. subst rs.
  cbn [fst length seq fmap list_fmap]. f_equal.
  - by rewrite Nat.add_0_r.
  - rewrite <- fmap_S_seq, <- list_fmap_compose.
    apply list_fmap_ext. intros _ j _. simpl. f_equal.
    rewrite Nat.Div0.add_mod_idemp_l.
    f_equal. lia.
Qed.

Lemma ring_walk_rotation {A} (ps : list A) (k : nat) :
  (fun j => ps !! ((k + j) mod length ps)) <$> seq 0 (length ps)
  = Some <$> rotate k ps.
Proof.
  apply list_eq. intros i. rewrite !list_lookup_fmap.
  destruct (decide (i < length ps)) as [Hi|Hi].
  - rewrite lookup_seq_lt by done. rewrite lookup_rotate_r by done. simpl.
    unfold rotate_nat_add.
    rewrite <- Nat2Z.inj_add, <- Nat2Z.inj_mod, Nat2Z.id.
    destruct (lookup_lt_is_Some_2 ps ((k + i) mod length ps)) as [p Hp].
    { apply Nat.mod_upper_bound. lia. }
    by rewrite Hp.
  - rewrite lookup_seq_ge by lia.
    rewrite (lookup_ge_None_2 (rotate k ps)) by (rewrite length_rotate; lia).
    reflexivity.
Qed.

Lemma rotate_Permutation {A} (k : nat) (ps : list A) : rotate k ps ≡ₚ ps.
Proof.
  unfold rotate. rewrite Permutation_app_comm. by rewrite take_drop.
Qed.

Lemma existsb_url_false (u : string) (ps : list ProxyConfig) :
  existsb (fun p => String.eqb (url p) u) ps = false -> u ∉ url <$> ps.
Proof.
  induction ps as [|p ps IH]; simpl; [intros _; apply not_elem_of_nil|].
  intros H. apply orb_false_iff in H as [H1 H2].
  apply String.eqb_neq in H1. rewrite not_elem_of_cons. split; [congruence|auto].
Qed.

Lemma addProxy_registered (config : ProxyConfig) (pm : ProxyManager) :
  registered pm -> registered (addProxy config pm).
Proof.
  intros [Hnd Hst]. unfold addProxy.
  destruct (existsb _ _) eqn:E; [by split|].
  apply existsb_url_false in E. split; simpl.
  - rewrite fmap_app. apply NoDup_app. repeat split; [done| |].
    + intros x Hx Hx'. apply list_elem_of_singleton in Hx'. by subst.
    + apply NoDup_singleton.
  - apply Forall_app. split.
    + eapply Forall_impl; [exact Hst|]. intros p [s Hs]. simpl.
      destruct (decide (url config = url p)) as [->|Hne].
      * rewrite lookup_insert_eq. eauto.
      * rewrite lookup_insert_ne by done. eauto.
    + apply Forall_singleton. rewrite lookup_insert_eq. eauto.
Qed.

Lemma addProxy_healthy (config : ProxyConfig) (pm : ProxyManager) :
  all_healthy pm -> all_healthy (addProxy config pm).
Proof.
  intros Hall. unfold addProxy.
  destruct (existsb _ _) eqn:E; [done|].
  unfold all_healthy. simpl. apply Forall_app. split.
  - eapply Forall_impl; [exact Hall|]. intros p (s & Hs & Hd). unfold healthy.
    destruct (decide (url config = url p)) as [->|Hne].
    + rewrite lookup_insert_eq. eexists. split; [reflexivity|reflexivity].
    + rewrite lookup_insert_ne by done. eauto.
  - apply Forall_singleton. unfold healthy. rewrite lookup_insert_eq.
    eexists. split; reflexivity.
Qed.

Example three_proxies_round :
  fst (getNext_many [10; 20; 30]%Z (set_index 2 three_proxies))
  = [Some proxy_c; Some proxy_a; Some proxy_b].
Proof. vm_compute. reflexivity. Qed.

Lemma three_proxies_healthy : all_healthy three_proxies.
Proof.
  unfold three_proxies. repeat apply addProxy_healthy. apply Forall_nil_2.
Qed.

(** C7. Rotation fairness: when none of the [N] registered paths is
    disabled, [N] consecutive calls of [getNext] (at any times) return
    the registered paths in ring order starting at the rotation index,
    hence each of them exactly once; with pairwise distinct paths no
    result repeats. *)
Theorem C7_rotation_fairness (pm : ProxyManager) (nows : list Z) :
  all_healthy pm ->
  length nows = length (proxies pm) ->
  fst (getNext_many nows pm) = Some <$> rotate (currentIndex pm) (proxies pm) /\
  fst (getNext_many nows pm) ≡ₚ Some <$> proxies pm /\
  (NoDup (proxies pm) -> NoDup (fst (getNext_many nows pm))).
Proof.
  intros Hall Hlen.
  assert (fst (getNext_many nows pm)
          = Some <$> rotate (currentIndex pm) (proxies pm)) as Heq.
  { destruct (proxies pm) as [|p0 ps0] eqn:Eps.
    - destruct nows; [|discriminate].
      unfold rotate. by rewrite drop_nil, take_nil.
    - rewrite <- Eps in *.
      rewrite getNext_many_healthy; [|rewrite Eps; done|done].
      rewrite Hlen. apply ring_walk_rotation. }
  split; [exact Heq|]. rewrite Heq. split.
  - by rewrite rotate_Permutation.
  - intros Hnd. apply (NoDup_fmap_2 Some).
    by rewrite rotate_Permutation.
Qed.

(** C7 on three registered proxies, none of them disabled. *)
Lemma C7_rotation_fairness_witness :
  fst (getNext_many [10; 20; 30]%Z three_proxies)
    = Some <$> rotate (currentIndex three_proxies) (proxies three_proxies) /\
  fst (getNext_many [10; 20; 30]%Z three_proxies) ≡ₚ Some <$> proxies three_proxies /\
  (NoDup (proxies three_proxies) ->
   NoDup (fst (getNext_many [10; 20; 30]%Z three_proxies))).
Proof.
  apply (C7_rotation_fairness three_proxies [10; 20; 30]%Z).
  - apply three_proxies_healthy.
  - reflexivity.
Defined.

End EgressRotation.

(** ** Attribution of the transport outcome to a proxy *)

Section EgressAttribution.

Import Proxy Client.

Lemma ring_successor_differs (i n : nat) :
  (2 <= n)%nat -> (i mod n)%nat <> ((i + 1) mod n)%nat.
Proof.
  intros Hn. rewrite <- (Nat.Div0.add_mod_idemp_l i 1 n).
  pose proof (Nat.mod_upper_bound i n ltac:(lia)) as Hr.
  destruct (decide (i mod n + 1 < n)%nat) as [Hlt|Hge].
  - rewrite (Nat.mod_small _ _ Hlt). lia.
  - replace (i mod n + 1)%nat with n by lia. rewrite Nat.Div0.mod_same. lia.
Qed.

Lemma getCurrent_set_index (i : nat) (pm : ProxyManager) :
  proxies pm <> [] ->
  getCurrent (set_index (i mod length (proxies pm)) pm)
  = proxies pm !! (i mod length (proxies pm))%nat.
Proof.
  intros Hne. unfold getCurrent. simpl.
  destruct (proxies pm) as [|p0 ps0] eqn:E; [done|].
  by rewrite Nat.Div0.mod_mod.
Qed.

(** What [getDispatcher] followed by [getCurrent] yields on a manager
    whose paths are all healthy: the request goes through the path under
    the rotation index, and [currentProxy] is its successor on the ring. *)
Lemma dispatch_then_current (now : Z) (pm : ProxyManager) :
  proxies pm <> [] -> all_healthy pm ->
  let '(dispatcher, pmo1) := getDispatcher now (Some pm) in
  dispatcher = proxies pm !! (currentIndex pm mod length (proxies pm))%nat /\
  pmo1 ≫= getCurrent
  = proxies pm !! ((currentIndex pm + 1) mod length (proxies pm))%nat.
Proof.
  intros Hne Hall. unfold getDispatcher, hasProxies.
  assert (0 < length (proxies pm))%nat as Hlen.
  { destruct (proxies pm); [done | simpl; lia]. }
  destruct (Nat.ltb_spec 0 (length (proxies pm))); [|lia].
  rewrite (getNext_healthy now pm Hne Hall). split; [reflexivity|].
  simpl. by apply getCurrent_set_index.
Qed.

(** With at least two healthy, pairwise distinct paths, the path that
    [graphql] reports to the manager is never the path the request went
    through. *)
Lemma graphql_marks_successor {D : Type} (ck : Clock) (op : string)
    (tr : transport D) (c : BaseClient) (pm : ProxyManager) (id : jsvalue) :
  QueryIds.get (t_resolve ck) (queryIds c) op = Resolved id ->
  proxyManager c = Some pm ->
  all_healthy pm ->
  (2 <= length (proxies pm))%nat ->
  NoDup (url <$> proxies pm) ->
  let e := snd (fst (fst (graphql ck op tr c))) in
  exists p q,
    dispatched e = Some p /\ url q <> url p /\
    match tr with
    | Failed _ => marked_failed e = Some (url q)
    | Responded _ => marked_success e = Some (url q)
    end.
Proof.
  intros Hid Hpm Hall Hlen Hnd.
  assert (proxies pm <> []) as Hne by (destruct (proxies pm); [simpl in Hlen; lia | done]).
  pose proof (dispatch_then_current (t_dispatch ck) pm Hne Hall) as Hd.
  unfold graphql. rewrite Hid, Hpm.
  destruct (RateLimit.waitIfNeeded _ _ _ _) as [[w slept] rl1].
  destruct (getDispatcher (t_dispatch ck) (Some pm)) as [dispatcher pmo1].
  destruct Hd as [Hdisp Hcur]. rewrite Hcur.
  set (i := (currentIndex pm mod length (proxies pm))%nat) in *.
  set (j := ((currentIndex pm + 1) mod length (proxies pm))%nat) in *.
  assert (i <> j) as Hij by (apply ring_successor_differs; lia).
  destruct (lookup_lt_is_Some_2 (proxies pm) i) as [p Hp].
  { apply Nat.mod_upper_bound. lia. }
  destruct (lookup_lt_is_Some_2 (proxies pm) j) as [q Hq].
  { apply Nat.mod_upper_bound. lia. }
  assert (url q <> url p) as Hurl.
  { intros Heq. apply Hij. eapply NoDup_lookup; [exact Hnd| |].
    - rewrite list_lookup_fmap, Hp. reflexivity.
    - rewrite list_lookup_fmap, Hq. simpl. by rewrite Heq. }
  exists p, q. rewrite Hq. subst dispatcher.
  destruct tr as [r|msg]; simpl.
  - destruct (errors r); simpl; auto.
  - auto.
Qed.

(** C2. The path that [graphql] marks is not the path it dispatched
    through: on a client with two healthy proxies the request leaves
    through the first one, while both the success mark (when the
    transport succeeds) and the failure mark (when it fails) go to the
    second one, which carried nothing. *)
Theorem C2_marks_other_path :
  let ok := snd (fst (fst (graphql noon "UserTweets" (Responded ok_response)
                             two_proxy_client))) in
  let ko := snd (fst (fst (graphql noon "UserTweets" (@Failed nat "ETIMEDOUT")
                             two_proxy_client))) in
  dispatched ok = Some proxy_a /\ marked_success ok = Some (url proxy_b) /\
  dispatched ko = Some proxy_a /\ marked_failed ko = Some (url proxy_b) /\
  url proxy_a <> url proxy_b.
Proof. vm_compute. repeat split; try reflexivity. discriminate. Qed.

(** After the failed call above, it is the idle second proxy whose
    failure count went up; the first proxy, which failed, is untouched. *)
Example failure_lands_on_idle_proxy :
  let pm' := proxyManager (snd (graphql noon "UserTweets" (@Failed nat "ETIMEDOUT")
                                  two_proxy_client)) in
  (fun pm => failures <$> status pm !! url proxy_a) <$> pm' = Some (Some 0) /\
  (fun pm => failures <$> status pm !! url proxy_b) <$> pm' = Some (Some 1).
Proof. vm_compute. split; reflexivity. Qed.

End EgressAttribution.

(** ** Disabling and re-enabling of proxies *)

Section SelfHealing.

Import Proxy.

Lemma available_one_eq now cd p st :
  available_one now cd p st
  = (keepable now cd st p, alter (heal now cd) (url p) st).
Proof.
  unfold available_one, keepable.
  destruct (st !! url p) as [s|] eqn:Es.
  - assert (alter (heal now cd) (url p) st = <[url p := heal now cd s]> st) as ->.
    { apply map_eq. intros k. destruct (decide (url p = k)) as [<-|Hne].
      - by rewrite lookup_alter_eq, lookup_insert_eq, Es.
      - by rewrite lookup_alter_ne, lookup_insert_ne. }
    unfold heal, expired.
    destruct (disabled s) eqn:Ed, (lastFailure s) as [lf|] eqn:El; simpl;
      try (rewrite insert_id by (rewrite Es; f_equal); reflexivity).
    destruct (cd <=? now - lf); [reflexivity|].
    by rewrite insert_id.
  - f_equal. apply map_eq. intros k. destruct (decide (url p = k)) as [<-|Hne].
    + by rewrite lookup_alter_eq, Es.
    + by rewrite lookup_alter_ne.
Qed.

Lemma heal_idempotent now cd s : heal now cd (heal now cd s) = heal now cd s.
Proof.
  unfold heal. destruct (expired now cd s) eqn:E; [|by rewrite E].
  unfold expired. simpl. reflexivity.
Qed.

Lemma keepable_heal now cd k st p :
  keepable now cd (alter (heal now cd) k st) p = keepable now cd st p.
Proof.
  unfold keepable. destruct (decide (k = url p)) as [->|Hne].
  - rewrite lookup_alter_eq. destruct (st !! url p) as [s|]; [|reflexivity].
    simpl. unfold heal. destruct (expired now cd s) eqn:E.
    + simpl. by rewrite orb_true_r.
    + by rewrite E.
  - by rewrite lookup_alter_ne.
Qed.

(** The paths that the availability check lists. *)
Lemma elem_of_available now cd ps : forall st p,
  p ∈ fst (available_from now cd ps st) <->
  p ∈ ps /\ keepable now cd st p = true.
Proof.
  induction ps as [|q ps IH]; intros st p; simpl.
  - split; [intros H; by apply elem_of_nil in H | intros [H _]; by apply elem_of_nil in H].
  - rewrite available_one_eq.
    specialize (IH (alter (heal now cd) (url q) st) p).
    destruct (available_from now cd ps _) as [rest st2]. simpl in *.
    rewrite keepable_heal in IH. rewrite elem_of_cons.
    destruct (keepable now cd st q) eqn:Eq.
    + rewrite elem_of_cons, IH. split.
      * intros [->|[? ?]]; auto.
      * intros [[->|?] ?]; auto.
    + rewrite IH. split.
      * intros [? ?]; auto.
      * intros [[->|?] ?]; [congruence | auto].
Qed.

(** The status map after the availability check. *)
Lemma available_status now cd ps : forall st k,
  snd (available_from now cd ps st) !! k
  = if decide (k ∈ url <$> ps) then heal now cd <$> st !! k else st !! k.
Proof.
  induction ps as [|q ps IH]; intros st k; cbn [available_from].
  - rewrite decide_False by apply not_elem_of_nil. reflexivity.
  - rewrite available_one_eq, fmap_cons.
    specialize (IH (alter (heal now cd) (url q) st) k).
    destruct (available_from now cd ps _) as [rest st2]. cbn [snd] in *.
    rewrite IH. clear IH.
    destruct (decide (url q = k)) as [<-|Hne].
    + rewrite lookup_alter_eq.
      rewrite (decide_True (P := url q ∈ url q :: (url <$> ps)))
        by apply list_elem_of_here.
      case_decide; [|reflexivity].
      destruct (st !! url q); simpl; [|reflexivity]. by rewrite heal_idempotent.
    + rewrite lookup_alter_ne by done.
      destruct (decide (k ∈ url <$> ps)) as [Hin|Hnin].
      * by rewrite decide_True by (by apply list_elem_of_further).
      * rewrite decide_False; [reflexivity|].
        rewrite elem_of_cons. intros [?|?]; congruence.
Qed.

(** A path found by the rotation loop has a status record with the
    [disabled] flag off. *)
Lemma scan_found n ps st : forall idx p idx',
  scan n ps st idx = (Some p, idx') ->
  exists s, st !! url p = Some s /\ disabled s = false.
Proof.
  induction n as [|n IH]; intros idx p idx'; simpl; [discriminate|].
  destruct (ps !! _) as [q|]; [|discriminate].
  destruct (st !! url q) as [s|] eqn:Es; [|apply IH].
  destruct (disabled s) eqn:Ed; simpl; [apply IH|].
  intros [= <- _]. eauto.
Qed.

Lemma getAvailableProxies_fst now pm :
  fst (getAvailableProxies now pm)
  = fst (available_from now (failureCooldownMs pm) (proxies pm) (status pm)).
Proof.
  unfold getAvailableProxies. by destruct (available_from _ _ _ _).
Qed.

Lemma getAvailableProxies_snd now pm :
  snd (getAvailableProxies now pm)
  = set_status
      (snd (available_from now (failureCooldownMs pm) (proxies pm) (status pm)))
      pm.
Proof.
  unfold getAvailableProxies. by destruct (available_from _ _ _ _).
Qed.

(** A disabled path whose cooldown is still running is not handed out
    while the availability check lists at least one path. *)
Lemma getNext_skips_disabled now pm u s p :
  status pm !! u = Some s -> disabled s = true ->
  expired now (failureCooldownMs pm) s = false ->
  fst (getAvailableProxies now pm) <> [] ->
  fst (getNext now pm) = Some p -> url p <> u.
Proof.
  intros Hs Hd Hexp Hav Hnext Hu.
  pose proof (getAvailableProxies_fst now pm) as Hf.
  pose proof (getAvailableProxies_snd now pm) as Hsn.
  unfold getNext in Hnext.
  destruct (proxies pm) as [|p0 ps0] eqn:Eps; [discriminate|]. rewrite <- Eps in *.
  destruct (getAvailableProxies now pm) as [av pm1]. cbn [fst snd] in *.
  destruct av as [|a av']; [done|]. subst pm1. cbn [proxies status set_status currentIndex] in Hnext.
  destruct (scan _ _ _ _) as [[q|] idx] eqn:Escan; cbn [fst] in Hnext.
  - injection Hnext as ->. apply scan_found in Escan as (s1 & Hs1 & Hd1).
    rewrite available_status, Hu, Hs in Hs1.
    case_decide; simpl in Hs1; injection Hs1 as <-.
    + unfold heal in Hd1. rewrite Hexp in Hd1. congruence.
    + congruence.
  - simpl in Hnext. injection Hnext as ->.
    assert (p ∈ fst (available_from now (failureCooldownMs pm) (proxies pm) (status pm)))
      as Hin by (rewrite <- Hf; apply list_elem_of_here).
    apply elem_of_available in Hin as [_ Hk].
    unfold keepable in Hk. rewrite Hu, Hs, Hd, Hexp in Hk. discriminate.
Qed.

(** Full amnesty: when the availability check lists nothing, [getNext]
    re-enables every status record and hands out the first path. *)
Lemma getNext_amnesty now pm :
  proxies pm <> [] -> fst (getAvailableProxies now pm) = [] ->
  fst (getNext now pm) = head (proxies pm) /\
  forall k s, status (snd (getNext now pm)) !! k = Some s ->
              disabled s = false /\ failures s = 0%Z.
Proof.
  intros Hne Hav.
  pose proof (getAvailableProxies_snd now pm) as Hsn.
  unfold getNext.
  destruct (proxies pm) as [|p0 ps0] eqn:Eps; [done|]. rewrite <- Eps in *.
  destruct (getAvailableProxies now pm) as [av pm1]. cbn [fst snd] in *.
  subst av pm1. cbn [fst snd proxies]. split; [reflexivity|].
  intros k s. unfold resetAllProxies. cbn [status set_status].
  rewrite lookup_fmap. destruct (_ !! k); simpl; [|discriminate].
  intros [= <-]. split; reflexivity.
Qed.

(** C5, as stated, fails twice.  The only path of a manager is disabled
    by its third failure at time 3000, and one millisecond later, long
    before the five-minute cooldown has run out, [getNext] hands it out
    again and its status is clean.  And when a success is recorded for
    the disabled first of two paths at 3001, the availability check
    lists that path at 3002. *)
Lemma C5_disabled_path_selected_early :
  ((disabled <$> status lone_proxy_failed !! url proxy_a) = Some true /\
   (lastFailure <$> status lone_proxy_failed !! url proxy_a) = Some (Some 3000%Z) /\
   (3001 - 3000 < failureCooldownMs lone_proxy_failed)%Z /\
   fst (getNext 3001 lone_proxy_failed) = Some proxy_a /\
   (disabled <$> status (snd (getNext 3001 lone_proxy_failed)) !! url proxy_a)
   = Some false) /\
  ((disabled <$> status first_of_two_failed !! url proxy_a) = Some true /\
   fst (getAvailableProxies 3000 first_of_two_failed) = [proxy_b] /\
   fst (getAvailableProxies 3002
          (markSuccess 3001 (url proxy_a) first_of_two_failed))
   = [proxy_a; proxy_b]).
Proof. vm_compute. repeat split; reflexivity. Qed.

(** The record of a path that is serving a cooldown begun at or after
    [T]. *)
Lemma cooling_heal now cd (s : ProxyStatus) T lf :
  disabled s = true -> lastFailure s = Some lf -> (T <= lf)%Z ->
  (now < T + cd)%Z -> heal now cd s = s.
Proof.
  intros Hd Hlf HT Hnow. unfold heal, expired. rewrite Hd, Hlf. cbn [andb].
  destruct (Z.leb_spec cd (now - lf)); [lia|reflexivity].
Qed.

Lemma getAvailableProxies_status now pm k :
  status (snd (getAvailableProxies now pm)) !! k
  = if decide (k ∈ url <$> proxies pm)
    then heal now (failureCooldownMs pm) <$> status pm !! k
    else status pm !! k.
Proof.
  rewrite getAvailableProxies_snd. cbn [status set_status].
  apply available_status.
Qed.

Lemma getAvailableProxies_frame now pm :
  proxies (snd (getAvailableProxies now pm)) = proxies pm /\
  failureCooldownMs (snd (getAvailableProxies now pm)) = failureCooldownMs pm.
Proof. by rewrite getAvailableProxies_snd. Qed.

(** A [getNext] that finds a path available changes the manager like
    the availability check does, and moves the rotation index. *)
Lemma getNext_listed now pm :
  fst (getAvailableProxies now pm) <> [] ->
  exists idx,
    snd (getNext now pm) = set_index idx (snd (getAvailableProxies now pm)).
Proof.
  intros Hav. unfold getNext.
  destruct (proxies pm) as [|p0 ps0] eqn:Eps.
  { exfalso. apply Hav. unfold getAvailableProxies. by rewrite Eps. }
  destruct (getAvailableProxies now pm) as [av pm1]. cbn [fst snd] in *.
  destruct av as [|a av']; [done|].
  destruct (scan _ _ _ _) as [[q|] idx]; by exists idx.
Qed.

(** The path [u] is registered and serves a cooldown that began at or
    after [T]. *)
Lemma cooling_preserved (u : string) (T cd : Z) (o : proxy_op) pm :
  (exists p, p ∈ proxies pm /\ url p = u) ->
  failureCooldownMs pm = cd ->
  (exists s lf, status pm !! u = Some s /\ disabled s = true /\
                lastFailure s = Some lf /\ (T <= lf)%Z) ->
  undisturbed u T (T + cd) [o] pm ->
  (exists p, p ∈ proxies (apply_op pm o) /\ url p = u) /\
  failureCooldownMs (apply_op pm o) = cd /\
  (exists s lf, status (apply_op pm o) !! u = Some s /\ disabled s = true /\
                lastFailure s = Some lf /\ (T <= lf)%Z).
Proof.
  intros (p & Hp & Hu) Hcd (s & lf & Hs & Hd & Hlf & HT) [Ho _].
  assert (forall now, (now < T + cd)%Z ->
            (exists p, p ∈ proxies (snd (getAvailableProxies now pm)) /\ url p = u) /\
            failureCooldownMs (snd (getAvailableProxies now pm)) = cd /\
            status (snd (getAvailableProxies now pm)) !! u = Some s) as Hcheck.
  { intros now Hnow.
    destruct (getAvailableProxies_frame now pm) as [Hps Hc].
    rewrite Hps, Hc. split; [eauto|]. split; [done|].
    rewrite getAvailableProxies_status, Hs, Hcd. cbn [fmap option_fmap option_map].
    rewrite (cooling_heal now cd s T lf Hd Hlf HT Hnow). by case_decide. }
  destruct o as [config|now v|now v|now|now|now|]; cbn [apply_op] in *.
  - unfold addProxy. destruct (existsb _ (proxies pm)) eqn:Eex.
    + split; [eauto|]. split; [done|]. eauto 10.
    + cbn [proxies failureCooldownMs status].
      split; [exists p; split; [apply elem_of_app; by left|done]|].
      split; [done|]. exists s, lf. split; [|done].
      rewrite lookup_insert_ne; [done|]. intros E.
      apply not_true_iff_false in Eex. apply Eex.
      apply existsb_exists. exists p. split; [by apply list_elem_of_In|].
      cbn beta. rewrite Hu, E. apply String.eqb_refl.
  - unfold markFailed. destruct (status pm !! v) as [sv|] eqn:Ev.
    + cbn [set_status proxies failureCooldownMs status].
      split; [eauto|]. split; [done|].
      destruct (decide (v = u)) as [->|Hne].
      * rewrite lookup_insert_eq. eexists _, now. split; [reflexivity|].
        cbn [disabled lastFailure]. rewrite Hs in Ev. injection Ev as <-.
        rewrite Hd. split; [by destruct (_ <=? _)%Z|]. split; [done|].
        by apply Ho.
      * rewrite lookup_insert_ne by done. eauto 10.
    + split; [eauto|]. split; [done|]. eauto 10.
  - unfold markSuccess. destruct (status pm !! v) as [sv|] eqn:Ev.
    + cbn [set_status proxies failureCooldownMs status].
      split; [eauto|]. split; [done|].
      rewrite lookup_insert_ne by done. eauto 10.
    + split; [eauto|]. split; [done|]. eauto 10.
  - destruct Ho as [[_ Hnow] Hav].
    destruct (getNext_listed now pm Hav) as [idx ->].
    destruct (Hcheck now Hnow) as (Hreg & Hc & Hst).
    cbn [set_index proxies failureCooldownMs status].
    split; [done|]. split; [done|]. eauto 10.
  - destruct Ho as [_ Hnow].
    destruct (Hcheck now Hnow) as (Hreg & Hc & Hst).
    split; [done|]. split; [done|]. eauto 10.
  - destruct Ho as [_ Hnow].
    destruct (Hcheck now Hnow) as (Hreg & Hc & Hst).
    unfold getStats. destruct (getAvailableProxies now pm) as [av pm1].
    cbn [fst snd] in *.
    split; [done|]. split; [done|]. eauto 10.
  - done.
Qed.

(** While the cooldown of [u] is left to itself, [u] is neither listed
    nor handed out, and it goes on serving a cooldown. *)
Lemma cooling_run (u : string) (T cd : Z) (ops : list proxy_op) :
  forall pm,
  (exists p, p ∈ proxies pm /\ url p = u) ->
  failureCooldownMs pm = cd ->
  (exists s lf, status pm !! u = Some s /\ disabled s = true /\
                lastFailure s = Some lf /\ (T <= lf)%Z) ->
  undisturbed u T (T + cd) ops pm ->
  (forall p, p ∈ offered ops pm -> url p <> u) /\
  (exists p, p ∈ proxies (apply_ops ops pm) /\ url p = u) /\
  failureCooldownMs (apply_ops ops pm) = cd /\
  (exists s lf, status (apply_ops ops pm) !! u = Some s /\ disabled s = true /\
                lastFailure s = Some lf /\ (T <= lf)%Z).
Proof.
  induction ops as [|o rest IH]; intros pm Hreg Hcd Hcool Hq.
  - cbn [offered apply_ops fold_left]. split; [|done].
    intros p Hp. by apply elem_of_nil in Hp.
  - destruct Hq as [Ho Hrest].
    destruct (cooling_preserved u T cd o pm Hreg Hcd Hcool (conj Ho I))
      as (Hreg1 & Hcd1 & Hcool1).
    destruct (IH _ Hreg1 Hcd1 Hcool1 Hrest) as (Hoff & Hfin).
    split; [|exact Hfin].
    intros p Hp. cbn [offered] in Hp. apply elem_of_app in Hp as [Hp|Hp];
      [|by apply Hoff].
    destruct Hcool as (s & lf & Hs & Hd & Hlf & HT).
    assert (forall now, (now < T + cd)%Z ->
              expired now (failureCooldownMs pm) s = false) as Hexp.
    { intros now Hnow. unfold expired. rewrite Hd, Hlf, Hcd. cbn [andb].
      destruct (Z.leb_spec cd (now - lf)); [lia|reflexivity]. }
    destruct o as [config|now v|now v|now|now|now|];
      try (by apply elem_of_nil in Hp).
    + destruct Ho as [[_ Hnow] Hav].
      destruct (fst (getNext now pm)) as [q|] eqn:Enext;
        [|by apply elem_of_nil in Hp].
      cbn [option_list] in Hp. apply list_elem_of_singleton in Hp as ->.
      by apply (getNext_skips_disabled now pm u s q Hs Hd (Hexp now Hnow) Hav).
    + destruct Ho as [_ Hnow]. intros Hu.
      rewrite getAvailableProxies_fst in Hp.
      apply elem_of_available in Hp as [_ Hk].
      unfold keepable in Hk. rewrite Hu, Hs, Hd, (Hexp now Hnow) in Hk.
      discriminate.
Qed.

(** A registered path whose cooldown has run out is listed by the next
    availability check, which clears its record. *)
Lemma cooled_reenters now pm (u : string) (s : ProxyStatus) lf :
  status pm !! u = Some s -> disabled s = true -> lastFailure s = Some lf ->
  (failureCooldownMs pm <= now - lf)%Z ->
  (forall p, p ∈ proxies pm -> url p = u ->
             p ∈ fst (getAvailableProxies now pm)) /\
  ((exists p, p ∈ proxies pm /\ url p = u) ->
   exists s', status (snd (getAvailableProxies now pm)) !! u = Some s' /\
              disabled s' = false /\ failures s' = 0%Z).
Proof.
  intros Hs Hd Hlf Hlate.
  assert (expired now (failureCooldownMs pm) s = true) as Hexp.
  { unfold expired. rewrite Hd, Hlf. cbn [andb].
    destruct (Z.leb_spec (failureCooldownMs pm) (now - lf)); [reflexivity|lia]. }
  split.
  - intros p Hin Hu. rewrite getAvailableProxies_fst.
    apply elem_of_available. split; [done|].
    unfold keepable. rewrite Hu, Hs, Hexp. by rewrite orb_true_r.
  - intros (p & Hin & Hu). rewrite getAvailableProxies_status, Hs.
    rewrite decide_True by (rewrite <- Hu; by apply list_elem_of_fmap_2).
    simpl. unfold heal. rewrite Hexp. eexists. split; [reflexivity|].
    split; reflexivity.
Qed.

(** C5, amended.  A [markFailed] that brings the failure count of a
    registered path to the threshold disables the path and starts its
    cooldown at that failure.  From then on, over every run of manager
    operations that leaves the cooldown to itself (clock readings
    within the window, no success recorded for the path, no reset, and
    every [getNext] finding some path available), the path is never
    listed by an availability check and never returned by [getNext],
    and it stays disabled; once the cooldown has elapsed since its
    last failure, the availability check lists it again and leaves its
    record with [disabled] cleared and the failure count at 0.  When
    the check lists no path at all, [getNext] re-enables every record
    and returns the first registered path. *)
Theorem C5_self_healing (pm : ProxyManager) (u : string) (s : ProxyStatus)
    (T : Z) :
  status pm !! u = Some s ->
  (maxFailures pm <= failures s + 1)%Z ->
  (exists p, p ∈ proxies pm /\ url p = u) ->
  let pm' := markFailed T u pm in
  let cd := failureCooldownMs pm in
  (exists s', status pm' !! u = Some s' /\ disabled s' = true /\
              lastFailure s' = Some T /\ failures s' = (failures s + 1)%Z) /\
  (forall ops, undisturbed u T (T + cd) ops pm' ->
     (forall p, p ∈ offered ops pm' -> url p <> u) /\
     exists s' lf,
       status (apply_ops ops pm') !! u = Some s' /\ disabled s' = true /\
       lastFailure s' = Some lf /\ (T <= lf)%Z /\
       forall now, (cd <= now - lf)%Z ->
         (forall p, p ∈ proxies (apply_ops ops pm') -> url p = u ->
                    p ∈ fst (getAvailableProxies now (apply_ops ops pm'))) /\
         exists s'',
           status (snd (getAvailableProxies now (apply_ops ops pm'))) !! u
           = Some s'' /\
           disabled s'' = false /\ failures s'' = 0%Z) /\
  (forall now, proxies pm <> [] -> fst (getAvailableProxies now pm') = [] ->
     fst (getNext now pm') = head (proxies pm) /\
     forall k s', status (snd (getNext now pm')) !! k = Some s' ->
                  disabled s' = false /\ failures s' = 0%Z).
Proof.
  intros Hs Hthr Hreg pm' cd.
  set (s1 := {| st_url := st_url s; failures := failures s + 1;
                lastFailure := Some T; lastSuccess := lastSuccess s;
                disabled := true |}).
  assert (status pm' !! u = Some s1) as Hs1.
  { unfold pm', markFailed. rewrite Hs. cbn [status set_status].
    rewrite lookup_insert_eq. unfold s1.
    destruct (Z.leb_spec (maxFailures pm) (failures s + 1)); [reflexivity|lia]. }
  assert (proxies pm' = proxies pm) as Hps.
  { unfold pm', markFailed. by rewrite Hs. }
  assert (failureCooldownMs pm' = cd) as Hcd.
  { unfold pm', markFailed. by rewrite Hs. }
  split; [|split].
  - exists s1. auto.
  - intros ops Hq.
    destruct (cooling_run u T cd ops pm') as (Hoff & Hreg' & Hcd' & Hcool);
      [by rewrite Hps|done| |done|].
    { exists s1, T. split; [done|]. split; [done|]. split; [done|lia]. }
    split; [exact Hoff|].
    destruct Hcool as (s' & lf & Hs' & Hd' & Hlf' & HT).
    exists s', lf. split_and!; try done.
    intros now Hlate.
    destruct (cooled_reenters now (apply_ops ops pm') u s' lf Hs' Hd' Hlf')
      as [Hlist Hclear]; [by rewrite Hcd'|].
    split; [exact Hlist|]. by apply Hclear.
  - intros now Hne Hav. rewrite <- Hps.
    apply getNext_amnesty; [by rewrite Hps|done].
Qed.

(** C5 on two proxies, the first of which has just failed for the third
    time at time 3000: over four minutes of rotation, failures and
    successes it is never offered, and it is listed again five minutes
    after the last of its failures. *)
Lemma C5_self_healing_witness :
  (forall p, p ∈ offered quiet_minutes first_of_two_failed ->
             url p <> url proxy_a) /\
  proxy_a ∈ fst (getAvailableProxies 420000
                   (apply_ops quiet_minutes first_of_two_failed)).
Proof.
  destruct (C5_self_healing
              (markFailed 2000 (url proxy_a)
                 (markFailed 1000 (url proxy_a) two_proxies))
              (url proxy_a)
              {| st_url := url proxy_a; failures := 2;
                 lastFailure := Some 2000%Z; lastSuccess := None;
                 disabled := false |} 3000)
    as (_ & Hrun & _).
  { vm_compute. reflexivity. }
  { vm_compute. discriminate. }
  { exists proxy_a. split; [|reflexivity]. vm_compute. apply list_elem_of_here. }
  destruct (Hrun quiet_minutes) as (Hoff & s' & lf & Hs' & _ & Hlf & _ & Hback).
  { cbn [undisturbed quiet_minutes]. vm_compute.
    repeat split; try discriminate; try (intros [=]); try done. }
  split; [exact Hoff|].
  assert (lf = 120000%Z) as ->.
  { change (markFailed 3000 (url proxy_a) _) with first_of_two_failed in Hs'.
    vm_compute in Hs'. injection Hs' as <-. by injection Hlf. }
  apply (Hback 420000%Z); [vm_compute; discriminate| |reflexivity].
  vm_compute. apply list_elem_of_here.
Defined.

End SelfHealing.

(** ** Session pool: hard lockout *)

Section Lockout.

Import Pool.

Lemma view_lookup q q' i s :
  view q = view q' -> sessions q !! i = Some s ->
  exists s', sessions q' !! i = Some s' /\ session s' = session s /\
             cooldownUntil s' = cooldownUntil s.
Proof.
  intros Hv Hs. apply (f_equal (fun l => l !! i)) in Hv.
  unfold view in Hv. rewrite !list_lookup_fmap, Hs in Hv. simpl in Hv.
  destruct (sessions q' !! i) as [s'|]; [|discriminate].
  injection Hv as H1 H2. eauto.
Qed.

Lemma locked_until_view c u q q' :
  view q = view q' -> locked_until c u q -> locked_until c u q'.
Proof.
  intros Hv [Hsole (i & s & Hs & Hc & Hu)]. split.
  - intros a b s1 s2 H1 H2 T1 T2.
    destruct (view_lookup q' q a s1 (eq_sym Hv) H1) as (t1 & Ht1 & E1 & _).
    destruct (view_lookup q' q b s2 (eq_sym Hv) H2) as (t2 & Ht2 & E2 & _).
    apply (Hsole a b t1 t2); congruence.
  - destruct (view_lookup q q' i s Hv Hs) as (s' & Hs' & E1 & E2).
    exists i, s'. repeat split; congruence.
Qed.

Lemma view_alter_touch now i q k :
  view {| sessions := alter (touch now) i (sessions q); currentIndex := k |}
  = view q.
Proof.
  unfold view. simpl.
  rewrite (list_fmap_alter _ (touch now) id).
  - by apply list_alter_id.
  - apply Forall_forall. by intros [].
Qed.

(** [getNext] changes [lastUsed] and the rotation counter only. *)
Lemma getNext_view now q : view (snd (getNext now q)) = view q.
Proof.
  unfold getNext. destruct (sessions q) eqn:E; [reflexivity|].
  destruct (availableSessions now q) as [|a av]; [reflexivity|].
  destruct (_ !! _) as [[i s]|]; [|reflexivity].
  cbn [snd]. rewrite <- E. apply view_alter_touch.
Qed.

Lemma getNext_run_view nows : forall q, view (getNext_run nows q) = view q.
Proof.
  induction nows as [|now rest IH]; intros q; simpl; [reflexivity|].
  by rewrite IH, getNext_view.
Qed.

(** The entries that the filter of [getNext] keeps. *)
Lemma elem_of_available_from now l : forall i0 j s,
  (j, s) ∈ available_from now i0 l <->
  (i0 <= j)%nat /\ l !! (j - i0)%nat = Some s /\ not_in_cooldown now s = true.
Proof.
  induction l as [|x l IH]; intros i0 j s; simpl.
  - split; [intros H; by apply elem_of_nil in H | intros (_ & H & _); discriminate].
  - assert ((j, s) ∈ available_from now (S i0) l <->
            (i0 < j)%nat /\ (x :: l) !! (j - i0)%nat = Some s /\
            not_in_cooldown now s = true) as Htail.
    { rewrite IH. split.
      - intros (? & Hl & ?). repeat split; [lia| |done].
        replace (j - i0)%nat with (S (j - S i0)) by lia. exact Hl.
      - intros (? & Hl & ?). repeat split; [lia| |done].
        replace (j - i0)%nat with (S (j - S i0)) in Hl by lia. exact Hl. }
    destruct (not_in_cooldown now x) eqn:Ex.
    + rewrite elem_of_cons, Htail. split.
      * intros [[= -> ->]|(? & ? & ?)].
        -- rewrite Nat.sub_diag. auto.
        -- repeat split; [lia|done|done].
      * intros (Hle & Hl & Hn). destruct (decide (j = i0)) as [->|Hne].
        -- rewrite Nat.sub_diag in Hl. injection Hl as ->. by left.
        -- right. repeat split; [lia|done|done].
    + rewrite Htail. split.
      * intros (? & ? & ?). repeat split; [lia|done|done].
      * intros (Hle & Hl & Hn). destruct (decide (j = i0)) as [->|Hne].
        -- rewrite Nat.sub_diag in Hl. injection Hl as ->. congruence.
        -- repeat split; [lia|done|done].
Qed.

Lemma elem_of_availableSessions now q j s :
  (j, s) ∈ availableSessions now q <->
  sessions q !! j = Some s /\ not_in_cooldown now s = true.
Proof.
  unfold availableSessions. rewrite elem_of_available_from, Nat.sub_0_r.
  split; [intros (_ & ? & ?); auto | intros [? ?]; repeat split; [lia|done|done]].
Qed.

(** With a non-empty filter result, [getNext] returns the credentials
    of one of the kept entries. *)
Lemma getNext_from_available now q r :
  availableSessions now q <> [] -> fst (getNext now q) = Some r ->
  exists j s, (j, s) ∈ availableSessions now q /\ r = session s.
Proof.
  intros Hav Hr. unfold getNext in Hr.
  destruct (sessions q) eqn:E.
  { exfalso. apply Hav. unfold availableSessions. by rewrite E. }
  destruct (availableSessions now q) as [|a av] eqn:Eav; [done|].
  destruct (_ !! _) as [[j s]|] eqn:El; [|discriminate].
  injection Hr as <-. exists j, s. split; [|reflexivity].
  eapply list_elem_of_lookup_2. exact El.
Qed.

(** The first entry of the pool sorted by cooldown end is an entry whose
    cooldown ends soonest. *)
Lemma sortedByCooldown_head (l : list PooledSession) :
  l <> [] ->
  exists h, head (sortedByCooldown l) = Some h /\ h ∈ l /\
            forall x, x ∈ l -> cooldown_key h <= cooldown_key x.
Proof.
  induction l as [|s l IH]; [done|]. intros _.
  destruct l as [|s' l'].
  - exists s. split; [reflexivity|]. split; [apply list_elem_of_here|].
    intros x Hx. apply list_elem_of_singleton in Hx. subst. lia.
  - destruct IH as (h & Hh & Hin & Hmin); [done|].
    cbn [sortedByCooldown] in *.
    destruct (insert_by_cooldown s' (sortedByCooldown l')) as [|h0 t];
      [discriminate|]. simpl in Hh. injection Hh as ->.
    simpl. destruct (Z.leb_spec (cooldown_key s) (cooldown_key h)).
    + exists s. split; [reflexivity|]. split; [apply list_elem_of_here|].
      intros x Hx. apply elem_of_cons in Hx as [->|Hx]; [lia|].
      specialize (Hmin x Hx). lia.
    + exists h. split; [reflexivity|]. split; [by apply list_elem_of_further|].
      intros x Hx. apply elem_of_cons in Hx as [->|Hx]; [lia|].
      by apply Hmin.
Qed.

Lemma find_by_token_None tok l :
  find_by_token tok l = None <->
  forall ps, ps ∈ l -> authToken (session ps) <> tok.
Proof.
  unfold find_by_token. rewrite list_find_None, Forall_forall. reflexivity.
Qed.

(** [markLimited] puts the pooled entry of [c] into a cooldown that ends
    24 hours after the call. *)
Lemma markLimited_locks T c endpoint resetTime pool :
  (exists ps, ps ∈ sessions pool /\ session ps = c) ->
  sole_token (authToken c) (sessions pool) ->
  locked_until c (T + hard_lockout_ms) (markLimited T c endpoint resetTime pool).
Proof.
  intros (ps & Hin & Hc) Hsole. unfold markLimited.
  destruct (find_by_token (authToken c) (sessions pool)) as [[i x]|] eqn:Ef.
  - apply list_find_Some in Ef as (Hx & Htok & _).
    apply list_elem_of_lookup_1 in Hin as [j Hj].
    assert (i = j) as <-.
    { apply (Hsole i j x ps); [done|done|done|by rewrite Hc]. }
    assert (x = ps) as -> by congruence.
    split; cbn [sessions].
    + intros a b s1 s2 H1 H2 T1 T2.
      assert (forall k s, alter (limit_session T endpoint resetTime) i (sessions pool) !! k = Some s ->
                exists s0, sessions pool !! k = Some s0 /\ session s0 = session s) as Horig.
      { intros k s Hk. destruct (decide (i = k)) as [<-|Hne].
        - rewrite list_lookup_alter_eq, Hx in Hk. injection Hk as <-. eauto.
        - rewrite list_lookup_alter_ne in Hk by done. eauto. }
      destruct (Horig a s1 H1) as (t1 & Ht1 & E1).
      destruct (Horig b s2 H2) as (t2 & Ht2 & E2).
      apply (Hsole a b t1 t2); congruence.
    + exists i, (limit_session T endpoint resetTime ps).
      rewrite list_lookup_alter_eq, Hx. auto.
  - exfalso. rewrite find_by_token_None in Ef. apply (Ef ps Hin). by rewrite Hc.
Qed.

(** While the cooldown of [c] has not ended, [getNext] does not return
    [c] as long as the filter keeps some entry. *)
Lemma locked_excluded c u q now r :
  locked_until c u q -> u <> 0 -> now <= u ->
  availableSessions now q <> [] ->
  fst (getNext now q) = Some r -> authToken r <> authToken c.
Proof.
  intros [Hsole (i & s0 & Hs0 & Hc & Hu)] Hnz Hnow Hav Hr Htok.
  destruct (getNext_from_available now q r Hav Hr) as (j & s & Hin & ->).
  apply elem_of_availableSessions in Hin as [Hs Hfree].
  assert (j = i) as ->.
  { apply (Hsole j i s s0); [done|done|done|by rewrite Hc]. }
  assert (s = s0) as -> by congruence.
  unfold not_in_cooldown in Hfree. rewrite Hu in Hfree. simpl in Hfree.
  destruct (Z.eqb_spec u 0); [done|].
  destruct (Z.ltb_spec u now); [lia|]. discriminate.
Qed.

(** Once the cooldown of [c] has ended, the filter keeps [c], and
    [getNext] returns it at a suitable state of the rotation counter. *)
Lemma locked_released c u q now :
  locked_until c u q -> u < now ->
  (exists i s, (i, s) ∈ availableSessions now q /\ session s = c) /\
  (exists k, fst (getNext now (at_rotation k q)) = Some c).
Proof.
  intros [_ (i & s0 & Hs0 & Hc & Hu)] Hnow.
  assert ((i, s0) ∈ availableSessions now q) as Hin.
  { apply elem_of_availableSessions. split; [done|].
    unfold not_in_cooldown. rewrite Hu.
    destruct (Z.ltb_spec u now); [|lia]. apply orb_true_r. }
  split; [eauto|].
  destruct (list_elem_of_lookup_1 _ _ Hin) as [k Hk].
  exists k. unfold getNext. cbn [sessions currentIndex at_rotation].
  destruct (sessions q) eqn:E; [rewrite lookup_nil in Hs0; discriminate|].
  rewrite <- E.
  change (availableSessions now (at_rotation k q)) with (availableSessions now q).
  destruct (availableSessions now q) as [|a av] eqn:Eav;
    [rewrite lookup_nil in Hk; discriminate|].
  rewrite Nat.mod_small by (eapply lookup_lt_Some; exact Hk).
  rewrite Hk. cbn [fst]. by rewrite Hc.
Qed.

Example rotation_of_two :
  fst (getNext 5 alice_and_bob) = Some alice /\
  fst (getNext 6 (snd (getNext 5 alice_and_bob))) = Some bob.
Proof. vm_compute. split; reflexivity. Qed.

Example locked_alice_is_skipped :
  let q := markLimited 1000 alice "UserTweets" 1900 alice_and_bob in
  fst (getNext 2000 q) = Some bob /\
  fst (getNext 2001 (snd (getNext 2000 q))) = Some bob.
Proof. vm_compute. split; reflexivity. Qed.

(** C4, as stated, fails: in a pool whose only credential was locked out
    at time 1000, [getNext] returns that credential one millisecond
    later, 24 hours before the cooldown ends. *)
Lemma C4_locked_credential_returned :
  let q := markLimited 1000 alice "UserTweets" 1900 alice_alone in
  alice ∈ session <$> sessions alice_alone /\
  1001 < 1000 + hard_lockout_ms /\
  fst (getNext 1001 q) = Some alice.
Proof.
  vm_compute. split; [|split; reflexivity]. apply list_elem_of_here.
Qed.

(** C4, amended.  Let [c] be a pooled credential that is alone with its
    token, locked out by [markLimited] at time [T], and let any number
    of [getNext] calls follow.  At every time up to [T + 24h], [getNext]
    does not return [c] provided the pool holds a credential that is not
    in cooldown; when every credential is in cooldown, [getNext] returns
    a credential whose cooldown ends soonest (which may be [c]).  After
    [T + 24h], [c] passes the cooldown filter again and [getNext]
    returns it when the rotation reaches it. *)
Theorem C4_hard_lockout (pool : SessionPool) (c : Session) (endpoint : string)
    (resetTime T now : Z) (nows : list Z) :
  0 <= T ->
  (exists ps, ps ∈ sessions pool /\ session ps = c) ->
  sole_token (authToken c) (sessions pool) ->
  let q := getNext_run nows (markLimited T c endpoint resetTime pool) in
  (now <= T + hard_lockout_ms -> availableSessions now q <> [] ->
   forall r, fst (getNext now q) = Some r -> authToken r <> authToken c) /\
  (availableSessions now q = [] ->
   exists h, fst (getNext now q) = Some (session h) /\ h ∈ sessions q /\
             forall x, x ∈ sessions q -> cooldown_key h <= cooldown_key x) /\
  (T + hard_lockout_ms < now ->
   (exists i s, (i, s) ∈ availableSessions now q /\ session s = c) /\
   (exists k, fst (getNext now (at_rotation k q)) = Some c)).
Proof.
  intros HT Hin Hsole q.
  assert (locked_until c (T + hard_lockout_ms) q) as Hlock.
  { eapply locked_until_view; [symmetry; apply getNext_run_view|].
    by apply markLimited_locks. }
  split; [|split].
  - intros Hnow Hav r Hr.
    eapply locked_excluded; [exact Hlock| |exact Hnow|exact Hav|exact Hr].
    unfold hard_lockout_ms. lia.
  - intros Hav.
    destruct (sortedByCooldown_head (sessions q)) as (h & Hh & Hin' & Hmin).
    { destruct Hlock as [_ (i & s & Hs & _)]. intros E. rewrite E in Hs.
      rewrite lookup_nil in Hs. discriminate. }
    exists h. split; [|done]. unfold getNext. rewrite Hav, Hh.
    destruct (sessions q) eqn:E; [|reflexivity].
    by apply elem_of_nil in Hin'.
  - intros Hnow. exact (locked_released c _ q now Hlock Hnow).
Qed.

Lemma sole_token_alice : sole_token (authToken alice) (sessions alice_and_bob).
Proof.
  intros [|[|i]] [|[|j]] s1 s2 H1 H2 T1 T2; simpl in *; try discriminate;
    try reflexivity.
  - injection H2 as <-. discriminate.
  - injection H1 as <-. discriminate.
Qed.

(** C4 on a pool of two credentials, the first locked out at time 1000
    and two [getNext] calls later: the call at 5000 does not return it,
    and a day later it passes the filter again. *)
Lemma C4_hard_lockout_witness :
  let q := getNext_run [2000; 3000]
             (markLimited 1000 alice "UserTweets" 1900 alice_and_bob) in
  (forall r, fst (getNext 5000 q) = Some r -> authToken r <> authToken alice) /\
  (exists i s, (i, s) ∈ availableSessions 86401001 q /\ session s = alice).
Proof.
  intros q.
  assert (exists ps, ps ∈ sessions alice_and_bob /\ session ps = alice) as Hin.
  { eexists. split; [apply list_elem_of_here | reflexivity]. }
  split.
  - refine (proj1 (C4_hard_lockout alice_and_bob alice "UserTweets" 1900 1000
                     5000 [2000; 3000] _ Hin sole_token_alice) _ _).
    + lia.
    + vm_compute. discriminate.
    + vm_compute. discriminate.
  - refine (proj1 (proj2 (proj2 (C4_hard_lockout alice_and_bob alice "UserTweets"
                     1900 1000 86401001 [2000; 3000] _ Hin sole_token_alice)) _)).
    + lia.
    + vm_compute. reflexivity.
Defined.

(** C10. A [markLimited] whose session matches no pooled credential by
    token leaves the pool as it is: no cooldown is set and no rate state
    is recorded.  The credential to lock is found by its [authToken]
    alone: two sessions with the same token have the same effect,
    whatever their other fields. *)
Theorem C10_markLimited_frame (now : Z) (c c' : Session) (endpoint : string)
    (resetTime : Z) (pool : SessionPool) :
  ((forall ps, ps ∈ sessions pool -> authToken (session ps) <> authToken c) ->
   markLimited now c endpoint resetTime pool = pool) /\
  (authToken c = authToken c' ->
   markLimited now c endpoint resetTime pool
   = markLimited now c' endpoint resetTime pool).
Proof.
  split.
  - intros Hnone. unfold markLimited.
    by rewrite (proj2 (find_by_token_None _ _) Hnone).
  - intros Htok. unfold markLimited. by rewrite Htok.
Qed.

(** C10 on the pool of two: an unknown token changes nothing, and a
    session that shares only the token with a pooled credential locks
    that credential. *)
Lemma C10_markLimited_frame_witness :
  markLimited 1000 mallory "UserTweets" 1900 alice_and_bob = alice_and_bob /\
  markLimited 1000 alice "UserTweets" 1900 alice_and_bob
  = markLimited 1000
      {| authToken := "token-alice"; ct0 := "stale-csrf";
         username := None; userId := None |}
      "UserTweets" 1900 alice_and_bob.
Proof.
  split.
  - apply (proj1 (C10_markLimited_frame 1000 mallory mallory "UserTweets" 1900
                    alice_and_bob)).
    intros ps Hps. simpl in Hps.
    repeat (apply elem_of_cons in Hps as [->|Hps]; [discriminate|]).
    by apply elem_of_nil in Hps.
  - apply (proj2 (C10_markLimited_frame 1000 alice _ "UserTweets" 1900
                    alice_and_bob)).
    reflexivity.
Defined.

End Lockout.

(** ** Paginator *)

Section PaginatorFacts.

Import Pagination.

Context {T : Type}.
Variable fetchFn : FetchPage T.
Variable io : World.

Lemma step_options mx (s : Loop T) r : options (pg (step io mx s r)) = options (pg s).
Proof. reflexivity. Qed.

Lemma resume_file_Some (p : Paginator) (f : string) :
  resume_file p = Some f <-> resume (options p) = Some f /\ truthy_str f = true.
Proof.
  unfold resume_file. destruct (resume (options p)) as [g|].
  - destruct (truthy_str g) eqn:E.
    + split; [intros [= ->]; auto | intros [[= ->] _]; reflexivity].
    + split; [discriminate | intros [[= ->] ?]; congruence].
  - split; [discriminate | intros [? _]; discriminate].
Qed.





Lemma step_counted mx (s : Loop T) r : counted (step io mx s r).
Proof. split; reflexivity. Qed.




Lemma step_more mx (s : Loop T) r :
  more (step io mx s r) = true -> truthy_ostr (cur (step io mx s r)) = true.
Proof. simpl. intros H. by apply andb_true_iff in H as [_ H]. Qed.

(** What a finished run of the loop guarantees about its final state. *)
Lemma run_inv fuel mx : forall (s s' : Loop T) res,
  run fetchFn io fuel mx s = Some (s', res) ->
  options (pg s') = options (pg s) /\
  (calls s <= calls s')%nat /\
  pageCount s' = pageCount s + Z.of_nat (calls s' - calls s) /\
  (calls s' = calls s -> s' = s) /\
  ((calls s < calls s')%nat ->
   counted s' /\ (more s' = true -> truthy_ostr (cur s') = true)) /\
  match res with
  | Some msg => wants mx s' = true /\ fetchFn (calls s') (cur s') = Throws msg
  | None => wants mx s' = false
  end.
Proof.
  induction fuel as [|fuel IH]; intros s s' res Hrun; simpl in Hrun.
  - fold (wants mx s) in Hrun. destruct (wants mx s) eqn:Ew; [discriminate|].
    injection Hrun as <- <-. rewrite Nat.sub_diag.
    split_and!; try lia; try done.
  - fold (wants mx s) in Hrun. destruct (wants mx s) eqn:Ew.
    + destruct (fetchFn (calls s) (cur s)) as [r|msg] eqn:Efetch.
      * apply IH in Hrun as (Ho & Hc & Hp & Hsame & Hsync & Hres).
        rewrite step_options in Ho.
        change (calls (step io mx s r)) with (S (calls s)) in *.
        change (pageCount (step io mx s r)) with (pageCount s + 1) in *.
        split; [done|]. split; [lia|]. split; [lia|]. split; [lia|].
        split; [|done]. intros _.
        destruct (decide (calls s' = S (calls s))) as [E|E].
        -- rewrite (Hsame E). split; [apply step_counted | apply step_more].
        -- apply Hsync. lia.
      * injection Hrun as <- <-. rewrite Nat.sub_diag.
        split_and!; try lia; try done.
    + injection Hrun as <- <-. rewrite Nat.sub_diag.
      split_and!; try lia; try done.
Qed.





(** Under a finite cap the loop ends: fuel for the pages that are left
    below the cap is enough. *)
Lemma run_finite_total n fuel : forall s,
  (Z.to_nat (n - pageCount s) <= fuel)%nat ->
  is_Some (run fetchFn io fuel (Finite n) s).
Proof.
  induction fuel as [|fuel IH]; intros s Hfuel; simpl.
  - destruct (more s); simpl; [|eauto].
    destruct (Z.ltb_spec (pageCount s) n); [lia|eauto].
  - destruct (more s); simpl; [|eauto].
    destruct (Z.ltb_spec (pageCount s) n); [|eauto].
    destruct (fetchFn (calls s) (cur s)); [|eauto].
    apply IH. simpl. lia.
Qed.

(** Under a finite cap, a run that loaded a page ends with a page count
    within the cap. *)
Lemma run_within_cap n fuel : forall (s s' : Loop T) res,
  run fetchFn io fuel (Finite n) s = Some (s', res) ->
  (calls s < calls s')%nat -> pageCount s' <= n.
Proof.
  induction fuel as [|fuel IH]; intros s s' res Hrun Hlt; simpl in Hrun.
  - destruct (more s && _); [discriminate|]. injection Hrun as <- <-. lia.
  - destruct (more s) eqn:Em; simpl in Hrun; [|injection Hrun as <- <-; lia].
    destruct (Z.ltb_spec (pageCount s) n); [|injection Hrun as <- <-; lia].
    destruct (fetchFn (calls s) (cur s)) as [r|msg];
      [|injection Hrun as <- <-; lia].
    destruct (run_inv _ _ _ _ _ Hrun) as (_ & _ & _ & Hsame & _).
    destruct (decide (calls s' = calls (step io (Finite n) s r))) as [E|E].
    + rewrite (Hsame E). simpl. lia.
    + eapply IH; [exact Hrun|].
      destruct (run_inv _ _ _ _ _ Hrun) as (_ & Hc & _). simpl in *. lia.
Qed.


(** A loop state that does not ask for a further page ends the run,
    whatever fuel is left. *)
Lemma run_stops (fuel : nat) (mx : cap) (s : Loop T) :
  wants mx s = false -> run fetchFn io fuel mx s = Some (s, None).
Proof. unfold wants. intros H. destruct fuel; simpl; by rewrite H. Qed.

Lemma run_O (mx : cap) (s : Loop T) :
  wants mx s = true -> run fetchFn io O mx s = None.
Proof. unfold wants. intros H. simpl. by rewrite H. Qed.

Lemma run_S (fuel : nat) (mx : cap) (s : Loop T) :
  wants mx s = true ->
  run fetchFn io (S fuel) mx s
  = match fetchFn (calls s) (cur s) with
    | Throws msg => Some (s, Some msg)
    | Page r => run fetchFn io fuel mx (step io mx s r)
    end.
Proof. unfold wants. intros H. simpl. by rewrite H. Qed.


Lemma start_fresh p d :
  calls (@start T p d) = 0%nat /\ disk (@start T p d) = d /\
  more (@start T p d) = true.
Proof.
  unfold start, loadState.
  destruct (resume (options p)) as [f|]; [|done].
  destruct (truthy_str f); [|done].
  destruct (d !! f) as [[sv|]|]; try done.
  destruct (truthy_ostr (cursor sv)); done.
Qed.





(** C9.  When neither [all] nor [maxPages] is given, the page cap is 1,
    not unbounded: a run calls [fetchFn] at most [1 - n] times, where
    [n] is the page count it starts from (0, or the count of the
    checkpoint it resumes from), and it always finishes.  In particular
    a run that starts from a non-negative page count calls [fetchFn] at
    most once and loads at most one page. *)
Theorem C9_default_single_page (fuel : nat) (p : Paginator)
    (d : gmap string file) :
  all (options p) = None -> maxPages (options p) = None ->
  maxPages_of (options p) = Finite 1 /\
  (forall o s d', fetchAll fetchFn io fuel p d = Some (o, s, d') ->
     Z.of_nat (invocations o s) <= Z.max 0 (1 - pageCount (@start T p d))) /\
  ((Z.to_nat (1 - pageCount (@start T p d)) <= fuel)%nat ->
   is_Some (fetchAll fetchFn io fuel p d)) /\
  (0 <= pageCount (@start T p d) ->
   forall o s d', fetchAll fetchFn io fuel p d = Some (o, s, d') ->
     (invocations o s <= 1)%nat /\ (calls s <= 1)%nat).
Proof.
  intros Hall Hmax.
  assert (maxPages_of (options p) = Finite 1) as Hcap.
  { unfold maxPages_of, all_set. by rewrite Hmax, Hall. }
  destruct (start_fresh p d) as (Hc0 & _ & _).
  assert (forall o s d', fetchAll fetchFn io fuel p d = Some (o, s, d') ->
            Z.of_nat (invocations o s) <= Z.max 0 (1 - pageCount (@start T p d)))
    as Hbound.
  { intros o s d' Hrun. unfold fetchAll in Hrun. rewrite Hcap in Hrun.
    destruct (run _ _ _ _ _) as [[s0 res]|] eqn:Erun; [|discriminate].
    pose proof (run_within_cap _ _ _ _ _ Erun) as Hin.
    destruct (run_inv _ _ _ _ _ Erun) as (_ & Hc & Hp & _ & _ & Hres).
    rewrite Hc0 in Hc, Hp, Hin. rewrite Nat.sub_0_r in Hp.
    destruct res as [msg|]; injection Hrun as <- <- <-; simpl.
    - destruct Hres as [Hw _]. unfold wants in Hw.
      apply andb_true_iff in Hw as [_ Hw]. simpl in Hw.
      apply Z.ltb_lt in Hw. lia.
    - destruct (decide (calls s0 = 0%nat)) as [E|E]; [lia|].
      assert (pageCount s0 <= 1) by (apply Hin; lia). lia. }
  split; [exact Hcap|]. split; [exact Hbound|]. split.
  - intros Hfuel. unfold fetchAll. rewrite Hcap.
    destruct (run_finite_total 1 fuel (start p d) Hfuel) as [[s0 r] ->].
    destruct r; eauto.
  - intros Hstart o s d' Hrun. specialize (Hbound o s d' Hrun).
    assert (invocations o s <= 1)%nat as Hone by lia.
    split; [exact Hone|]. destruct o; simpl in Hone; lia.
Qed.

End PaginatorFacts.

(** ** Paginator: concrete runs *)

Section PaginatorRuns.

Import Pagination.

Example three_pages_scenario :
  match fetchAll three_pages calm 10 all_pages ∅ with
  | Some (Resolved res, s, d') =>
      f_items res = [0; 0; 1; 1; 2]%nat /\ pagesLoaded res = 3 /\
      complete res = true /\ calls s = 3%nat /\ slept s = [1000; 1000] /\
      d' = ∅
  | _ => False
  end.
Proof. vm_compute. repeat split; reflexivity. Qed.





Example error_checkpoint_content :
  match fetchAll fails_on_third calm 10 all_pages ∅ with
  | Some (Rejected msg, s, d') =>
      msg = "Rate limit exceeded (429)"%string /\
      d' !! state_json
      = Some (Checkpoint {| cursor := Some "next"%string; pagesFetched := 2;
                            totalItems := 2; lastUpdated := 3000;
                            query := None |})
  | _ => False
  end.
Proof. vm_compute. split; reflexivity. Qed.

(** C9 on a paginator built without options, against a server that
    always has more: one call, one page, and the run is not complete. *)
Lemma C9_default_single_page_witness :
  maxPages_of (options plain) = Finite 1 /\
  (exists res s d',
     fetchAll pages_forever calm 1 plain ∅ = Some (Resolved res, s, d') /\
     (calls s <= 1)%nat /\ complete res = false) /\
  is_Some (fetchAll pages_forever calm 1 plain ∅).
Proof.
  destruct (C9_default_single_page pages_forever calm 1 plain ∅)
    as (Hcap & _ & Htotal & Hone).
  { reflexivity. }
  { reflexivity. }
  split; [exact Hcap|]. split; [|apply Htotal; vm_compute; lia].
  destruct (fetchAll pages_forever calm 1 plain ∅)
    as [[[[res|msg] s] d']|] eqn:E;
    [|vm_compute in E; discriminate..].
  exists res, s, d'. split; [reflexivity|]. split.
  - refine (proj2 (Hone _ _ s d' eq_refl)). vm_compute. discriminate.
  - vm_compute in E. by injection E as <- _ _.
Defined.

End PaginatorRuns.


(** * Further properties *)

(** ** Proxy manager: what every reachable manager satisfies *)

Section ProxyInvariant.

Import Proxy.

Lemma registered_status_change (pm : ProxyManager) (st : gmap string ProxyStatus) :
  registered pm ->
  (forall k, is_Some (status pm !! k) -> is_Some (st !! k)) ->
  registered (set_status st pm).
Proof.
  intros [Hnd Hst] Hkeep. split; [exact Hnd|]. simpl.
  eapply Forall_impl; [exact Hst|]. intros p Hp. by apply Hkeep.
Qed.

Lemma markFailed_registered now u pm :
  registered pm -> registered (markFailed now u pm).
Proof.
  intros Hr. unfold markFailed. destruct (status pm !! u) as [s|] eqn:E; [|done].
  apply registered_status_change; [done|]. intros k Hk.
  destruct (decide (u = k)) as [->|Hne].
  - rewrite lookup_insert_eq. eauto.
  - by rewrite lookup_insert_ne.
Qed.

Lemma markSuccess_registered now u pm :
  registered pm -> registered (markSuccess now u pm).
Proof.
  intros Hr. unfold markSuccess. destruct (status pm !! u) as [s|] eqn:E; [|done].
  apply registered_status_change; [done|]. intros k Hk.
  destruct (decide (u = k)) as [->|Hne].
  - rewrite lookup_insert_eq. eauto.
  - by rewrite lookup_insert_ne.
Qed.

Lemma getAvailableProxies_registered now pm :
  registered pm -> registered (snd (getAvailableProxies now pm)).
Proof.
  intros Hr. rewrite getAvailableProxies_snd.
  apply registered_status_change; [done|]. intros k Hk.
  rewrite available_status. case_decide; [|done].
  destruct Hk as [s ->]. simpl. eauto.
Qed.

Lemma resetAllProxies_registered pm :
  registered pm -> registered (resetAllProxies pm).
Proof.
  intros Hr. apply registered_status_change; [done|]. intros k [s Hs].
  rewrite lookup_fmap, Hs. simpl. eauto.
Qed.

Lemma set_index_registered i pm : registered pm -> registered (set_index i pm).
Proof. intros [? ?]. by split. Qed.

Lemma getNext_registered now pm :
  registered pm -> registered (snd (getNext now pm)).
Proof.
  intros Hr. pose proof (getAvailableProxies_registered now pm Hr) as Hr1.
  unfold getNext. destruct (proxies pm); [done|].
  destruct (getAvailableProxies now pm) as [av pm1]. cbn [snd] in Hr1.
  destruct av.
  - cbn [snd]. by apply resetAllProxies_registered.
  - destruct (scan _ _ _ _) as [[q|] idx]; cbn [snd];
      by apply set_index_registered.
Qed.

Lemma getStats_snd now pm : snd (getStats now pm) = snd (getAvailableProxies now pm).
Proof. unfold getStats. by destruct (getAvailableProxies now pm). Qed.

Lemma apply_op_registered pm o : registered pm -> registered (apply_op pm o).
Proof.
  intros Hr. destruct o; simpl.
  - by apply addProxy_registered.
  - by apply markFailed_registered.
  - by apply markSuccess_registered.
  - by apply getNext_registered.
  - by apply getAvailableProxies_registered.
  - rewrite getStats_snd. by apply getAvailableProxies_registered.
  - by apply resetAllProxies_registered.
Qed.

Lemma empty_manager_registered : registered empty_manager.
Proof. split; [apply NoDup_nil_2 | apply Forall_nil_2]. Qed.

(** X1. Whatever sequence of registrations, outcome marks, selections,
    statistics calls and resets is applied to a new manager, no URL is
    ever listed twice and every listed proxy has a status record. *)
Theorem X1_manager_invariant (ops : list proxy_op) :
  registered (apply_ops ops empty_manager).
Proof.
  unfold apply_ops. generalize empty_manager_registered.
  generalize empty_manager as pm. induction ops as [|o ops IH]; intros pm Hr.
  - exact Hr.
  - simpl. apply IH. by apply apply_op_registered.
Qed.

End ProxyInvariant.

(** ** Proxy manager: selection never fails and never returns a disabled path *)

Section ProxySelection.

Import Proxy.

Local Open Scope nat_scope.

Lemma scan_elem n ps st : forall idx p idx',
  scan n ps st idx = (Some p, idx') -> p ∈ ps /\ idx' = (idx' mod length ps).
Proof.
  induction n as [|n IH]; intros idx p idx'; simpl; [discriminate|].
  destruct (ps !! (idx mod length ps)) as [q|] eqn:Eq; [|discriminate].
  destruct (st !! url q) as [s|] eqn:Es; [|apply IH].
  destruct (disabled s) eqn:Ed; simpl; [apply IH|].
  intros [= <- <-]. split; [by eapply list_elem_of_lookup_2|].
  by rewrite Nat.Div0.mod_mod.
Qed.

(** When the loop of [getNext] finds nothing after [n] attempts, the [n]
    paths from the rotation index on are all without an enabled record. *)
Lemma scan_none n ps st : forall idx idx',
  scan n ps st idx = (None, idx') -> ps <> [] ->
  forall j p, j < n -> ps !! ((idx + j) mod length ps) = Some p ->
              ~ healthy st p.
Proof.
  induction n as [|n IH]; intros idx idx' Hscan Hne j p Hj Hp; [lia|].
  simpl in Hscan.
  assert (0 < length ps) as Hlen by (destruct ps; [done | simpl; lia]).
  destruct (lookup_lt_is_Some_2 ps (idx mod length ps)) as [q Hq].
  { apply Nat.mod_upper_bound. lia. }
  rewrite Hq in Hscan.
  assert (scan n ps st ((idx + 1) mod length ps) = (None, idx') /\ ~ healthy st q)
    as [Hrest Hq'].
  { destruct (st !! url q) as [s|] eqn:Es.
    - destruct (disabled s) eqn:Ed; simpl in Hscan; [|discriminate].
      split; [done|]. intros (s' & Hs' & Hd'). congruence.
    - split; [done|]. intros (s' & Hs' & _). congruence. }
  destruct j as [|j].
  - rewrite Nat.add_0_r in Hp. congruence.
  - eapply (IH _ _ Hrest Hne j p); [lia|].
    rewrite Nat.Div0.add_mod_idemp_l.
    replace (idx + 1 + j) with (idx + S j) by lia. exact Hp.
Qed.

Lemma ring_reaches (idx i len : nat) :
  i < len -> exists j, j < len /\ (idx + j) mod len = i.
Proof.
  intros Hi. exists ((i + len - idx mod len) mod len). split.
  - apply Nat.mod_upper_bound. lia.
  - pose proof (Nat.mod_upper_bound idx len ltac:(lia)) as Hr.
    rewrite Nat.Div0.add_mod_idemp_r.
    rewrite (Nat.div_mod_eq idx len) at 1.
    replace (len * (idx / len) + idx mod len + (i + len - idx mod len))
      with (i + (idx / len + 1) * len) by lia.
    rewrite Nat.Div0.mod_add. apply Nat.mod_small. lia.
Qed.

Lemma scan_full_none ps st idx idx' :
  scan (length ps) ps st idx = (None, idx') -> ps <> [] ->
  forall p, p ∈ ps -> ~ healthy st p.
Proof.
  intros Hscan Hne p Hin.
  apply list_elem_of_lookup_1 in Hin as [i Hi].
  destruct (ring_reaches idx i (length ps)) as (j & Hj & Hij).
  { by eapply lookup_lt_Some. }
  eapply (scan_none _ _ _ _ _ Hscan Hne j p Hj). by rewrite Hij.
Qed.

(** A path that the availability check lists has an enabled record
    afterwards, in a registered manager. *)
Lemma available_then_healthy now pm a :
  registered pm ->
  a ∈ fst (getAvailableProxies now pm) ->
  healthy (status (snd (getAvailableProxies now pm))) a.
Proof.
  intros [_ Hst] Hin. rewrite getAvailableProxies_fst in Hin.
  apply elem_of_available in Hin as [Hps Hk].
  rewrite getAvailableProxies_snd. cbn [status set_status].
  unfold healthy. rewrite available_status.
  rewrite decide_True by (by apply list_elem_of_fmap_2).
  destruct (proj1 (Forall_forall _ _) Hst a Hps) as [s Hs].
  unfold keepable in Hk. rewrite Hs in *. simpl.
  eexists. split; [reflexivity|]. unfold heal.
  destruct (expired now (failureCooldownMs pm) s) eqn:Ee; [reflexivity|].
  rewrite orb_false_r in Hk. by apply negb_true_iff in Hk.
Qed.

Lemma getAvailableProxies_proxies now pm :
  proxies (snd (getAvailableProxies now pm)) = proxies pm.
Proof. by rewrite getAvailableProxies_snd. Qed.

Lemma getNext_proxies now pm : proxies (snd (getNext now pm)) = proxies pm.
Proof.
  pose proof (getAvailableProxies_proxies now pm) as Hp.
  unfold getNext. destruct (proxies pm) eqn:E; [simpl; exact E|].
  destruct (getAvailableProxies now pm) as [av pm1]. cbn [snd] in Hp.
  destruct av; [exact Hp|].
  destruct (scan _ _ _ _) as [[q|] idx]; exact Hp.
Qed.

Lemma getNext_some_enabled (now : Z) (pm : ProxyManager) :
  registered pm -> proxies pm <> [] ->
  exists p, fst (getNext now pm) = Some p /\ p ∈ proxies pm /\
            healthy (status (snd (getNext now pm))) p.
Proof.
  intros Hr Hne.
  pose proof (getAvailableProxies_proxies now pm) as Hp.
  pose proof (available_then_healthy now pm) as Hheal.
  pose proof (getAvailableProxies_registered now pm Hr) as Hr1.
  assert (forall a, a ∈ fst (getAvailableProxies now pm) -> a ∈ proxies pm)
    as Hsub.
  { intros a Ha. rewrite getAvailableProxies_fst in Ha.
    by apply elem_of_available in Ha as [? _]. }
  unfold getNext.
  destruct (getAvailableProxies now pm) as [av pm1]. cbn [fst snd] in *.
  destruct (proxies pm) as [|p0 ps0] eqn:E; [done|].
  destruct av as [|a av'].
  - cbn [fst snd]. rewrite Hp. exists p0. split; [reflexivity|].
    split; [apply list_elem_of_here|].
    destruct Hr1 as [_ Hst]. rewrite Hp in Hst.
    apply Forall_cons in Hst as [[s Hs] _].
    unfold healthy, resetAllProxies. cbn [status set_status].
    rewrite lookup_fmap, Hs. simpl. eexists. split; reflexivity.
  - destruct (scan _ _ _ _) as [[q|] idx] eqn:Escan; cbn [fst snd].
    + exists q. split; [reflexivity|].
      destruct (scan_elem _ _ _ _ _ _ Escan) as [Hq _].
      split; [by rewrite <- Hp|]. by apply scan_found in Escan.
    + exfalso. eapply (scan_full_none _ _ _ _ Escan).
      * by rewrite Hp.
      * rewrite Hp. apply (Hsub a). apply list_elem_of_here.
      * apply (Hheal a Hr). apply list_elem_of_here.
Qed.

(** X2. In a registered manager with at least one proxy, [getNext] always
    returns a proxy (never [null]); the proxy is one of the registered
    ones, and in the manager that results its record is not disabled. *)
Theorem X2_getNext_returns_enabled (now : Z) (pm : ProxyManager) :
  registered pm -> proxies pm <> [] ->
  exists p, fst (getNext now pm) = Some p /\ p ∈ proxies pm /\
            healthy (status (snd (getNext now pm))) p.
Proof. apply getNext_some_enabled. Qed.

Lemma lone_proxy_failed_registered : registered lone_proxy_failed.
Proof.
  unfold lone_proxy_failed, lone_proxy.
  repeat apply markFailed_registered.
  apply addProxy_registered, empty_manager_registered.
Qed.

(** X2 on a manager whose only proxy is disabled: the proxy is handed
    out all the same, re-enabled. *)
Lemma X2_getNext_returns_enabled_witness :
  exists p, fst (getNext 3001 lone_proxy_failed) = Some p /\
            p ∈ proxies lone_proxy_failed /\
            healthy (status (snd (getNext 3001 lone_proxy_failed))) p.
Proof.
  apply (X2_getNext_returns_enabled 3001 lone_proxy_failed).
  - apply lone_proxy_failed_registered.
  - vm_compute. discriminate.
Defined.

(** With every registered path enabled, [getCurrent] shows the path the
    next [getNext] hands out. *)
Lemma getCurrent_healthy (pm : ProxyManager) :
  proxies pm <> [] ->
  getCurrent pm = proxies pm !! (currentIndex pm mod length (proxies pm)).
Proof. unfold getCurrent. by destruct (proxies pm). Qed.

(** X5. When no registered path is disabled, [getCurrent] returns,
    without changing anything, exactly the path that the next [getNext]
    returns; after that [getNext], it returns the path that follows on
    the ring. *)
Theorem X5_getCurrent_previews_getNext (now : Z) (pm : ProxyManager) :
  all_healthy pm -> proxies pm <> [] ->
  getCurrent pm = fst (getNext now pm) /\
  getCurrent (snd (getNext now pm))
  = proxies pm !! ((currentIndex pm + 1) mod length (proxies pm)).
Proof.
  intros Hall Hne. rewrite (getNext_healthy now pm Hne Hall). cbn [fst snd].
  split; [by apply getCurrent_healthy|].
  rewrite getCurrent_healthy by done. simpl. by rewrite Nat.Div0.mod_mod.
Qed.

(** X5 on the three sample proxies. *)
Lemma X5_getCurrent_previews_getNext_witness :
  getCurrent three_proxies = fst (getNext 10 three_proxies) /\
  getCurrent (snd (getNext 10 three_proxies))
  = proxies three_proxies
      !! ((currentIndex three_proxies + 1) mod length (proxies three_proxies)).
Proof.
  apply (X5_getCurrent_previews_getNext 10 three_proxies).
  - apply three_proxies_healthy.
  - vm_compute. discriminate.
Defined.

End ProxySelection.

(** ** Proxy manager: counting failures and lifting the ban *)

Section ProxyHealth.

Import Proxy.

(** [markFailed] repeated on a URL with a record: the count goes up by
    one per call, the last call sets the failure time, and the flag is
    raised as soon as the count has reached the threshold. *)
Lemma markFailed_many_status (nows : list Z) (u : string) :
  forall (pm : ProxyManager) (s : ProxyStatus),
  status pm !! u = Some s ->
  status (markFailed_many nows u pm) !! u
  = Some {| st_url := st_url s;
            failures := failures s + Z.of_nat (length nows);
            lastFailure := from_option Some (lastFailure s) (last nows);
            lastSuccess := lastSuccess s;
            disabled :=
              disabled s ||
              ((0 <? length nows)%nat &&
               (maxFailures pm <=? failures s + Z.of_nat (length nows))) |}
  /\ maxFailures (markFailed_many nows u pm) = maxFailures pm
  /\ proxies (markFailed_many nows u pm) = proxies pm.
Proof.
  induction nows as [|now rest IH]; intros pm s Hs.
  - simpl. rewrite Hs, Z.add_0_r, orb_false_r. by destruct s.
  - cbn [markFailed_many].
    set (s1 := {| st_url := st_url s; failures := failures s + 1;
                  lastFailure := Some now; lastSuccess := lastSuccess s;
                  disabled := if maxFailures pm <=? failures s + 1
                              then true else disabled s |}).
    assert (status (markFailed now u pm) !! u = Some s1) as Hs1.
    { unfold markFailed. rewrite Hs. cbn [status set_status].
      by rewrite lookup_insert_eq. }
    assert (maxFailures (markFailed now u pm) = maxFailures pm) as Hmf.
    { unfold markFailed. by rewrite Hs. }
    assert (proxies (markFailed now u pm) = proxies pm) as Hps.
    { unfold markFailed. by rewrite Hs. }
    destruct (IH _ _ Hs1) as (-> & -> & ->). rewrite Hmf, Hps.
    split; [|done]. f_equal. unfold s1. cbn [st_url failures lastFailure
      lastSuccess disabled length].
    f_equal.
    + lia.
    + rewrite last_cons. by destruct (last rest).
    + replace (failures s + 1 + Z.of_nat (length rest))
        with (failures s + Z.of_nat (S (length rest))) by lia.
      destruct (disabled s);
        [by destruct (maxFailures pm <=? failures s + 1)|].
      cbn [orb].
      destruct (Z.leb_spec (maxFailures pm) (failures s + 1)) as [H1|H1],
               (Z.leb_spec (maxFailures pm)
                  (failures s + Z.of_nat (S (length rest)))) as [H2|H2],
               (Nat.ltb_spec 0 (length rest)) as [H3|H3];
        cbn [orb andb]; try reflexivity; try lia.
Qed.

(** X3. Failures are counted from the last success: after a
    [markSuccess], [n] failures in a row leave the count at [n], and the
    proxy is disabled exactly when [n] is at least 1 and has reached the
    threshold. *)
Theorem X3_consecutive_failures (t0 : Z) (nows : list Z) (u : string)
    (pm : ProxyManager) :
  is_Some (status pm !! u) ->
  exists s, status (markFailed_many nows u (markSuccess t0 u pm)) !! u = Some s /\
            failures s = Z.of_nat (length nows) /\
            lastSuccess s = Some t0 /\
            (disabled s = true <->
             (1 <= length nows)%nat /\ maxFailures pm <= Z.of_nat (length nows)).
Proof.
  intros [s0 Hs0].
  set (s1 := {| st_url := st_url s0; failures := 0;
                lastFailure := lastFailure s0; lastSuccess := Some t0;
                disabled := false |}).
  assert (status (markSuccess t0 u pm) !! u = Some s1) as Hs1.
  { unfold markSuccess. rewrite Hs0. cbn [status set_status].
    by rewrite lookup_insert_eq. }
  assert (maxFailures (markSuccess t0 u pm) = maxFailures pm) as Hmf.
  { unfold markSuccess. by rewrite Hs0. }
  destruct (markFailed_many_status nows u _ _ Hs1) as (Hs & _ & _).
  eexists. split; [exact Hs|]. cbn [failures lastSuccess disabled s1].
  rewrite Hmf. split; [lia|]. split; [reflexivity|].
  rewrite orb_false_l, andb_true_iff, Nat.ltb_lt, Z.leb_le. lia.
Qed.

(** X3 with the default threshold of 3: two failures after a success
    leave the proxy enabled, the third one disables it. *)
Lemma X3_consecutive_failures_witness :
  (exists s, status (markFailed_many [10; 20] (url proxy_a)
                       (markSuccess 5 (url proxy_a) lone_proxy_failed))
               !! url proxy_a = Some s /\
             failures s = 2 /\ disabled s = false) /\
  (exists s, status (markFailed_many [10; 20; 30] (url proxy_a)
                       (markSuccess 5 (url proxy_a) lone_proxy_failed))
               !! url proxy_a = Some s /\
             failures s = 3 /\ disabled s = true).
Proof.
  split.
  - destruct (X3_consecutive_failures 5 [10; 20] (url proxy_a) lone_proxy_failed)
      as (s & Hs & Hf & _ & Hd).
    { vm_compute. eauto. }
    exists s. split; [exact Hs|]. split; [exact Hf|].
    destruct (disabled s); [|reflexivity].
    destruct (proj1 Hd eq_refl) as [_ H]. vm_compute in H. by destruct H.
  - destruct (X3_consecutive_failures 5 [10; 20; 30] (url proxy_a)
                lone_proxy_failed) as (s & Hs & Hf & _ & Hd).
    { vm_compute. eauto. }
    exists s. split; [exact Hs|]. split; [exact Hf|].
    apply Hd. split; [simpl; lia|]. vm_compute. discriminate.
Defined.

Lemma available_from_all now cd ps : forall st,
  (forall p, p ∈ ps -> keepable now cd st p = true) ->
  fst (available_from now cd ps st) = ps.
Proof.
  induction ps as [|q ps IH]; intros st Hk; [reflexivity|].
  cbn [available_from]. rewrite available_one_eq.
  specialize (IH (alter (heal now cd) (url q) st)).
  destruct (available_from now cd ps _) as [rest st2]. cbn [fst] in *.
  rewrite (Hk q) by apply list_elem_of_here. f_equal. apply IH.
  intros p Hp. rewrite keepable_heal. apply Hk. by apply list_elem_of_further.
Qed.

(** X4. [resetAllProxies] lifts every ban at once: whatever the manager
    and the time, the availability check that follows lists every
    registered proxy, [getStats] counts none as disabled, and every
    record has a clean failure count. *)
Theorem X4_reset_lifts_every_ban (now : Z) (pm : ProxyManager) :
  fst (getAvailableProxies now (resetAllProxies pm)) = proxies pm /\
  stat_disabled (fst (getStats now (resetAllProxies pm))) = 0 /\
  (forall k s, status (resetAllProxies pm) !! k = Some s ->
               disabled s = false /\ failures s = 0).
Proof.
  assert (fst (getAvailableProxies now (resetAllProxies pm)) = proxies pm) as Hav.
  { rewrite getAvailableProxies_fst. cbn [proxies status resetAllProxies set_status
      failureCooldownMs]. apply available_from_all.
    intros p _. unfold keepable. rewrite lookup_fmap.
    by destruct (status pm !! url p). }
  split; [exact Hav|]. split.
  - unfold getStats.
    pose proof (getAvailableProxies_snd now (resetAllProxies pm)) as Hsnd.
    destruct (getAvailableProxies now (resetAllProxies pm)) as [av pm1].
    cbn [fst snd] in *. subst av pm1. cbn [stat_disabled proxies set_status
      resetAllProxies]. lia.
  - intros k s. unfold resetAllProxies. cbn [status set_status].
    rewrite lookup_fmap. destruct (status pm !! k); [|discriminate].
    intros [= <-]. split; reflexivity.
Qed.

End ProxyHealth.

(** ** Proxy manager: loading a proxy file *)

Section ProxyFile.

Import Proxy.

Variable trim : string -> string.
Variable parse : string -> option ProxyConfig.

Lemma addProxy_urls (c : ProxyConfig) (pm : ProxyManager) (u : string) :
  u ∈ url <$> proxies (addProxy c pm) <-> u ∈ url <$> proxies pm \/ u = url c.
Proof.
  unfold addProxy. destruct (existsb _ _) eqn:E.
  - split; [auto|]. intros [?| ->]; [done|].
    apply existsb_exists in E as (q & Hq & Heq).
    apply String.eqb_eq in Heq. rewrite <- Heq.
    apply list_elem_of_fmap_2. by apply list_elem_of_In.
  - cbn [proxies]. rewrite fmap_app, elem_of_app. simpl.
    by rewrite list_elem_of_singleton.
Qed.

Lemma addProxy_prefix (c : ProxyConfig) (pm : ProxyManager) :
  proxies pm `prefix_of` proxies (addProxy c pm).
Proof.
  unfold addProxy. destruct (existsb _ _); [done|]. by apply prefix_app_r.
Qed.

Lemma load_line_eq (pm : ProxyManager) (w : list string) (line : string) :
  load_line trim parse (pm, w) line
  = if kept_line trim line then
      match parse (trim line) with
      | Some c => (addProxy c pm, w)
      | None => (pm, w ++ [("Skipping invalid proxy: " ++ trim line)%string])
      end
    else (pm, w).
Proof.
  unfold load_line, kept_line, addProxyUrl.
  destruct (truthy_str (trim line)), (starts_with_hash (trim line)); simpl;
    try reflexivity.
  by destruct (parse (trim line)).
Qed.

Lemma load_lines_spec (lines : list string) : forall pm w,
  let r := fold_left (load_line trim parse) lines (pm, w) in
  (registered pm -> registered (fst r)) /\
  proxies pm `prefix_of` proxies (fst r) /\
  (forall u, u ∈ url <$> proxies (fst r) <->
             u ∈ url <$> proxies pm \/
             exists line c, line ∈ lines /\ kept_line trim line = true /\
                            parse (trim line) = Some c /\ url c = u) /\
  snd r = w ++ ((fun line => ("Skipping invalid proxy: " ++ trim line)%string)
                  <$> List.filter (invalid_line trim parse) lines).
Proof.
  induction lines as [|line lines IH]; intros pm w; cbn zeta.
  - simpl. split; [done|]. split; [done|]. split; [|by rewrite app_nil_r].
    intros u. split; [auto|]. intros [?|(l & c & Hl & _)]; [done|].
    by apply elem_of_nil in Hl.
  - cbn [fold_left]. rewrite load_line_eq.
    unfold invalid_line. cbn [List.filter].
    destruct (kept_line trim line) eqn:Ek.
    + destruct (parse (trim line)) as [c|] eqn:Ep.
      * destruct (IH (addProxy c pm) w) as (Hr & Hpre & Hu & Hw). cbn zeta in *.
        split; [intros ?; by apply Hr, addProxy_registered|].
        split; [etrans; [apply addProxy_prefix|exact Hpre]|].
        split; [|exact Hw].
        intros u. rewrite Hu, addProxy_urls. split.
        -- intros [[?| ->]|(l & c' & Hl & ? & ? & ?)]; [by left| |].
           ++ right. exists line, c. split; [apply list_elem_of_here|done].
           ++ right. exists l, c'. split; [by apply list_elem_of_further|done].
        -- intros [?|(l & c' & Hl & Hk & Hp & Hc)]; [by left; left|].
           apply elem_of_cons in Hl as [->|Hl].
           ++ left. right. congruence.
           ++ right. by exists l, c'.
      * destruct (IH pm (w ++ [("Skipping invalid proxy: " ++ trim line)%string]))
          as (Hr & Hpre & Hu & Hw). cbn zeta in *.
        split; [exact Hr|]. split; [exact Hpre|]. split.
        -- intros u. rewrite Hu. split.
           ++ intros [?|(l & c' & Hl & ?)]; [by left|].
              right. exists l, c'. split; [by apply list_elem_of_further|done].
           ++ intros [?|(l & c' & Hl & Hk & Hp & Hc)]; [by left|].
              apply elem_of_cons in Hl as [->|Hl]; [congruence|].
              right. by exists l, c'.
        -- rewrite Hw. simpl. by rewrite <- app_assoc.
    + destruct (IH pm w) as (Hr & Hpre & Hu & Hw). cbn zeta in *.
      split; [exact Hr|]. split; [exact Hpre|]. split; [|exact Hw].
      intros u. rewrite Hu. split.
      * intros [?|(l & c' & Hl & ?)]; [by left|].
        right. exists l, c'. split; [by apply list_elem_of_further|done].
      * intros [?|(l & c' & Hl & Hk & Hp & Hc)]; [by left|].
        apply elem_of_cons in Hl as [->|Hl]; [congruence|].
        right. by exists l, c'.
Qed.

(** X6. Loading a proxy file that exists never fails, whatever its
    lines.  The proxies registered before stay, in place; a URL is
    registered afterwards exactly when it was registered before or is
    the URL of a line that is neither blank nor a comment and that
    parses; the manager stays free of duplicates; and one warning is
    printed per kept line that does not parse, in file order.  A file
    that does not exist is the only failure. *)
Theorem X6_loadFromFile (resolved text : string) (pm : ProxyManager) :
  (exists pm' warnings,
     loadFromFile trim parse resolved (Some text) pm = Resolved (pm', warnings) /\
     (registered pm -> registered pm') /\
     proxies pm `prefix_of` proxies pm' /\
     (forall u, u ∈ url <$> proxies pm' <->
                u ∈ url <$> proxies pm \/
                exists line c, line ∈ split_on "010"%char text /\
                               kept_line trim line = true /\
                               parse (trim line) = Some c /\ url c = u) /\
     warnings = (fun line => ("Skipping invalid proxy: " ++ trim line)%string)
                  <$> List.filter (invalid_line trim parse)
                        (split_on "010"%char text)) /\
  loadFromFile trim parse resolved None pm
  = Rejected ("Proxy file not found: " ++ resolved).
Proof.
  split; [|reflexivity]. unfold loadFromFile.
  destruct (load_lines_spec (split_on "010"%char text) pm [])
    as (Hr & Hpre & Hu & Hw). cbn zeta in *.
  destruct (fold_left _ _ _) as [pm' warnings]. cbn [fst snd] in *.
  exists pm', warnings. by rewrite Hw.
Qed.

End ProxyFile.

Section ProxyFileSample.

Import Proxy.

Example sample_proxy_file_lines :
  split_on "010"%char sample_proxy_file
  = [ "# office proxies"; "http://10.0.0.1:8080"; "http://10.0.0.2:8080";
      EmptyString; "not a proxy"; "http://10.0.0.1:8080" ]%string.
Proof. vm_compute. reflexivity. Qed.

Example sample_proxy_file_loaded :
  loadFromFile sample_trim sample_parse "/etc/proxies.txt"
    (Some sample_proxy_file) empty_manager
  = Resolved (two_proxies, ["Skipping invalid proxy: not a proxy"%string]).
Proof. vm_compute. reflexivity. Qed.

(** X6 on the sample file: two proxies, one warning, no duplicate. *)
Lemma X6_loadFromFile_witness :
  exists pm' warnings,
    loadFromFile sample_trim sample_parse "/etc/proxies.txt"
      (Some sample_proxy_file) empty_manager = Resolved (pm', warnings) /\
    registered pm' /\ length warnings = 1%nat.
Proof.
  destruct (proj1 (X6_loadFromFile sample_trim sample_parse "/etc/proxies.txt"
              sample_proxy_file empty_manager))
    as (pm' & warnings & Hload & Hr & _ & _ & Hw).
  exists pm', warnings. split; [exact Hload|]. split.
  - apply Hr, empty_manager_registered.
  - rewrite Hw. vm_compute. reflexivity.
Defined.

End ProxyFileSample.

(** ** Orchestrator: one proxy, unknown operations, rate-limit feedback *)

Section Orchestrator.

Import Proxy Client.

Lemma getCurrent_single (pm : ProxyManager) (p : ProxyConfig) :
  proxies pm = [p] -> getCurrent pm = Some p.
Proof.
  intros E. unfold getCurrent. rewrite E. cbn [length].
  by rewrite Nat.mod_1_r.
Qed.

(** With a single registered proxy, dispatch and peek agree. *)
Lemma dispatch_single (now : Z) (pm : ProxyManager) (p : ProxyConfig) :
  registered pm -> proxies pm = [p] ->
  let '(dispatcher, pmo1) := getDispatcher now (Some pm) in
  dispatcher = Some p /\ pmo1 ≫= getCurrent = Some p.
Proof.
  intros Hr E. unfold getDispatcher, hasProxies. rewrite E. simpl length.
  cbn [Nat.ltb Nat.leb].
  destruct (getNext_some_enabled now pm Hr) as (q & Hq & Hin & _);
    [by rewrite E|].
  pose proof (getNext_proxies now pm) as Hp.
  destruct (getNext now pm) as [r pm1]. cbn [fst snd] in *. subst r.
  rewrite E in Hin. apply list_elem_of_singleton in Hin as ->.
  split; [reflexivity|]. simpl. apply getCurrent_single. by rewrite Hp.
Qed.

(** X7. With exactly one registered proxy, the outcome of a call is
    attributed to the proxy that carried it: the request is dispatched
    through that proxy, a transport failure marks it failed, and a
    transport success marks it successful. *)
Theorem X7_single_proxy_attribution {D : Type} (ck : Clock) (op : string)
    (tr : transport D) (c : BaseClient) (pm : ProxyManager)
    (p : ProxyConfig) (id : jsvalue) :
  QueryIds.get (t_resolve ck) (queryIds c) op = Resolved id ->
  proxyManager c = Some pm ->
  registered pm -> proxies pm = [p] ->
  let e := snd (fst (fst (graphql ck op tr c))) in
  dispatched e = Some p /\
  match tr with
  | Failed _ => marked_failed e = Some (url p) /\ marked_success e = None
  | Responded _ => marked_success e = Some (url p)
  end.
Proof.
  intros Hid Hpm Hr E.
  pose proof (dispatch_single (t_dispatch ck) pm p Hr E) as Hd.
  unfold graphql. rewrite Hid, Hpm.
  destruct (RateLimit.waitIfNeeded _ _ _ _) as [[w slept] rl1].
  destruct (getDispatcher (t_dispatch ck) (Some pm)) as [dispatcher pmo1].
  destruct Hd as [-> Hcur]. rewrite Hcur.
  destruct tr as [r|msg]; simpl.
  - destruct (errors r); simpl; auto.
  - auto.
Qed.

(** X7 on a client whose only proxy is disabled: the failed call is
    charged to that proxy. *)
Lemma X7_single_proxy_attribution_witness :
  let e := snd (fst (fst (graphql noon "UserTweets" (@Failed nat "ETIMEDOUT")
                            lone_proxy_client))) in
  dispatched e = Some proxy_a /\
  marked_failed e = Some (url proxy_a) /\ marked_success e = None.
Proof.
  apply (X7_single_proxy_attribution noon "UserTweets" (@Failed nat "ETIMEDOUT")
           lone_proxy_client lone_proxy_failed proxy_a
           (Str "q6xj5bs0hapm9309hexA_g")).
  - vm_compute. reflexivity.
  - reflexivity.
  - apply lone_proxy_failed_registered.
  - reflexivity.
Defined.

(** X8. A call for an operation that neither a fresh cache nor the
    fallback table knows, and whose name is not that of a member of
    [Object.prototype], is rejected before anything else happens: no
    wait, no proxy is taken from the rotation or marked, and the client
    is left exactly as it was, whatever the transport would have
    answered. *)
Theorem X8_unknown_operation_fails_first {D : Type} (ck : Clock) (op : string)
    (tr : transport D) (c : BaseClient) :
  ~ (exists id, cache_hit (t_resolve ck) (queryIds c) op id) ->
  QueryIds.FALLBACK_QUERY_IDS !! op = None ->
  op ∉ Object_prototype ->
  graphql ck op tr c
  = (Rejected ("Unknown GraphQL operation: " ++ op),
     {| dispatched := None; marked_success := None; marked_failed := None |},
     RateLimit.NoSleep, c).
Proof.
  intros Hmiss Hfb Hname. apply cachedId_None in Hmiss; [|done].
  unfold graphql, QueryIds.get. by rewrite Hmiss, fallback_entry, Hfb.
Qed.

(** X8 on the client with two proxies: the rotation does not move. *)
Lemma X8_unknown_operation_fails_first_witness :
  graphql noon "NoSuchOperation" (Responded ok_response) two_proxy_client
  = (Rejected "Unknown GraphQL operation: NoSuchOperation",
     {| dispatched := None; marked_success := None; marked_failed := None |},
     RateLimit.NoSleep, two_proxy_client).
Proof.
  apply (X8_unknown_operation_fails_first noon "NoSuchOperation"
           (Responded ok_response) two_proxy_client).
  - intros (id & cc & Hc & _). discriminate.
  - vm_compute. reflexivity.
  - apply (bool_decide_eq_false_1 _). vm_compute. reflexivity.
Defined.





End Orchestrator.

(** ** Rate limiter: [isLimited] against [waitIfNeeded] *)

Section LimiterQueries.

Import RateLimit.

(** X10. [isLimited] and [waitIfNeeded] agree in this direction: an
    endpoint that [isLimited] reports as limited makes [waitIfNeeded]
    sleep [reset - now + 1s], leaving the recorded state in place; as
    long as that delay is within the range of the timer, the sleep
    lasts until at least one second after the reset time.  And when
    [waitIfNeeded] does not sleep, [isLimited] is false at that time. *)
Theorem X10_limited_endpoints_wait (now now2 : Z) (endpoint : string)
    (rl : RateLimiter) :
  (isLimited now endpoint rl = true ->
   exists l,
     limits rl !! endpoint = Some l /\
     let ms := reset (info l) * 1000 - now2 + 1000 in
     waitIfNeeded now now2 endpoint rl = (Resolved tt, Sleep ms, rl) /\
     (ms <= TIMEOUT_MAX ->
      reset (info l) * 1000 + 1000 <= earliest_wakeup now2 (Sleep ms))) /\
  (snd (fst (waitIfNeeded now now2 endpoint rl)) = NoSleep ->
   isLimited now endpoint rl = false).
Proof.
  unfold isLimited, waitIfNeeded.
  destruct (limits rl !! endpoint) as [l|]; [|split; [discriminate|done]].
  split.
  - intros H. apply andb_true_iff in H as [H1 H2].
    apply Z.leb_le in H1. apply Z.ltb_lt in H2.
    exists l. split; [reflexivity|]. cbv zeta.
    destruct (Z.ltb_spec 5 (remaining (info l))); [lia|].
    destruct (Z.ltb_spec (reset (info l) * 1000) now); [lia|].
    destruct (Z.leb_spec (remaining (info l)) 0); [|lia].
    split; [reflexivity|]. intros Hmax. unfold earliest_wakeup, timer_delay.
    destruct (Z.leb_spec 1 (reset (info l) * 1000 - now2 + 1000)),
             (Z.leb_spec (reset (info l) * 1000 - now2 + 1000) TIMEOUT_MAX);
      cbn [andb]; lia.
  - destruct (Z.ltb_spec 5 (remaining (info l))).
    { intros _. apply andb_false_iff. left. apply Z.leb_gt. lia. }
    destruct (Z.ltb_spec (reset (info l) * 1000) now).
    { intros _. apply andb_false_iff. right. apply Z.ltb_ge. lia. }
    destruct (Z.leb_spec (remaining (info l)) 0); [discriminate|].
    destruct (Z.leb_spec (remaining (info l)) 5); [discriminate|lia].
Qed.

(** X10 on an endpoint without quota that resets five seconds later. *)
Lemma X10_limited_endpoints_wait_witness :
  let rl := {| limits := {[ "UserTweets"%string :=
         {| info := {| limit := 50; remaining := 0; reset := 1005 |};
            lastUpdated := 999000 |} ]} |} in
  exists l,
    limits rl !! "UserTweets"%string = Some l /\
    let ms := reset (info l) * 1000 - 1000002 + 1000 in
    waitIfNeeded 1000000 1000002 "UserTweets" rl = (Resolved tt, Sleep ms, rl) /\
    (ms <= TIMEOUT_MAX ->
     reset (info l) * 1000 + 1000 <= earliest_wakeup 1000002 (Sleep ms)).
Proof.
  intros rl.
  apply (proj1 (X10_limited_endpoints_wait 1000000 1000002 "UserTweets" rl)).
  vm_compute. reflexivity.
Defined.

End LimiterQueries.

(** ** Session pool: selection *)

Section PoolSelection.

Import Pool.

Local Open Scope nat_scope.

Lemma available_from_all_free now l : forall i0,
  Forall (fun s => not_in_cooldown now s = true) l ->
  available_from now i0 l
  = imap (fun k s => (i0 + k, s)) l.
Proof.
  induction l as [|x l IH]; intros i0 Hall; [reflexivity|].
  apply Forall_cons in Hall as [Hx Hl]. simpl. rewrite Hx.
  rewrite Nat.add_0_r. f_equal. rewrite (IH (S i0) Hl).
  apply imap_ext. intros k s _. simpl. f_equal. lia.
Qed.

Lemma Forall_free_touch now now' (i : nat) (l : list PooledSession) :
  Forall (fun s => not_in_cooldown now s = true) l ->
  Forall (fun s => not_in_cooldown now s = true) (alter (touch now') i l).
Proof.
  intros H. apply Forall_forall. intros s Hs.
  apply list_elem_of_lookup_1 in Hs as [j Hj].
  destruct (decide (i = j)) as [->|Hne].
  - rewrite list_lookup_alter_eq in Hj.
    destruct (l !! j) as [s0|] eqn:E; [|discriminate]. injection Hj as <-.
    apply (proj1 (Forall_forall _ _) H s0). by eapply list_elem_of_lookup_2.
  - rewrite list_lookup_alter_ne in Hj by done.
    apply (proj1 (Forall_forall _ _) H s). by eapply list_elem_of_lookup_2.
Qed.

Lemma sessions_alter_touch now (i : nat) (l : list PooledSession) :
  session <$> alter (touch now) i l = session <$> l.
Proof.
  rewrite (list_fmap_alter _ (touch now) id).
  - by apply list_alter_id.
  - apply Forall_forall. by intros [].
Qed.

(** With nobody in cooldown, [getNext] hands out the entry under the
    rotation counter and moves the counter on by one. *)
Lemma getNext_all_free now pool :
  Forall (fun s => not_in_cooldown now s = true) (sessions pool) ->
  fst (getNext now pool)
  = (session <$> sessions pool)
      !! (currentIndex pool mod length (sessions pool)) /\
  session <$> sessions (snd (getNext now pool)) = session <$> sessions pool /\
  (sessions pool <> [] ->
   currentIndex (snd (getNext now pool)) = S (currentIndex pool)) /\
  (forall t, Forall (fun s => not_in_cooldown t s = true) (sessions pool) ->
             Forall (fun s => not_in_cooldown t s = true)
               (sessions (snd (getNext now pool)))).
Proof.
  intros Hall. unfold getNext, availableSessions.
  rewrite (available_from_all_free now _ 0 Hall).
  destruct (sessions pool) as [|s0 l0] eqn:E.
  { cbn [fst snd]. rewrite E. split_and!; try done. }
  rewrite <- E in *.
  assert (0 < length (sessions pool)) as Hlen by (rewrite E; simpl; lia).
  destruct (lookup_lt_is_Some_2 (sessions pool)
              (currentIndex pool mod length (sessions pool))) as [s Hs].
  { apply Nat.mod_upper_bound. lia. }
  assert (imap (fun k s1 => (0 + k, s1)) (sessions pool)
            !! (currentIndex pool mod length (sessions pool))
          = Some (currentIndex pool mod length (sessions pool), s)) as Hl.
  { by rewrite list_lookup_imap, Hs. }
  destruct (imap _ (sessions pool)) as [|a av] eqn:Eav.
  { rewrite lookup_nil in Hl. discriminate. }
  rewrite <- Eav in *. rewrite length_imap, Hl. cbn [fst snd sessions currentIndex].
  rewrite list_lookup_fmap, Hs. split; [reflexivity|].
  split; [apply sessions_alter_touch|]. split; [done|].
  intros t Ht. by apply Forall_free_touch.
Qed.

Lemma getNext_many_all_free nows : forall pool,
  Forall (fun now => Forall (fun s => not_in_cooldown now s = true)
                       (sessions pool)) nows ->
  fst (getNext_many nows pool)
  = (fun j => (session <$> sessions pool)
                !! ((currentIndex pool + j) mod length (sessions pool)))
      <$> seq 0 (length nows).
Proof.
  induction nows as [|now rest IH]; intros pool Hall; [reflexivity|].
  apply Forall_cons in Hall as [Hnow Hrest].
  cbn [getNext_many].
  destruct (getNext_all_free now pool Hnow) as (Hr & Hs & Hc & Hkeep).
  specialize (IH (snd (getNext now pool))).
  destruct (getNext now pool) as [r pool1]. cbn [fst snd] in *.
  destruct (getNext_many rest pool1) as [rs pool2]. cbn [fst] in *.
  cbn [length seq fmap list_fmap]. f_equal.
  - by rewrite Nat.add_0_r.
  - rewrite IH.
    2:{ eapply Forall_impl; [exact Hrest|]. intros t Ht. by apply Hkeep. }
    rewrite <- fmap_S_seq, <- list_fmap_compose.
    apply list_fmap_ext. intros _ j _. simpl. rewrite Hs.
    assert (length (sessions pool1) = length (sessions pool)) as ->.
    { by rewrite <- (length_fmap session), Hs, length_fmap. }
    destruct (sessions pool) as [|s0 l0] eqn:E; [reflexivity|].
    rewrite Hc by done. f_equal. f_equal. lia.
Qed.

(** X12. Credential rotation: in a pool of [N] credentials none of which
    is in cooldown at the times of the calls, [N] consecutive [getNext]
    calls return the credentials in pool order starting at the rotation
    counter, hence each of them exactly once. *)
Theorem X12_credential_rotation (nows : list Z) (pool : SessionPool) :
  (forall now s, now ∈ nows -> s ∈ sessions pool ->
                 not_in_cooldown now s = true) ->
  length nows = size pool ->
  fst (getNext_many nows pool)
  = Some <$> rotate (currentIndex pool) (session <$> sessions pool) /\
  fst (getNext_many nows pool) ≡ₚ Some <$> (session <$> sessions pool).
Proof.
  intros Hfree Hlen.
  assert (fst (getNext_many nows pool)
          = Some <$> rotate (currentIndex pool) (session <$> sessions pool)) as Heq.
  { rewrite getNext_many_all_free.
    - rewrite Hlen. unfold size.
      rewrite <- (length_fmap session). apply ring_walk_rotation.
    - apply Forall_forall. intros now Hnow. apply Forall_forall.
      intros s Hs. by apply Hfree. }
  split; [exact Heq|]. rewrite Heq. by rewrite rotate_Permutation.
Qed.

(** X12 on the pool of two. *)
Lemma X12_credential_rotation_witness :
  fst (getNext_many [5; 6]%Z alice_and_bob)
  = Some <$> rotate (currentIndex alice_and_bob)
               (session <$> sessions alice_and_bob).
Proof.
  apply (X12_credential_rotation [5; 6]%Z alice_and_bob).
  - intros now s _ Hs. simpl in Hs.
    repeat (apply elem_of_cons in Hs as [->|Hs]; [reflexivity|]).
    by apply elem_of_nil in Hs.
  - reflexivity.
Defined.

(** X11. [getNext] returns [null] exactly when the pool is empty: a pool
    with credentials always yields one, even when all are in cooldown. *)
Theorem X11_null_only_when_empty (now : Z) (pool : SessionPool) :
  fst (getNext now pool) = None <-> sessions pool = [].
Proof.
  split.
  - intros Hnone. destruct (sessions pool) as [|s0 l0] eqn:E; [done|].
    exfalso. unfold getNext in Hnone. rewrite E in Hnone. rewrite <- E in *.
    destruct (availableSessions now pool) as [|a av] eqn:Eav.
    + destruct (sortedByCooldown_head (sessions pool)) as (h & Hh & _);
        [by rewrite E|].
      cbn [fst] in Hnone. rewrite Hh in Hnone. discriminate.
    + destruct (lookup_lt_is_Some_2 (a :: av)
                  (currentIndex pool mod length (a :: av))) as [[i s] Hs].
      { apply Nat.mod_upper_bound. simpl. lia. }
      rewrite Hs in Hnone. discriminate.
  - intros E. unfold getNext. by rewrite E.
Qed.

(** X13. [getAvailableCount] tells which way [getNext] goes.  When it is
    positive, [getNext] returns a pooled credential that is not in
    cooldown, advances the rotation counter by one and changes nothing
    else but that credential's [lastUsed].  When it is zero, [getNext]
    leaves the pool exactly as it was. *)
Theorem X13_available_count_decides (now : Z) (pool : SessionPool) :
  (0 < getAvailableCount now pool ->
   exists i s, sessions pool !! i = Some s /\
               not_in_cooldown now s = true /\
               getNext now pool
               = (Some (session s),
                  {| sessions := alter (touch now) i (sessions pool);
                     currentIndex := S (currentIndex pool) |})) /\
  (getAvailableCount now pool = 0 -> snd (getNext now pool) = pool).
Proof.
  unfold getAvailableCount. split.
  - intros Hpos. unfold getNext.
    destruct (sessions pool) as [|s0 l0] eqn:E.
    { unfold availableSessions in Hpos. rewrite E in Hpos. simpl in Hpos. lia. }
    rewrite <- E in *.
    destruct (availableSessions now pool) as [|a av] eqn:Eav; [simpl in Hpos; lia|].
    destruct (lookup_lt_is_Some_2 (a :: av)
                (currentIndex pool mod length (a :: av))) as [[i s] Hs].
    { apply Nat.mod_upper_bound. simpl. lia. }
    rewrite Hs. exists i, s.
    assert ((i, s) ∈ availableSessions now pool) as Hin.
    { rewrite Eav. by eapply list_elem_of_lookup_2. }
    apply elem_of_availableSessions in Hin as [? ?]. done.
  - intros Hz. apply nil_length_inv in Hz. unfold getNext. rewrite Hz.
    by destruct (sessions pool).
Qed.

(** X13 on the pool of two. *)
Lemma X13_available_count_decides_witness :
  exists i s, sessions alice_and_bob !! i = Some s /\
              not_in_cooldown 5 s = true /\
              getNext 5 alice_and_bob
              = (Some (session s),
                 {| sessions := alter (touch 5) i (sessions alice_and_bob);
                    currentIndex := S (currentIndex alice_and_bob) |}).
Proof.
  apply (proj1 (X13_available_count_decides 5 alice_and_bob)).
  vm_compute. lia.
Defined.

End PoolSelection.

(** ** Operation-id resolver: refresh *)

Section Refresh.

Import QueryIds.

Lemma fold_matches_lookup (op : string) (matches : list (string * string)) :
  forall init : gmap string string,
  fold_left (fun ids m => js_assign (snd m) (fst m) ids) matches init !! op
  = if bool_decide (op = "__proto__"%string) then init !! op
    else match last_match op matches with
         | Some id => Some id
         | None => init !! op
         end.
Proof.
  induction matches as [|m rest IH]; intros init.
  { cbn [fold_left last_match]. by case_bool_decide. }
  cbn [fold_left last_match]. rewrite IH. unfold js_assign.
  destruct (bool_decide (op = "__proto__"%string)) eqn:Eop.
  - apply bool_decide_eq_true_1 in Eop as ->.
    case_bool_decide as Em; [reflexivity|]. by rewrite lookup_insert_ne.
  - apply bool_decide_eq_false_1 in Eop.
    destruct (last_match op rest) as [id|]; [reflexivity|].
    case_bool_decide as Em.
    + rewrite decide_False by congruence. reflexivity.
    + case_decide as E.
      * by rewrite <- E, lookup_insert_eq.
      * by rewrite lookup_insert_ne.
Qed.

Lemma last_match_nonempty (op id : string) (matches : list (string * string)) :
  nonempty_ids matches -> last_match op matches = Some id -> id <> EmptyString.
Proof.
  induction 1 as [|m rest Hm _ IH]; [discriminate|].
  cbn [last_match]. destruct (last_match op rest) as [id'|].
  - intros [= ->]. by apply IH.
  - case_decide; [|discriminate]. by intros [= <-].
Qed.

Lemma scanned_ids_lookup (op : string) (matches : list (string * string)) :
  scanned_ids matches !! op
  = if bool_decide (op = "__proto__"%string) then None
    else match last_match op matches with
         | Some id => Some id
         | None => FALLBACK_QUERY_IDS !! op
         end.
Proof.
  unfold scanned_ids. rewrite fold_matches_lookup.
  case_bool_decide as E; [|reflexivity]. by rewrite E.
Qed.

Lemma scanned_ids_nonempty (op id : string) (matches : list (string * string)) :
  nonempty_ids matches -> scanned_ids matches !! op = Some id ->
  id <> EmptyString.
Proof.
  intros Hne. rewrite scanned_ids_lookup.
  case_bool_decide; [discriminate|].
  destruct (last_match op matches) as [id'|] eqn:El.
  - intros [= ->]. by eapply last_match_nonempty.
  - by apply fallback_ids_truthy.
Qed.

(** Every value that indexing the scanned table can yield is truthy. *)
Lemma scanned_ids_truthy (op : string) (matches : list (string * string)) :
  nonempty_ids matches ->
  truthy_entry (scanned_ids matches) op = js_index (scanned_ids matches) op.
Proof.
  intros Hne. unfold truthy_entry, js_index.
  destruct (scanned_ids matches !! op) as [id|] eqn:E.
  - apply (scanned_ids_nonempty _ _ _ Hne), truthy_str_true in E.
    cbn [truthy_value]. by rewrite E.
  - by case_bool_decide.
Qed.

(** X14. A successful [refresh] and the lookups that follow it.  The
    table it returns is the one [list] shows afterwards; an operation
    named by the bundle maps to the query id of its last match, every
    other operation keeps its fallback id (no fallback operation is
    lost), and a match that names [__proto__] stores nothing; and for
    [cacheTTL] after the refresh, [get] answers as indexing that table
    does: it resolves to the listed id, resolves to the inherited member
    for a name of [Object.prototype] that the table does not list, and
    rejects every other name. *)
Theorem X14_refresh_then_get (now t : Z) (matches : list (string * string))
    (m : QueryIdManager) :
  nonempty_ids matches ->
  t - now < cacheTTL ->
  let tbl := fst (refresh now (Bundle matches) Saved m) in
  let m' := snd (refresh now (Bundle matches) Saved m) in
  list_ids m' = tbl /\
  (forall op, tbl !! op
              = if bool_decide (op = "__proto__"%string) then None
                else match last_match op matches with
                     | Some id => Some id
                     | None => FALLBACK_QUERY_IDS !! op
                     end) /\
  (forall op, get t m' op
              = match tbl !! op with
                | Some id => Resolved (Str id)
                | None =>
                    if bool_decide (op ∈ Object_prototype)
                    then Resolved (Builtin op)
                    else Rejected ("Unknown GraphQL operation: " ++ op)%string
                end).
Proof.
  intros Hne Ht. cbn [refresh saveCache fst snd]. split; [reflexivity|].
  split; [intros op; apply scanned_ids_lookup|].
  intros op. unfold get, cachedId, isCacheValid. cbn [cache fetchedAt ids].
  rewrite (proj2 (Z.ltb_lt _ _) Ht), scanned_ids_truthy by done.
  unfold js_index.
  destruct (scanned_ids matches !! op) as [id|] eqn:E; [reflexivity|].
  case_bool_decide as Hname; [reflexivity|].
  rewrite fallback_entry by done.
  rewrite scanned_ids_lookup in E.
  case_bool_decide; [|destruct (last_match op matches); [discriminate|]];
    [|by rewrite E].
  exfalso. apply Hname. subst op.
  apply (bool_decide_eq_true_1 _). vm_compute. reflexivity.
Qed.

(** X14 on a bundle that names one operation twice, one the fallback
    table does not know, and one called [__proto__]. *)
Lemma X14_refresh_then_get_witness :
  let m' := snd (refresh 1000 (Bundle sample_bundle) Saved no_cache) in
  get 2000 m' "Likes" = Resolved (Str "new-likes") /\
  get 2000 m' "DmInbox" = Resolved (Str "dm-inbox") /\
  get 2000 m' "Followers" = Resolved (Str "IOh4aS6UdGWGJUYTqliQ7Q") /\
  get 2000 m' "__proto__" = Resolved (Builtin "__proto__") /\
  get 2000 m' "Nope" = Rejected "Unknown GraphQL operation: Nope".
Proof.
  assert (nonempty_ids sample_bundle) as Hne.
  { repeat constructor; discriminate. }
  assert (2000 - 1000 < cacheTTL) as Ht by (unfold cacheTTL; lia).
  pose proof (proj2 (proj2 (X14_refresh_then_get 1000 2000 sample_bundle
                              no_cache Hne Ht))) as H.
  cbv zeta in H. cbv zeta.
  split_and!; rewrite H; reflexivity.
Defined.

(** X15. A [refresh] that fails never makes [get] worse: whatever went
    wrong (download, missing bundle URL, cache directory or cache file),
    [refresh] returns the fallback table, and every operation the
    fallback table knows still resolves afterwards, at any time; only
    when the cache file could not be written does the in-memory cache
    change, and [list] then shows the scanned table although the caller
    was handed the fallback one. *)
Theorem X15_failed_refresh (now t : Z) (got : fetched_bundle) (w : saved)
    (m : QueryIdManager) :
  (got = FetchFailed \/ got = NoBundleUrl \/ w <> Saved) ->
  let m' := snd (refresh now got w m) in
  fst (refresh now got w m) = FALLBACK_QUERY_IDS /\
  (forall op id, FALLBACK_QUERY_IDS !! op = Some id ->
                 exists id', get t m' op = Resolved id') /\
  (m' <> m ->
   exists matches, got = Bundle matches /\ w = WriteFailed /\
                   list_ids m' = scanned_ids matches).
Proof.
  intros Hfail. cbv zeta.
  assert (forall (m0 : QueryIdManager) op id,
            FALLBACK_QUERY_IDS !! op = Some id ->
            exists id', get t m0 op = Resolved id') as Hget.
  { intros m0 op id Hfb. by eapply get_fallback_resolves. }
  destruct got as [| |matches]; cbn [refresh fst snd].
  - split_and!; [reflexivity|apply Hget|done].
  - split_and!; [reflexivity|apply Hget|done].
  - destruct w; cbn [saveCache fst snd].
    + destruct Hfail as [?|[?|?]]; done.
    + split_and!; [reflexivity|apply Hget|done].
    + split_and!; [reflexivity|apply Hget|].
      intros _. by exists matches.
Qed.

(** X15 on a cache file that cannot be written. *)
Lemma X15_failed_refresh_witness :
  fst (refresh 1000 (Bundle sample_bundle) WriteFailed no_cache)
  = FALLBACK_QUERY_IDS.
Proof.
  refine (proj1 (X15_failed_refresh 1000 2000 (Bundle sample_bundle)
                   WriteFailed no_cache _)).
  right; right; discriminate.
Defined.

End Refresh.

(** ** Paginator: resuming *)

Section ResumedRuns.

Import Pagination.

Context {T : Type}.







Lemma start_items p d : allItems (@start T p d) = [].
Proof.
  unfold start. destruct (loadState d p) as [[sv|] p1]; [|done].
  by destruct (truthy_ostr (cursor sv)).
Qed.



(** The start of a run on a disk whose resume file holds a checkpoint
    with a cursor. *)
Lemma start_resumed (p : Paginator) d f sv :
  resume_file p = Some f -> d !! f = Some (Checkpoint sv) ->
  truthy_ostr (cursor sv) = true ->
  @start T p d
  = {| allItems := []; cur := cursor sv; more := true;
       pageCount := pagesFetched sv; calls := 0%nat; slept := [];
       pg := set_state sv p; disk := d |}.
Proof.
  intros [Hf Ht]%resume_file_Some Hd Hc.
  unfold start, loadState. by rewrite Hf, Ht, Hd, Hc.
Qed.


(** X17. A resumed run whose checkpoint has already reached the cap
    fetches nothing: for every page-fetch function and any fuel it
    resolves at once, without a single call, with no items, the page
    count of the checkpoint and [complete = false].  With [all] set the
    disk is left as it is, so the same command run again does the same;
    without [all] the checkpoint is deleted, if the file system lets
    it, although nothing was fetched. *)
Theorem X17_resume_at_cap (fetchFn : FetchPage T) (io : World)
    (fuel : nat) (p : Paginator) (d : gmap string file) (f : string)
    (sv : CursorState) (n : Z) :
  resume_file p = Some f ->
  d !! f = Some (Checkpoint sv) ->
  truthy_ostr (cursor sv) = true ->
  maxPages_of (options p) = Finite n ->
  n <= pagesFetched sv ->
  exists s,
    fetchAll fetchFn io fuel p d
    = Some (Resolved {| f_items := []; pagesLoaded := pagesFetched sv;
                        complete := false |},
            s, if all_set (options p) then d
               else if unlinks io then delete f d else d) /\
    calls s = 0%nat /\ cur s = cursor sv.
Proof.
  intros Hf Hd Hc Hcap Hn. exists (@start T p d).
  pose proof Hf as [Hr Ht]%resume_file_Some.
  unfold fetchAll. rewrite Hcap, run_stops.
  2:{ rewrite (start_resumed p d f sv Hf Hd Hc). unfold wants.
      cbn [more pageCount below andb]. lia. }
  rewrite (start_resumed p d f sv Hf Hd Hc).
  cbn [more pageCount allItems pg disk calls cur negb orb set_state options].
  split; [|done]. do 2 f_equal.
  destruct (all_set (options p)); cbn [negb]; [reflexivity|].
  unfold clearState, set_state. cbn [options]. rewrite Hr, Ht.
  by destruct (unlinks io).
Qed.

End ResumedRuns.

Section ResumedRunsSamples.

Import Pagination.


(** X17 on [--max-pages 2 --resume state.json] after two pages: the
    checkpoint is deleted without a request. *)
Lemma X17_resume_at_cap_witness :
  exists s,
    fetchAll pages_forever calm 0 capped two_pages_done
    = Some (Resolved {| f_items := []; pagesLoaded := 2; complete := false |},
            s, delete state_json two_pages_done) /\
    calls s = 0%nat /\ cur s = Some "c2"%string.
Proof.
  apply (X17_resume_at_cap pages_forever calm 0 capped two_pages_done
           state_json
           {| cursor := Some "c2"%string; pagesFetched := 2; totalItems := 4;
              lastUpdated := 2000; query := None |} 2);
    [reflexivity..|simpl; lia].
Defined.

End ResumedRunsSamples.

(** ** Paginator: streaming *)

Section Streaming.

Import Pagination.

Context {T : Type}.
Variable fetchFn : FetchPage T.
Variable io : World.

Lemma stream_stops (fuel : nat) (mx : cap) (g : StreamLoop T) :
  g_more g && below (g_pageCount g) mx = false ->
  stream_run fetchFn io fuel mx g = Some (g, None).
Proof. intros H. destruct fuel; simpl; by rewrite H. Qed.

Lemma stream_O (mx : cap) (g : StreamLoop T) :
  g_more g && below (g_pageCount g) mx = true ->
  stream_run fetchFn io O mx g = None.
Proof. intros H. simpl. by rewrite H. Qed.

Lemma stream_S (fuel : nat) (mx : cap) (g : StreamLoop T) :
  g_more g && below (g_pageCount g) mx = true ->
  stream_run fetchFn io (S fuel) mx g
  = match fetchFn (g_calls g) (g_cur g) with
    | Throws msg => Some (g, Some msg)
    | Page r => stream_run fetchFn io fuel mx (stream_step io mx g r)
    end.
Proof. intros H. simpl. by rewrite H. Qed.

(** The locals that [fetchAll] and [stream] have in common. *)
Lemma stream_sim mx : forall fuel (s : Loop T) (g : StreamLoop T),
  stream_core g = core s -> g_calls g = calls s -> g_slept g = slept s ->
  options (g_pg g) = options (pg s) ->
  match run fetchFn io fuel mx s, stream_run fetchFn io fuel mx g with
  | Some (s', res), Some (g', res') =>
      res' = res /\ stream_core g' = core s' /\ g_calls g' = calls s' /\
      g_slept g' = slept s' /\
      exists ys,
        g_out g' = g_out g ++ ys /\
        allItems s' = allItems s ++ concat (y_items <$> ys) /\
        y_page <$> ys = pages_from (pageCount s) (calls s' - calls s) /\
        length ys = (calls s' - calls s)%nat
  | None, None => True
  | _, _ => False
  end.
Proof.
  induction fuel as [|fuel IH]; intros s g Hcore Hcalls Hslept Hopt;
    pose proof Hcore as [= Hcur Hmore Hpc];
    destruct (wants mx s) eqn:Ew.
  - rewrite run_O, stream_O; [done| |done].
    unfold wants in Ew. by rewrite Hmore, Hpc.
  - rewrite run_stops, stream_stops; [| |done].
    + split_and!; try done. exists []. rewrite !app_nil_r, Nat.sub_diag. done.
    + unfold wants in Ew. by rewrite Hmore, Hpc.
  - rewrite run_S, stream_S; [| |done].
    2:{ unfold wants in Ew. by rewrite Hmore, Hpc. }
    rewrite Hcalls, Hcur.
    destruct (fetchFn (calls s) (cur s)) as [r|msg].
    + specialize (IH (step io mx s r) (stream_step io mx g r)).
      destruct (run fetchFn io fuel mx (step io mx s r))
        as [[s' res]|] eqn:Erun;
        destruct (stream_run fetchFn io fuel mx (stream_step io mx g r))
        as [[g' res']|]; try (apply IH; fail).
      * destruct IH as (Hres & Hc' & Hk' & Hs' & ys & Hout & Hitems & Hpages & Hlen).
        { unfold stream_core, core. cbn. by rewrite Hpc. }
        { cbn. by rewrite Hcalls. }
        { cbn. by rewrite Hpc, Hmore, Hslept, Hopt || rewrite Hpc, Hslept, Hopt. }
        { cbn. done. }
        split_and!; try done.
        destruct (run_inv _ _ _ _ _ _ _ Erun) as (_ & Hle & _).
        cbn [step calls pageCount allItems] in Hle, Hitems, Hpages, Hlen.
        cbn [stream_step g_out] in Hout.
        exists ({| y_items := Twitter.items r; y_page := g_pageCount g + 1;
                   y_cursor := Twitter.cursor r;
                   y_hasMore := Twitter.hasMore r |} :: ys).
        replace (calls s' - calls s)%nat with (S (calls s' - S (calls s)))
          by lia.
        split_and!.
        -- by rewrite Hout, <- app_assoc.
        -- rewrite Hitems, <- app_assoc. reflexivity.
        -- rewrite fmap_cons. cbn [y_page pages_from]. rewrite Hpc.
           by rewrite Hpages.
        -- cbn [length]. by rewrite Hlen.
      * exfalso. apply IH; cbn; try done.
        -- unfold stream_core, core. cbn. by rewrite Hpc.
        -- by rewrite Hcalls.
        -- by rewrite Hpc, Hslept, Hopt.
      * exfalso. apply IH; cbn; try done.
        -- unfold stream_core, core. cbn. by rewrite Hpc.
        -- by rewrite Hcalls.
        -- by rewrite Hpc, Hslept, Hopt.
      * done.
    + split_and!; try done. exists []. rewrite !app_nil_r, Nat.sub_diag. done.
  - rewrite run_stops, stream_stops; [| |done].
    + split_and!; try done. exists []. rewrite !app_nil_r, Nat.sub_diag. done.
    + unfold wants in Ew. by rewrite Hmore, Hpc.
Qed.

Lemma stream_start_sim (p : Paginator) (d : gmap string file) :
  stream_core (@stream_start T p d) = core (@start T p d) /\
  g_calls (@stream_start T p d) = calls (@start T p d) /\
  g_slept (@stream_start T p d) = slept (@start T p d) /\
  options (g_pg (@stream_start T p d)) = options (pg (@start T p d)) /\
  g_out (@stream_start T p d) = [] /\
  g_disk (@stream_start T p d) = d /\
  g_calls (@stream_start T p d) = 0%nat /\
  options (g_pg (@stream_start T p d)) = options p.
Proof.
  unfold stream_start, start, loadState.
  destruct (resume (options p)) as [f|]; [|done].
  destruct (truthy_str f); [|done].
  destruct (d !! f) as [[sv|]|]; try done.
  by destruct (truthy_ostr (cursor sv)).
Qed.

(** X18. [stream] and [fetchAll] walk the same pages.  Given the same
    page-fetch function, io, options and disk, the two make the same
    calls and take the same sleeps, end with the same cursor and page
    count, and fail with the same error when [fetchFn] throws; the
    values [stream] yields carry, in order, exactly the items [fetchAll]
    collects, numbered consecutively from the page count the run starts
    with.  With too little fuel for the one there is too little for the
    other. *)
Theorem X18_stream_matches_fetchAll (fuel : nat) (p : Paginator)
    (d : gmap string file) :
  match fetchAll fetchFn io fuel p d, stream fetchFn io fuel p d with
  | Some (o, s, _), Some (out, err, g, _) =>
      err = match o with Rejected msg => Some msg | Resolved _ => None end /\
      concat (y_items <$> out) = allItems s /\
      y_page <$> out = pages_from (pageCount (@start T p d)) (calls s) /\
      length out = calls s /\
      stream_core g = core s /\ g_calls g = calls s /\ g_slept g = slept s
  | None, None => True
  | _, _ => False
  end.
Proof.
  destruct (stream_start_sim p d) as (Hc & Hk & Hs & Ho & Hout & _ & _ & _).
  pose proof (stream_sim (maxPages_of (options p)) fuel _ _ Hc Hk Hs Ho) as H.
  unfold fetchAll, stream.
  destruct (run _ _ _ _ _) as [[s' res]|], (stream_run _ _ _ _ _) as [[g' res']|];
    try done.
  destruct H as (-> & Hc' & Hk' & Hs' & ys & Hys & Hitems & Hpages & Hlen).
  rewrite Hout in Hys. cbn [app] in Hys.
  rewrite start_items in Hitems. cbn [app] in Hitems.
  destruct (start_fresh (T:=T) p d) as (Hc0 & _ & _).
  rewrite Hc0, Nat.sub_0_r in Hpages, Hlen.
  destruct res as [msg|]; rewrite Hys; by split_and!.
Qed.



End Streaming.

Section StreamingSamples.

Import Pagination.


End StreamingSamples.

(** ** Paginated commands *)

Section PaginatedCommands.

Import Pagination.

Context {T : Type}.
Variable parseInt : string -> option Z.
Variable fetchFn : FetchPage T.
Variable io : World.

(** After its first page, the loop only goes on with a non-empty
    cursor, so the wrapper never falls back to the flag again. *)
Lemma run_cli_cursor (cli : PaginatedCommandOptions) mx :
  forall fuel (s : Loop T),
  ((0 < calls s)%nat -> more s = true -> truthy_ostr (cur s) = true) ->
  run (with_cli_cursor fetchFn cli) io fuel mx s
  = run (cursor_on_first_call fetchFn cli) io fuel mx s.
Proof.
  induction fuel as [|fuel IH]; intros s Hinv;
    destruct (wants mx s) eqn:Ew.
  - by rewrite !run_O.
  - by rewrite !run_stops.
  - rewrite !run_S by done.
    assert (with_cli_cursor fetchFn cli (calls s) (cur s)
            = cursor_on_first_call fetchFn cli (calls s) (cur s)) as ->.
    { unfold with_cli_cursor, cursor_on_first_call.
      destruct (calls s) as [|k] eqn:Ek; [reflexivity|].
      rewrite Hinv; [reflexivity|lia|].
      unfold wants in Ew. by apply andb_true_iff in Ew as [? _]. }
    destruct (cursor_on_first_call fetchFn cli (calls s) (cur s)) as [r|msg];
      [|reflexivity].
    apply IH. intros _. apply step_more.
  - by rewrite !run_stops.
Qed.

(** X20. The [--cursor] flag of a paginated command.  Without [--all]
    and [--max-pages] the command makes exactly one request, at the
    flag's cursor, and never touches the disk, so that [--resume] is
    ignored.  With one of them it runs [fetchAll], and the flag is
    consulted for the first request only, and only when no checkpoint
    cursor is resumed: every later request carries the cursor of the
    page before it. *)
Theorem X20_cursor_flag (fuel : nat) (now : Z)
    (cli : PaginatedCommandOptions) (d : gmap string file) :
  (default false (c_all cli) = false ->
   truthy_ostr (c_maxPages cli) = false ->
   executePaginated parseInt fetchFn io fuel now cli d
   = Some (match fetchFn 0%nat (c_cursor cli) with
           | Page r => (Resolved (SinglePage r), 1%nat, d)
           | Throws msg => (Rejected msg, 0%nat, d)
           end)) /\
  (forall p d0,
     fetchAll (with_cli_cursor fetchFn cli) io fuel p d0
     = fetchAll (cursor_on_first_call fetchFn cli) io fuel p d0) /\
  (default false (c_all cli) = true \/ truthy_ostr (c_maxPages cli) = true ->
   executePaginated parseInt fetchFn io fuel now cli d
   = match fetchAll (cursor_on_first_call fetchFn cli) io fuel
             (command_paginator parseInt now cli) d with
     | None => None
     | Some (Resolved res, s, d') =>
         Some (Resolved (AllPages (f_items res) (pagesLoaded res)
                           (complete res) (Z.of_nat (length (f_items res)))),
               calls s, d')
     | Some (Rejected msg, s, d') => Some (Rejected msg, calls s, d')
     end).
Proof.
  assert (forall p d0,
            fetchAll (with_cli_cursor fetchFn cli) io fuel p d0
            = fetchAll (cursor_on_first_call fetchFn cli) io fuel p d0)
    as Heq.
  { intros p d0. unfold fetchAll. rewrite run_cli_cursor; [reflexivity|].
    destruct (start_fresh (T:=T) p d0) as (Hc0 & _ & _). lia. }
  split; [|split; [exact Heq|]].
  - intros Hall Hmax. unfold executePaginated. rewrite Hall, Hmax. cbn [negb andb].
    by destruct (fetchFn 0%nat (c_cursor cli)).
  - intros Hflag. unfold executePaginated. rewrite Heq.
    destruct Hflag as [-> | ->]; cbn [negb andb]; [reflexivity|].
    by rewrite andb_false_r.
Qed.

End PaginatedCommands.

Section PaginatedCommandsSamples.

Import Pagination.

(** X20 on [--all --cursor c1] against the timeline of three pages: the
    second request is made at [c2], not at [c1] again. *)
Lemma X20_cursor_flag_witness :
  exists s d',
    fetchAll (cursor_on_first_call (by_cursor timeline) all_from_c1) calm 5
      (command_paginator (fun _ => None) 0 all_from_c1) ∅
    = Some (Resolved {| f_items := [3; 4; 5]%nat; pagesLoaded := 2;
                        complete := true |}, s, d') /\
    executePaginated (fun _ => None) (by_cursor timeline) calm 5 0
      all_from_c1 ∅
    = Some (Resolved (AllPages [3; 4; 5]%nat 2 true 3), calls s, d').
Proof.
  assert (exists s d',
            fetchAll (cursor_on_first_call (by_cursor timeline) all_from_c1)
              calm 5 (command_paginator (fun _ => None) 0 all_from_c1) ∅
            = Some (Resolved {| f_items := [3; 4; 5]%nat; pagesLoaded := 2;
                                complete := true |}, s, d'))
    as (s & d' & Hrun).
  { do 2 eexists. vm_compute. reflexivity. }
  exists s, d'. split; [exact Hrun|].
  rewrite (proj2 (proj2 (X20_cursor_flag (fun _ => None) (by_cursor timeline)
                           calm 5 0 all_from_c1 ∅))
             (or_introl eq_refl)).
  by rewrite Hrun.
Defined.

End PaginatedCommandsSamples.

(** ** Paginator: pacing *)

Section Pacing.

Import Pagination.

Context {T : Type}.
Variable fetchFn : FetchPage T.
Variable io : World.




End Pacing.

Section PacingSamples.

Import Pagination.


End PacingSamples.

(** ** Session pool: what a lockout touches *)

Section LockoutFrame.

Import Pool.

(** X22. [markLimited] locks the first pooled entry with the session's
    token and touches nothing else.  That entry keeps its credential and
    its [lastUsed], gets a cooldown ending 24 hours after the call, and
    records limit 0, remaining 0 and the given reset time for the
    endpoint; every other entry, a later one with the same token
    included, the rotation counter and the size of the pool stay as they
    were. *)
Theorem X22_markLimited_first_match (now : Z) (c : Session) (endpoint : string)
    (resetTime : Z) (pool : SessionPool) (i : nat) (s : PooledSession) :
  sessions pool !! i = Some s ->
  authToken (session s) = authToken c ->
  (forall j y, sessions pool !! j = Some y -> (j < i)%nat ->
               authToken (session y) <> authToken c) ->
  let pool' := markLimited now c endpoint resetTime pool in
  currentIndex pool' = currentIndex pool /\
  size pool' = size pool /\
  (exists s', sessions pool' !! i = Some s' /\
              session s' = session s /\ lastUsed s' = lastUsed s /\
              cooldownUntil s' = Some (now + 86400000) /\
              rateLimits s'
              = <[endpoint := {| RateLimit.limit := 0; RateLimit.remaining := 0;
                                 RateLimit.reset := resetTime |}]>
                  (rateLimits s)) /\
  (forall j, j <> i -> sessions pool' !! j = sessions pool !! j).
Proof.
  intros Hi Htok Hfirst pool'. subst pool'. unfold markLimited.
  assert (find_by_token (authToken c) (sessions pool) = Some (i, s)) as ->.
  { apply list_find_Some. split; [done|]. split; [done|]. exact Hfirst. }
  cbn [currentIndex sessions]. unfold size. cbn [sessions].
  split; [reflexivity|]. split; [by rewrite length_alter|]. split.
  - exists (limit_session now endpoint resetTime s).
    rewrite list_lookup_alter_eq, Hi. done.
  - intros j Hj. by rewrite list_lookup_alter_ne.
Qed.

(** X22 on a pool that holds the same credential twice: the second copy
    is not locked. *)
Lemma X22_markLimited_first_match_witness :
  sessions (markLimited 1000 alice "UserTweets" 1700000000 alice_twice) !! 1%nat
  = sessions alice_twice !! 1%nat.
Proof.
  refine (proj2 (proj2 (proj2
            (X22_markLimited_first_match 1000 alice "UserTweets" 1700000000
               alice_twice 0
               {| session := alice; rateLimits := ∅; lastUsed := 0;
                  cooldownUntil := None |} eq_refl eq_refl _))) 1%nat _).
  - intros j y _ Hj. lia.
  - discriminate.
Defined.

End LockoutFrame.
